(** * Noted-Cli: the commit-propagation helpers and their walking loops

    A shallow embedding of the helper functions of the Noted command-line
    tool that the specification discusses:

    - [findWorkspaceRoot] (upload command) and [getWorkspaceRoot]
      (commands/nav.js): the upward walks looking for a [.git] entry;
    - the name-collision loops of [getWorkspaceName] (functions/getters.js)
      and of the [folder add] action;
    - [isSubmodule] and the two versions of [commitChanges]: the one with
      branch recovery and scoped staging, and the one of
      functions/commitHelper.js.

    JavaScript strings are modelled as [string] (sequences of bytes, UTF-8
    for the non-ASCII characters of the messages).  The version-control
    engine reached through simple-git is a parameter of the embedding: an
    arbitrary function from requests to responses over an arbitrary world.
    A small reference engine is given as well, to run the code on concrete
    repositories. *)

From Stdlib Require Import String Ascii List Arith Lia Bool.
From stdpp Require Import base decidable option list gmap strings pretty.

Local Open Scope string_scope.
Local Open Scope list_scope.

(** ** JavaScript strings *)

Module Js.

(** [s.slice(b, e)] for [0 <= b <= e]. *)
Definition slice (s : string) (b e : nat) : string :=
  String.substring b (e - b) s.

(** [s.charCodeAt(i) === 47]. *)
Definition is_slash_at (s : string) (i : nat) : bool :=
  match String.get i s with
  | Some c => Ascii.eqb c "/"
  | None => false
  end.

(** The UTF-8 encodings of the code points that [String.prototype.trim]
    removes: ECMAScript's WhiteSpace (TAB, VT, FF, SP, NBSP, ZWNBSP and the
    other space separators) and LineTerminator (LF, CR, LS, PS). *)
Definition bytes (l : list nat) : string :=
  string_of_list_ascii (map ascii_of_nat l).

Definition white_space : list string :=
  map bytes
    [ [9]; [10]; [11]; [12]; [13]; [32];
      [194; 160];
      [225; 154; 128];
      [226; 128; 128]; [226; 128; 129]; [226; 128; 130]; [226; 128; 131];
      [226; 128; 132]; [226; 128; 133]; [226; 128; 134]; [226; 128; 135];
      [226; 128; 136]; [226; 128; 137]; [226; 128; 138];
      [226; 128; 168]; [226; 128; 169]; [226; 128; 175];
      [226; 129; 159];
      [227; 128; 128];
      [239; 187; 191] ].

Fixpoint drop (n : nat) (s : string) : string :=
  match n, s with
  | S n', String _ s' => drop n' s'
  | _, _ => s
  end.

(** The first pattern of [pats] that is a prefix of [s], if any. *)
Fixpoint leading (pats : list string) (s : string) : option string :=
  match pats with
  | [] => None
  | p :: pats' => if String.prefix p s then Some p else leading pats' s
  end.

Fixpoint trim_start_with (pats : list string) (fuel : nat) (s : string) : string :=
  match fuel with
  | 0 => s
  | S fuel' =>
      match leading pats s with
      | Some p => trim_start_with pats fuel' (drop (String.length p) s)
      | None => s
      end
  end.

Definition trimStart (s : string) : string :=
  trim_start_with white_space (String.length s) s.

Definition trimEnd (s : string) : string :=
  String.rev
    (trim_start_with (map String.rev white_space) (String.length s) (String.rev s)).

(** [s.trim()]. *)
Definition trim (s : string) : string := trimEnd (trimStart s).

(** A double-quoted piece of a template literal. *)
Definition dquote : string := String (ascii_of_nat 34) EmptyString.
Definition quoted (s : string) : string := dquote +:+ s +:+ dquote.

(** Truthiness of a string value: only the empty string is falsy. *)
Definition truthy (s : string) : bool := negb (s =? EmptyString).

(** [a || b] on strings. *)
Definition or_else (a b : string) : string := if truthy a then a else b.

End Js.

(** ** Node's [path] module (POSIX flavour) *)

Module NodePath.

(** The backward scan of [path.dirname]:
    [for (i = path.length - 1; i >= 1; --i)], looking for the last slash
    that is followed by a non-slash character.  [i] is the current index,
    [None] stands for [end === -1]. *)
Fixpoint dirname_scan (path : string) (i : nat) (matchedSlash : bool) : option nat :=
  match i with
  | 0 => None
  | S j =>
      if Js.is_slash_at path i then
        if matchedSlash then dirname_scan path j true else Some i
      else dirname_scan path j false
  end.

Definition dirname (path : string) : string :=
  if (String.length path =? 0)%nat then "."
  else
    let hasRoot := Js.is_slash_at path 0 in
    match dirname_scan path (String.length path - 1) true with
    | None => if hasRoot then "/" else "."
    | Some e =>
        if hasRoot && (e =? 1)%nat then "//" else Js.slice path 0 e
    end.

(** The backward scan of [path.basename] (no extension argument):
    [for (i = path.length - 1; i >= 0; --i)].  [n] counts the indices
    still to visit, so the current index is [n - 1]; the result is the
    pair [(start, end)], with [end = None] for [-1]. *)
Fixpoint basename_scan (path : string) (n : nat) (matchedSlash : bool)
    (e : option nat) : nat * option nat :=
  match n with
  | 0 => (0, e)
  | S i =>
      if Js.is_slash_at path i then
        if matchedSlash then basename_scan path i matchedSlash e
        else (i + 1, e)
      else
        match e with
        | None => basename_scan path i false (Some (i + 1))
        | Some _ => basename_scan path i matchedSlash e
        end
  end.

Definition basename (path : string) : string :=
  match basename_scan path (String.length path) true None with
  | (_, None) => EmptyString
  | (start, Some e) => Js.slice path start e
  end.

Definition isAbsolute (path : string) : bool := Js.is_slash_at path 0.

End NodePath.

(** ** Repository Locator: the upward walks *)

(** Results of a loop run with a bound on its iterations: [None] when the
    bound is exhausted before the loop ends, [Some r] when the function
    returns [r].  A JavaScript [null] result is [None] inside. *)
Definition returned (A : Type) := option A.
Definition null {A : Type} : option A := None.

Module Locator.

Section Walk.
(** [fs.existsSync] and [path.join], as the filesystem and Node provide
    them. *)
Variable existsSync : string -> bool.
Variable join : string -> string -> string.

(** [findWorkspaceRoot(currentPath)] of the upload command. *)
Fixpoint findWorkspaceRoot_loop (fuel : nat) (workspaceRoot : string)
    : returned (option string) :=
  match fuel with
  | 0 => None
  | S fuel' =>
      if negb (existsSync (join workspaceRoot ".git")) then
        let parentPath := NodePath.dirname workspaceRoot in
        if parentPath =? workspaceRoot then Some null
        else findWorkspaceRoot_loop fuel' parentPath
      else Some (Some workspaceRoot)
  end.

Definition findWorkspaceRoot (fuel : nat) (currentPath : string) :=
  findWorkspaceRoot_loop fuel currentPath.

(** [getWorkspaceRoot(currentDir)] of commands/nav.js. *)
Fixpoint getWorkspaceRoot_loop (fuel : nat) (dir : string)
    : returned (option string) :=
  match fuel with
  | 0 => None
  | S fuel' =>
      if negb (dir =? "/") then
        if existsSync (join dir ".git") then Some (Some dir)
        else getWorkspaceRoot_loop fuel' (NodePath.dirname dir)
      else Some null
  end.

Definition getWorkspaceRoot (fuel : nat) (currentDir : string) :=
  getWorkspaceRoot_loop fuel currentDir.

(** The directories the walk visits: [p], its parent, its grandparent... *)
Definition ancestor (k : nat) (p : string) : string :=
  Nat.iter k NodePath.dirname p.

(** No directory on the way up holds version-control metadata. *)
Definition no_git_ancestor (p : string) : Prop :=
  forall k, existsSync (join (ancestor k p) ".git") = false.
End Walk.

End Locator.

(** ** Name-collision loops *)

Module Names.

(** The template literal [`${baseName}-${counter}`].  The counter is a
    natural number: the loop makes at most one test more than there are
    existing names, far below the range where JavaScript numbers stop
    counting exactly. *)
Definition candidate (baseName : string) (counter : nat) : string :=
  baseName +:+ "-" +:+ pretty counter.

Section Loop.
(** The names already present in the directory the new entry goes to:
    [fs.existsSync(path.join(dir, name))] holds exactly for them. *)
Variable existing : gset string.

Definition existsSync_in_dir (name : string) : bool :=
  bool_decide (name ∈ existing).

(** The [while (fs.existsSync(...))] loop shared by [getWorkspaceName]
    and the [folder add] action; it returns the final name. *)
Fixpoint collision_loop (fuel : nat) (baseName name : string) (counter : nat)
    : returned string :=
  match fuel with
  | 0 => None
  | S fuel' =>
      if existsSync_in_dir name then
        collision_loop fuel' baseName (candidate baseName counter) (S counter)
      else Some name
  end.

(** [getWorkspaceName], from the point where the name is chosen:
    [counter = 1; baseName = workspaceName]. *)
Definition getWorkspaceName (fuel : nat) (workspaceName : string) : returned string :=
  let counter := 1 in
  let baseName := workspaceName in
  collision_loop fuel baseName workspaceName counter.

(** The [folder add] action, up to the final folder name:
    [baseFolderName = folderName || 'untitled-folder']. *)
Definition foldersCommand_add (fuel : nat) (folderName : string) : returned string :=
  let baseFolderName := Js.or_else folderName "untitled-folder" in
  let finalFolderName := baseFolderName in
  let counter := 1 in
  collision_loop fuel baseFolderName finalFolderName counter.
End Loop.

End Names.

(** ** The version-control engine seen through simple-git *)

Module Git.

(** The calls the helpers make.  [baseDir] is the directory the
    simple-git instance was created for. *)
Inductive request : Type :=
| SimpleGit (baseDir : string)
| Revparse (baseDir : string) (args : list string)
| Checkout (baseDir branch : string)
| CheckoutLocalBranch (baseDir branch : string)
| Add (baseDir pathspec : string)
| Commit (baseDir message : string)
| Raw (baseDir : string) (args : list string).

(** A promise either resolves with the text the call yields or rejects
    with an error carrying a message. *)
Inductive response : Type :=
| Resolve (out : string)
| Reject (message : string).

Definition engine (World : Type) : Type := request -> World -> response * World.

End Git.

(** ** Console output *)

Inductive colour : Type := green | red.

(** A line printed with [console.log] or [console.error], with the chalk
    colour applied to it. *)
Inductive line : Type :=
| Log (c : colour) (text : string)
| Error (c : colour) (text : string).

(** ** Asynchronous computations over an engine *)

Record error : Type := { message : string }.

Record run (World : Type) : Type := {
  world : World;
  calls : list (Git.request * Git.response);
  console : list line;
}.
Arguments world {World} _.
Arguments calls {World} _.
Arguments console {World} _.

Definition start {World : Type} (w : World) : run World :=
  {| world := w; calls := []; console := [] |}.

(** The outcome of awaiting a computation: a value or a thrown error. *)
Definition M (World A : Type) : Type := run World -> (A + error) * run World.

Definition ret {World A : Type} (a : A) : M World A := fun s => (inl a, s).

Definition bind {World A B : Type} (m : M World A) (k : A -> M World B) : M World B :=
  fun s =>
    match m s with
    | (inl a, s') => k a s'
    | (inr e, s') => (inr e, s')
    end.

(** [try { body } catch (error) { handler }]. *)
Definition try_catch {World A : Type} (body : M World A) (handler : error -> M World A)
    : M World A :=
  fun s =>
    match body s with
    | (inl a, s') => (inl a, s')
    | (inr e, s') => handler e s'
    end.

Declare Scope js_scope.
Delimit Scope js_scope with js.
Notation "x <- m ;; k" := (bind m (fun x => k))
  (at level 100, m at next level, right associativity) : js_scope.
Notation "m ;; k" := (bind m (fun _ => k))
  (at level 100, right associativity) : js_scope.
Local Open Scope js_scope.

Definition print {World : Type} (l : line) : M World unit :=
  fun s => (inl tt, {| world := world s; calls := calls s; console := console s ++ [l] |}).

Section Engine.
Context {World : Type} (engine : Git.engine World).

(** Awaiting one call on the engine: the call is recorded with its
    response; a rejection is thrown. *)
Definition await (req : Git.request) : M World string :=
  fun s =>
    let '(resp, w') := engine req (world s) in
    let s' := {| world := w'; calls := calls s ++ [(req, resp)]; console := console s |} in
    match resp with
    | Git.Resolve out => (inl out, s')
    | Git.Reject msg => (inr {| message := msg |}, s')
    end.

(** A simple-git instance; creating one checks its base directory. *)
Record handle : Type := { baseDir : string }.

Definition simpleGit (dir : string) : M World handle :=
  _ <- await (Git.SimpleGit dir) ;; ret {| baseDir := dir |}.

Definition revparse (git : handle) (args : list string) : M World string :=
  await (Git.Revparse (baseDir git) args).
Definition checkout (git : handle) (branch : string) : M World string :=
  await (Git.Checkout (baseDir git) branch).
Definition checkoutLocalBranch (git : handle) (branch : string) : M World string :=
  await (Git.CheckoutLocalBranch (baseDir git) branch).
Definition add (git : handle) (pathspec : string) : M World string :=
  await (Git.Add (baseDir git) pathspec).
Definition commit (git : handle) (msg : string) : M World string :=
  await (Git.Commit (baseDir git) msg).
Definition raw (git : handle) (args : list string) : M World string :=
  await (Git.Raw (baseDir git) args).

(** *** Submodule Detector *)

Definition superproject_query : list string :=
  ["rev-parse"; "--show-superproject-working-tree"].

(** [isSubmodule(repoPath)]: the body of the [try] yields [Some v] when
    it returns [v] and [None] when control falls through to the final
    [return null]. *)
Definition isSubmodule (repoPath : string) : M World (option string) :=
  git <- simpleGit repoPath ;;
  early <- try_catch
             (result <- raw git superproject_query ;;
              if Js.truthy result && Js.truthy (Js.trim result)
              then ret (Some (Some (Js.trim result)))
              else ret None)
             (fun _ => ret None) ;;
  match early with
  | Some v => ret v
  | None => ret null
  end.

(** Truthiness of [parentRepoPath], a string or [null]. *)
Definition truthy_path (v : option string) : bool :=
  match v with
  | Some s => Js.truthy s
  | None => false
  end.
Definition path_text (v : option string) : string := default "null" v.

(** *** Change Propagator, with branch recovery and scoped staging *)

Section Propagator.
(** [path.relative], as Node provides it. *)
Variable relative : string -> string -> string.

Definition commitChanges (currentPath commitMessage branchName : string) : M World unit :=
  try_catch
    (git <- simpleGit currentPath ;;
     repoRoot <- revparse git ["--show-toplevel"] ;;
     repoGit <- simpleGit repoRoot ;;
     currentBranch <- revparse repoGit ["--abbrev-ref"; "HEAD"] ;;
     (if Js.trim currentBranch =? "HEAD" then
        try_catch
          (checkout repoGit branchName ;;
           print (Log green ("✔ Checked out branch '" +:+ branchName +:+ "' in " +:+ repoRoot)))
          (fun _ =>
             checkoutLocalBranch repoGit branchName ;;
             print (Log green ("✔ Created and checked out new branch '" +:+ branchName
                               +:+ "' in " +:+ repoRoot)))
      else ret tt) ;;
     let relativePath := Js.or_else (relative repoRoot currentPath) "." in
     add repoGit (relativePath +:+ "/.") ;;
     print (Log green "✔ Staged changes from current directory.") ;;
     commit repoGit commitMessage ;;
     print (Log green ("✔ Committed changes: " +:+ Js.quoted commitMessage +:+ " to " +:+ repoRoot)) ;;
     parentRepoPath <- isSubmodule repoRoot ;;
     if truthy_path parentRepoPath then
       let parentRepoPath := path_text parentRepoPath in
       print (Log green ("✔ Detected submodule. Updating parent repository at "
                         +:+ parentRepoPath)) ;;
       parentGit <- simpleGit parentRepoPath ;;
       let submoduleName := NodePath.basename repoRoot in
       add parentGit ("./" +:+ submoduleName) ;;
       print (Log green ("✔ Staged submodule '" +:+ submoduleName
                         +:+ "' in parent repository.")) ;;
       commit parentGit ("Update submodule: " +:+ Js.quoted submoduleName +:+ " - "
                         +:+ commitMessage) ;;
       print (Log green ("✔ Committed submodule update for '" +:+ submoduleName
                         +:+ "' to parent repository at " +:+ parentRepoPath +:+ "."))
     else
       print (Log green "✔ No parent repository update needed."))
    (fun error =>
       print (Error red ("✖ Error committing changes: " +:+ message error))).

(** The default of the third parameter: [branchName = 'main']. *)
Definition commitChanges_default (currentPath commitMessage : string) : M World unit :=
  commitChanges currentPath commitMessage "main".
End Propagator.

End Engine.

(** *** Change Propagator of functions/commitHelper.js *)

Module CommitHelper.
Section Engine.
Context {World : Type} (engine : Git.engine World).

(** Its private [isSubmodule] has the same body as the exported one. *)
Definition isSubmodule : string -> M World (option string) := isSubmodule engine.

Definition commitChanges (repoPath commitMessage : string) : M World unit :=
  try_catch
    (git <- simpleGit engine repoPath ;;
     add engine git "." ;;
     print (Log green "✔ Staged all changes in the current workspace.") ;;
     commit engine git commitMessage ;;
     print (Log green ("✔ Committed changes: " +:+ Js.quoted commitMessage
                       +:+ " to " +:+ repoPath)) ;;
     parentRepoPath <- isSubmodule repoPath ;;
     if truthy_path parentRepoPath then
       let parentRepoPath := path_text parentRepoPath in
       print (Log green ("✔ Detected submodule. Updating parent repository at "
                         +:+ parentRepoPath)) ;;
       parentGit <- simpleGit engine parentRepoPath ;;
       let submoduleName := NodePath.basename repoPath in
       add engine parentGit parentRepoPath ;;
       print (Log green ("✔ Staged submodule '" +:+ submoduleName
                         +:+ "' in parent repository.")) ;;
       commit engine parentGit
         ("Update submodule: " +:+ Js.quoted submoduleName
          +:+ " to latest commit in workspace: " +:+ Js.quoted commitMessage) ;;
       print (Log green ("✔ Committed submodule update for '" +:+ submoduleName
                         +:+ "' to parent repository at " +:+ parentRepoPath +:+ "."))
     else
       print (Log green "✔ No parent repository update needed."))
    (fun error =>
       print (Error red ("✖ Error committing changes: " +:+ message error))).
End Engine.
End CommitHelper.

(** ** A reference engine *)

(** The external version-control engine, which the repository reaches
    through simple-git and does not implement, as a small executable model:
    it serves to run the helpers on concrete repositories. *)
Module RefGit.

Record repo : Type := {
  head : option string;              (* [None]: detached HEAD *)
  branches : gset string;
  worktree : gset string;            (* paths with changes not staged *)
  index : gset string;               (* paths staged and not committed *)
  history : list (string * gset string);  (* commits, newest first *)
  superproject : option (string * string);
    (* the superproject's working tree and this repository's path in it *)
}.

Record disk : Type := {
  empty_commit_rejects : bool;
    (* whether a commit with nothing staged rejects, or resolves empty *)
  covers : string -> string -> string -> string -> bool;
    (* [covers root baseDir pathspec path]: pathspec matching *)
  checkout_replaces : string -> string -> repo -> option (gset string);
    (* [checkout_replaces root b r]: what a checkout of the branch [b] does
       in the repository [r] at [root].  [None]: it is refused, because
       local changes would be overwritten or because there is no branch of
       that name to check out.  [Some lost]: it is accepted and leaves the
       repository on [b], having replaced the changed files [lost] of the
       working tree with those of [b]; a branch missing locally is then
       one that the engine makes from the remote branch of that name *)
  toplevel : gmap string (option string);
    (* the directories that exist, with the root of their repository *)
  repos : gmap string repo;
}.

Definition set_repo (w : disk) (root : string) (r : repo) : disk :=
  {| empty_commit_rejects := empty_commit_rejects w;
     covers := covers w;
     checkout_replaces := checkout_replaces w;
     toplevel := toplevel w;
     repos := <[root := r]> (repos w) |}.

(** The repository a directory belongs to. *)
Definition repo_of (w : disk) (dir : string) : option (string * repo) :=
  match toplevel w !! dir with
  | Some (Some root) =>
      match repos w !! root with
      | Some r => Some (root, r)
      | None => None
      end
  | _ => None
  end.

Definition with_head (r : repo) (h : option string) (bs : gset string) : repo :=
  {| head := h; branches := bs; worktree := worktree r; index := index r;
     history := history r; superproject := superproject r |}.

(** The repository after a checkout of the branch [b] that replaced the
    changed files [lost]. *)
Definition switched (r : repo) (b : string) (lost : gset string) : repo :=
  {| head := Some b; branches := branches r ∪ {[b]}; worktree := worktree r ∖ lost;
     index := index r; history := history r; superproject := superproject r |}.

Definition with_changes (r : repo) (wt ix : gset string)
    (hist : list (string * gset string)) : repo :=
  {| head := head r; branches := branches r; worktree := wt; index := ix;
     history := hist; superproject := superproject r |}.

Definition stage (w : disk) (root dir pathspec : string) (r : repo) : repo :=
  let hit := filter (fun f => covers w root dir pathspec f = true) (worktree r) in
  with_changes r (worktree r ∖ hit) (index r ∪ hit) (history r).

(** A new commit in a submodule shows as a change of its entry in the
    superproject's working tree. *)
Definition touch_superproject (w : disk) (r : repo) : disk :=
  match superproject r with
  | Some (parent, entry) =>
      match repos w !! parent with
      | Some p =>
          set_repo w parent
            (with_changes p (worktree p ∪ {[entry]}) (index p) (history p))
      | None => w
      end
  | None => w
  end.

Definition not_a_repository : string :=
  "fatal: not a git repository (or any of the parent directories): .git".

Definition newline : string := String (ascii_of_nat 10) EmptyString.

Definition nothing_to_commit : string := "nothing to commit, working tree clean".

Definition would_be_overwritten : string :=
  "error: Your local changes to the following files would be overwritten by checkout".

Definition on_repo (w : disk) (dir : string)
    (k : string -> repo -> Git.response * disk) : Git.response * disk :=
  match repo_of w dir with
  | Some (root, r) => k root r
  | None => (Git.Reject not_a_repository, w)
  end.

(** Modelled from the spec: the version-control engine of its section 6
    (path-scoped add; commit; checkout of an existing or of a new branch;
    current branch, with the sentinel [HEAD] when detached; superproject
    query, empty when there is none).  What the spec leaves open is a
    field of the disk: whether a commit with nothing staged rejects, as
    the spec has it, or resolves with an empty summary; and whether a
    checkout is accepted, and which changed files it then replaces. *)
Definition engine : Git.engine disk := fun req w =>
  match req with
  | Git.SimpleGit dir =>
      match toplevel w !! dir with
      | Some _ => (Git.Resolve EmptyString, w)
      | None =>
          (Git.Reject "Cannot use simple-git on a directory that does not exist", w)
      end
  | Git.Revparse dir args =>
      if bool_decide (args = ["--show-toplevel"]) then
        on_repo w dir (fun root _ => (Git.Resolve root, w))
      else if bool_decide (args = ["--abbrev-ref"; "HEAD"]) then
        on_repo w dir (fun _ r => (Git.Resolve (default "HEAD" (head r)), w))
      else (Git.Reject "fatal: unsupported arguments", w)
  | Git.Checkout dir b =>
      on_repo w dir (fun root r =>
        match checkout_replaces w root b r with
        | Some lost => (Git.Resolve EmptyString, set_repo w root (switched r b lost))
        | None =>
            if bool_decide (b ∈ branches r) then (Git.Reject would_be_overwritten, w)
            else
              (Git.Reject ("error: pathspec '" +:+ b
                           +:+ "' did not match any file(s) known to git"), w)
        end)
  | Git.CheckoutLocalBranch dir b =>
      on_repo w dir (fun root r =>
        if bool_decide (b ∈ branches r) then
          (Git.Reject ("fatal: a branch named '" +:+ b +:+ "' already exists"), w)
        else
          (Git.Resolve EmptyString,
           set_repo w root (with_head r (Some b) (branches r ∪ {[b]}))))
  | Git.Add dir pathspec =>
      on_repo w dir (fun root r =>
        (Git.Resolve EmptyString, set_repo w root (stage w root dir pathspec r)))
  | Git.Commit dir msg =>
      on_repo w dir (fun root r =>
        if bool_decide (index r = ∅) then
          if empty_commit_rejects w
          then (Git.Reject nothing_to_commit, w)
          else (Git.Resolve EmptyString, w)
        else
          let r' := with_changes r (worktree r) ∅ ((msg, index r) :: history r) in
          (Git.Resolve EmptyString, touch_superproject (set_repo w root r') r'))
  | Git.Raw dir args =>
      if bool_decide (args = ["rev-parse"; "--show-superproject-working-tree"]) then
        on_repo w dir (fun _ r =>
          match superproject r with
          | Some (parent, _) => (Git.Resolve (parent +:+ newline), w)
          | None => (Git.Resolve EmptyString, w)
          end)
      else (Git.Reject "fatal: unsupported arguments", w)
  end.

(** *** A concrete pathspec matcher, on slash-separated paths *)

Fixpoint segments_go (s : string) (cur : string) (acc : list string) : list string :=
  let push (cur : string) (acc : list string) :=
    if (cur =? EmptyString) || (cur =? ".") then acc
    else if cur =? ".." then tail acc
    else String.rev cur :: acc in
  match s with
  | EmptyString => rev (push cur acc)
  | String c s' =>
      if Ascii.eqb c "/" then segments_go s' EmptyString (push cur acc)
      else segments_go s' (String c cur) acc
  end.

(** The segments of a path after [base], normalised. *)
Definition segments (base : list string) (s : string) : list string :=
  segments_go s EmptyString (rev base).

Fixpoint is_prefix (l1 l2 : list string) : bool :=
  match l1, l2 with
  | [], _ => true
  | a :: l1', b :: l2' => (a =? b) && is_prefix l1' l2'
  | _ :: _, [] => false
  end.

(** A relative pathspec is resolved from the instance's base directory,
    an absolute one stands for itself; a path is covered when it lies at
    or under the resolved pathspec. *)
Definition covers_by_prefix (root baseDir pathspec path : string) : bool :=
  let target :=
    if NodePath.isAbsolute pathspec then segments [] pathspec
    else segments (segments [] baseDir) pathspec in
  is_prefix target (segments (segments [] root) path).

(** [path.relative(from, to)] on normalised absolute paths. *)
Fixpoint relative_segments (from to : list string) : list string :=
  match from, to with
  | a :: from', b :: to' =>
      if a =? b then relative_segments from' to'
      else map (fun _ => "..") from ++ to
  | _, _ => map (fun _ => "..") from ++ to
  end.

Definition relative (from to : string) : string :=
  String.concat "/" (relative_segments (segments [] from) (segments [] to)).

End RefGit.

(** ** Auxiliary definitions for the statements *)

(** The measure that goes down along the walk of [findWorkspaceRoot]. *)
Definition walk_measure (p : string) : nat :=
  if (p =? ".") || (p =? "/") then 0 else S (String.length p).

(** A filesystem without any [.git] entry, and string concatenation with a
    slash for [path.join]. *)
Definition bare_fs : string -> bool := fun _ => false.
Definition slash_join (a b : string) : string := a +:+ "/" +:+ b.

(** The line printed by the outer [catch] of [commitChanges]. *)
Definition error_line (msg : string) : line :=
  Error red ("✖ Error committing changes: " +:+ msg).

(** ** The phases of [commitChanges] *)

(** The body of [commitChanges] (the version with branch recovery), cut
    into the pieces the statements below speak about.  Composed again they
    are the function itself, see [commitChanges_phases_eq]. *)
Section Phases.
Context {World : Type} (engine : Git.engine World).
Variable relative : string -> string -> string.

(** Root of the repository and name of the current branch. *)
Definition locate (currentPath : string) : M World (string * string) :=
  git <- simpleGit engine currentPath ;;
  repoRoot <- revparse engine git ["--show-toplevel"] ;;
  repoGit <- simpleGit engine repoRoot ;;
  currentBranch <- revparse engine repoGit ["--abbrev-ref"; "HEAD"] ;;
  ret (repoRoot, currentBranch).

(** Leaving the detached-HEAD state. *)
Definition recover (repoRoot currentBranch branchName : string) : M World unit :=
  let repoGit := {| baseDir := repoRoot |} in
  if Js.trim currentBranch =? "HEAD" then
    try_catch
      (checkout engine repoGit branchName ;;
       print (Log green ("✔ Checked out branch '" +:+ branchName +:+ "' in " +:+ repoRoot)))
      (fun _ =>
         checkoutLocalBranch engine repoGit branchName ;;
         print (Log green ("✔ Created and checked out new branch '" +:+ branchName
                           +:+ "' in " +:+ repoRoot)))
  else ret tt.

(** The pathspec staged in the target repository. *)
Definition staged_pathspec (repoRoot currentPath : string) : string :=
  Js.or_else (relative repoRoot currentPath) "." +:+ "/.".

Definition stage_and_commit (repoRoot currentPath commitMessage : string) : M World unit :=
  let repoGit := {| baseDir := repoRoot |} in
  add engine repoGit (staged_pathspec repoRoot currentPath) ;;
  print (Log green "✔ Staged changes from current directory.") ;;
  commit engine repoGit commitMessage ;;
  print (Log green ("✔ Committed changes: " +:+ Js.quoted commitMessage
                    +:+ " to " +:+ repoRoot)).

(** The pathspec staged and the message used in the superproject. *)
Definition submodule_pathspec (repoRoot : string) : string :=
  "./" +:+ NodePath.basename repoRoot.
Definition submodule_message (repoRoot commitMessage : string) : string :=
  "Update submodule: " +:+ Js.quoted (NodePath.basename repoRoot) +:+ " - "
  +:+ commitMessage.

Definition commit_parent (parentRepoPath repoRoot commitMessage : string) : M World unit :=
  print (Log green ("✔ Detected submodule. Updating parent repository at "
                    +:+ parentRepoPath)) ;;
  parentGit <- simpleGit engine parentRepoPath ;;
  add engine parentGit (submodule_pathspec repoRoot) ;;
  print (Log green ("✔ Staged submodule '" +:+ NodePath.basename repoRoot
                    +:+ "' in parent repository.")) ;;
  commit engine parentGit (submodule_message repoRoot commitMessage) ;;
  print (Log green ("✔ Committed submodule update for '" +:+ NodePath.basename repoRoot
                    +:+ "' to parent repository at " +:+ parentRepoPath +:+ ".")).

Definition update_parent (repoRoot commitMessage : string) : M World unit :=
  parentRepoPath <- isSubmodule engine repoRoot ;;
  if truthy_path parentRepoPath
  then commit_parent (path_text parentRepoPath) repoRoot commitMessage
  else print (Log green "✔ No parent repository update needed.").

Definition report_failure (e : error) : M World unit :=
  print (error_line (message e)).

Definition commitChanges_phases (currentPath commitMessage branchName : string)
    : M World unit :=
  try_catch
    (found <- locate currentPath ;;
     recover (fst found) (snd found) branchName ;;
     stage_and_commit (fst found) currentPath commitMessage ;;
     update_parent (fst found) commitMessage)
    report_failure.
End Phases.

(** A property of the run that a computation keeps. *)
Definition preserves {World A : Type} (P : run World -> Prop) (m : M World A) : Prop :=
  forall s, P s -> P (snd (m s)).

(** A property that only looks at the world. *)
Definition of_world {World : Type} (P : World -> Prop) : run World -> Prop :=
  fun s => P (world s).

(** Facts about a repository of the reference engine. *)
Module Facts.
Import RefGit.


(** The repository is taken to be in detached-HEAD state: the test of
    [commitChanges] on the answer to the query for the current branch. *)
Definition detached_head (r : repo) : Prop :=
  Js.trim (default "HEAD" (head r)) = "HEAD".

(** The change of [f] is not staged, and in none of the commits made
    after [old]. *)
Definition unstaged_in (f : string) (old : list (string * gset string))
    (r : repo) : Prop :=
  (f ∉ index r)
  /\ exists new, history r = new ++ old /\ forall c, In c new -> f ∉ snd c.

(** The change of [f] is in the working tree, not staged, and in none of
    the commits made after [old]. *)
Definition pending_in (f : string) (old : list (string * gset string))
    (r : repo) : Prop :=
  f ∈ worktree r /\ unstaged_in f old r.

(** The branch recovery of [commitChanges] checks out the branch [b], and
    the checkout replaces the changed file [f]. *)
Definition replaced_by_recovery (w : disk) (root b : string) (r : repo)
    (f : string) : Prop :=
  detached_head r
  /\ exists lost, checkout_replaces w root b r = Some lost /\ f ∈ lost.

(** The path [isSubmodule] returns for a repository with this
    superproject entry: the answer of the query, trimmed. *)
Definition reported (sp : option (string * string)) (parent : string) : Prop :=
  exists pp e, sp = Some (pp, e) /\ parent = Js.trim (pp +:+ newline).

Section Frame.
Variables (w0 : disk) (root f : string) (r0 : repo) (keep : bool).

(** What a run keeps about the repository at [root] when it spares the
    change of [f]: it is not staged and in no new commit, and still in the
    working tree when [keep] says that it was there. *)
Definition scoped_inv (w : disk) : Prop :=
  toplevel w = toplevel w0 /\ covers w = covers w0
  /\ exists r, repos w !! root = Some r
       /\ superproject r = superproject r0
       /\ (keep = true -> f ∈ worktree r)
       /\ unstaged_in f (history r0) r.

(** A request that does not stage [f] in the repository at [root], and
    is no checkout of an existing branch. *)
Definition spares (req : Git.request) : Prop :=
  match req with
  | Git.Add d spec =>
      toplevel w0 !! d = Some (Some root) -> covers w0 root d spec f = false
  | Git.Checkout _ _ => False
  | _ => True
  end.
End Frame.

(** What [isSubmodule] returns for a repository with this superproject
    entry. *)
Definition detected (sp : option (string * string)) : option string :=
  match sp with
  | Some (pp, _) =>
      let t := Js.trim (pp +:+ newline) in
      if Js.truthy t then Some t else None
  | None => None
  end.

(** No change of the working tree of [r] is covered by the pathspec. *)
Definition nothing_to_stage (w : disk) (root dir spec : string) (r : repo) : Prop :=
  forall f, f ∈ worktree r -> covers w root dir spec f = false.

(** The layout the tool creates: the superproject is another repository,
    found at the path the query reports, and is no submodule itself. *)
Definition two_level (w : disk) (root : string) (sp : option (string * string)) : Prop :=
  forall pp e, sp = Some (pp, e) ->
    pp <> root
    /\ toplevel w !! Js.trim (pp +:+ newline) = Some (Some pp)
    /\ forall pr, repos w !! pp = Some pr -> superproject pr = None.

(** A repository on a named branch with nothing staged and nothing left
    to stage for [spec]; the same for its superproject and the entry of
    the submodule. *)
Definition settled (w : disk) (root spec spec' : string) (r : repo) : Prop :=
  repos w !! root = Some r
  /\ (exists h, head r = Some h /\ Js.trim h <> "HEAD")
  /\ index r = ∅
  /\ nothing_to_stage w root root spec r
  /\ forall parent, detected (superproject r) = Some parent ->
       exists pp pr, toplevel w !! parent = Some (Some pp)
         /\ repos w !! pp = Some pr
         /\ index pr = ∅
         /\ nothing_to_stage w pp parent spec' pr.

Section FirstCall.
Variables (w : disk) (root : string) (r : repo).

(** What stays as it was at the start of the call: the directories, the
    matching of pathspecs, the answer to empty commits, and the
    superproject being no submodule. *)
Definition base (w' : disk) : Prop :=
  toplevel w' = toplevel w /\ covers w' = covers w
  /\ empty_commit_rejects w' = empty_commit_rejects w
  /\ forall pp e pr, superproject r = Some (pp, e) ->
       repos w' !! pp = Some pr -> superproject pr = None.

(** The repository at [root] is on a named branch and satisfies [C]. *)
Definition root_is (C : repo -> Prop) (w' : disk) : Prop :=
  exists r', repos w' !! root = Some r'
    /\ superproject r' = superproject r
    /\ (exists h, head r' = Some h /\ Js.trim h <> "HEAD")
    /\ C r'.

(** The superproject at [pp] has nothing staged and nothing left to
    stage for the entry of the submodule. *)
Definition parent_done (pp parent spec' : string) (w' : disk) : Prop :=
  exists pr, repos w' !! pp = Some pr /\ index pr = ∅
             /\ nothing_to_stage w pp parent spec' pr.

(** What the body of the [try] establishes when it runs to its end. *)
Definition after_call (spec spec' : string) (w' : disk) : Prop :=
  base w'
  /\ root_is (fun r' => nothing_to_stage w root root spec r' /\ index r' = ∅) w'
  /\ forall parent, detected (superproject r) = Some parent ->
        exists pp, toplevel w !! parent = Some (Some pp)
                   /\ parent_done pp parent spec' w'.
End FirstCall.

End Facts.

(** What a computation establishes when it returns. *)
Definition returns {World A : Type} (P : World -> Prop) (m : M World A)
    (Q : A -> World -> Prop) : Prop :=
  forall s a, P (world s) -> fst (m s) = inl a -> Q a (world (snd (m s))).

(** The lines a call prints when every step resolves, from the staging on. *)
Definition confirmations (root commitMessage : string) (parent : option string)
    : list line :=
  [ Log green "✔ Staged changes from current directory.";
    Log green ("✔ Committed changes: " +:+ Js.quoted commitMessage +:+ " to " +:+ root) ]
  ++ match parent with
     | Some parentRepoPath =>
         [ Log green ("✔ Detected submodule. Updating parent repository at "
                      +:+ parentRepoPath);
           Log green ("✔ Staged submodule '" +:+ NodePath.basename root
                      +:+ "' in parent repository.");
           Log green ("✔ Committed submodule update for '" +:+ NodePath.basename root
                      +:+ "' to parent repository at " +:+ parentRepoPath +:+ ".") ]
     | None => [ Log green "✔ No parent repository update needed." ]
     end.

(** The lines a call prints when the commit in the target repository
    rejects. *)
Definition commit_rejected (msg : string) : list line :=
  [ Log green "✔ Staged changes from current directory."; error_line msg ].

(** Classifying and counting the calls of a run. *)
Definition is_commit (c : Git.request * Git.response) : bool :=
  match fst c with Git.Commit _ _ => true | _ => false end.
Definition is_superproject_query (c : Git.request * Git.response) : bool :=
  match fst c with Git.Raw _ _ => true | _ => false end.

Fixpoint count_calls (f : Git.request * Git.response -> bool)
    (l : list (Git.request * Git.response)) : nat :=
  match l with
  | [] => 0
  | c :: l' => (if f c then 1 else 0) + count_calls f l'
  end.

(** Sample repositories for the reference engine. *)
Module Sample.
Import RefGit.

(** A repository on branch [main] with the given pending changes. *)
Definition on_main (wt ix : gset string) (super : option (string * string)) : repo :=
  {| head := Some "main"; branches := {["main"]}; worktree := wt; index := ix;
     history := []; superproject := super |}.

(** On the sample disks there are no remote branches, and the checkout
    of a local branch carries every local change along. *)
Definition carrying : string -> string -> repo -> option (gset string) :=
  fun _ b r => if bool_decide (b ∈ branches r) then Some ∅ else None.

(** A standalone repository at [/notes], with the directories [A] and
    [B] in it. *)
Definition standalone (strict : bool) (r : repo) : disk :=
  {| empty_commit_rejects := strict;
     covers := covers_by_prefix;
     checkout_replaces := carrying;
     toplevel := {[ "/notes" := Some "/notes"; "/notes/A" := Some "/notes";
                    "/notes/B" := Some "/notes"; "/tmp" := None ]};
     repos := {[ "/notes" := r ]} |}.

(** A superproject at [/noted] with the workspace [/noted/ws] as its
    submodule. *)
Definition nested (strict : bool) (parent ws : repo) : disk :=
  {| empty_commit_rejects := strict;
     covers := covers_by_prefix;
     checkout_replaces := carrying;
     toplevel := {[ "/noted" := Some "/noted"; "/noted/ws" := Some "/noted/ws";
                    "/noted/ws/A" := Some "/noted/ws" ]};
     repos := {[ "/noted" := parent; "/noted/ws" := ws ]} |}.

Definition clean : repo := on_main ∅ ∅ None.


(** A repository in detached-HEAD state that has the branch [main], with
    changes in two directories, none staged. *)
Definition detached_from_main : repo :=
  {| head := None; branches := {["main"]}; worktree := {["A/a.md"; "B/b.md"]};
     index := ∅; history := []; superproject := None |}.

(** The same disk with another behaviour of the checkout of an existing
    branch. *)
Definition with_checkout (w : disk)
    (co : string -> string -> repo -> option (gset string)) : disk :=
  {| empty_commit_rejects := empty_commit_rejects w;
     covers := covers w;
     checkout_replaces := co;
     toplevel := toplevel w;
     repos := repos w |}.


(** When the change in the working tree is that the file is deleted, the
    checkout writes the file of the branch in its place. *)
Definition restoring (differ : gset string)
    : string -> string -> repo -> option (gset string) :=
  fun _ b r => if bool_decide (b ∈ branches r) then Some (worktree r ∩ differ) else None.

(** Changes in two directories, none staged; and the same with the
    change under [B] staged beforehand. *)
Definition two_changes : repo := on_main {["A/a.md"; "B/b.md"]} ∅ None.
Definition one_prestaged : repo := on_main {["A/a.md"]} {["B/b.md"]} None.

(** The workspace has a changed note; the superproject has a change of
    its own, unrelated to the workspace. *)
Definition workspace_edited : disk :=
  nested false (on_main {["todo.md"]} ∅ None)
    (on_main {["a.md"]} ∅ (Some ("/noted", "ws"))).

(** The same on an engine that rejects a commit with nothing staged. *)
Definition workspace_edited_strict : disk :=
  nested true (on_main {["todo.md"]} ∅ None)
    (on_main {["a.md"]} ∅ (Some ("/noted", "ws"))).


(** What a repository of a disk looks like: its head, the changed and the
    staged paths, and its commits. *)
Definition view (w : disk) (root : string)
    : option (option string * list string * list string
              * list (string * list string)) :=
  match repos w !! root with
  | Some r =>
      Some (head r, elements (worktree r), elements (index r),
            map (fun c => (fst c, elements (snd c))) (history r))
  | None => None
  end.
End Sample.

(** * Further code of the commands *)

(** ** Further string methods *)

Module JsString.

(** [s.startsWith(p)]. *)
Definition startsWith (s p : string) : bool := String.prefix p s.

(** [s.endsWith(p)]: some suffix of [s] is [p]. *)
Fixpoint endsWith (s p : string) : bool :=
  (s =? p) ||
  match s with
  | EmptyString => false
  | String _ s' => endsWith s' p
  end.

(** [s.indexOf(pattern)], with [None] for [-1]. *)
Fixpoint indexOf (s pattern : string) : option nat :=
  if String.prefix pattern s then Some 0
  else
    match s with
    | EmptyString => None
    | String _ s' => option_map S (indexOf s' pattern)
    end.

(** [s.replace(pattern, replacement)] for a string pattern, which stands
    for its first occurrence, and a replacement without dollar sign. *)
Definition replace (s pattern replacement : string) : string :=
  match indexOf s pattern with
  | Some i =>
      Js.slice s 0 i +:+ replacement +:+ Js.drop (i + String.length pattern) s
  | None => s
  end.

End JsString.

(** ** The navigation command (commands/nav.js) *)

Module NavCommand.

(** An entry of [fs.readdirSync(source, { withFileTypes: true })]. *)
Record dirent : Type := { name : string; isDirectory : bool; isFile : bool }.

(** What a run shows to the outside: printed lines, commands handed to
    [exec], and the questions of [inquirer.prompt]. *)
Inductive effect : Type :=
| Print (l : line)
| Exec (command : string)
| Prompt (message : string) (choices : list string).

(** How one pass through the body of [navigateFolders] ends: the promise
    resolves, an error is thrown, the function is entered again
    ([return navigateFolders(...)]), or the user has not answered yet. *)
Inductive next : Type :=
| Resolved
| Thrown (e : error)
| Again (currentPath currentFolder : string)
| Waiting.

Section Nav.
Variable platform : string.
Variable cwd : string.
Variable readdirSync : string -> list dirent.
Variable existsSync : string -> bool.
Variable join : string -> string -> string.

Definition getDirectories (source : string) : list string :=
  map name
    (List.filter
       (fun dirent => isDirectory dirent && negb (JsString.startsWith (name dirent) "."))
       (readdirSync source)).

Definition getNotes (source : string) : list string :=
  map name
    (List.filter
       (fun dirent => isFile dirent && JsString.endsWith (name dirent) ".md"
                      && negb (JsString.startsWith (name dirent) "."))
       (readdirSync source)).

Definition openFolderInFinder (folderPath : string) : list effect :=
  if platform =? "darwin" then [Exec ("open " +:+ Js.quoted folderPath)]
  else if platform =? "linux" then [Exec ("xdg-open " +:+ Js.quoted folderPath)]
  else [Print (Log red "Opening folders is not supported on this OS.")].

Definition openNoteInEditor (notePath : string) : list effect :=
  if platform =? "darwin" then [Exec ("open " +:+ Js.quoted notePath)]
  else if platform =? "linux" then [Exec ("xdg-open " +:+ Js.quoted notePath)]
  else [Print (Log red "Opening files is not supported on this OS.")].

Definition folder_choice (f : string) : string := "📂 " +:+ f.
Definition note_choice (n : string) : string := "📝 " +:+ n.

Definition choices (currentPath : string) : list string :=
  map folder_choice (getDirectories currentPath)
  ++ map note_choice (getNotes currentPath) ++ ["Go Back"; "Exit"].

(** [navigateWorkspaces] is declared nowhere: evaluating the call throws. *)
Definition navigateWorkspaces_undeclared : error :=
  {| message := "navigateWorkspaces is not defined" |}.

(** The part of the body after the folder block: [if
    (answers.selection.startsWith('📝'))]. *)
Definition note_block (selection : string) (script : list string)
    (currentPath currentFolder : string) : list effect * next * list string :=
  if JsString.startsWith selection "📝" then
    let noteName := JsString.replace selection "📝 " EmptyString in
    let notePath := join currentPath noteName in
    let asked :=
      Prompt ("You selected note " +:+ Js.quoted noteName
              +:+ ". What would you like to do?")
        ["Open in Text Editor"; "Go Back"; "Exit"] in
    match script with
    | [] => ([asked], Waiting, [])
    | action :: script' =>
        if action =? "Open in Text Editor" then
          (asked :: openNoteInEditor notePath, Resolved, script')
        else if action =? "Exit" then
          ([asked; Print (Log green "Exiting...")], Resolved, script')
        else ([asked], Again currentPath currentFolder, script')
    end
  else ([], Resolved, script).

(** One pass through the body of [navigateFolders(currentPath,
    currentFolder)]; [script] holds the answers the user is going to give.
    The result has the effects, the way the pass ends and the answers
    left. *)
Definition navigateFolders_body (script : list string)
    (currentPath currentFolder : string) : list effect * next * list string :=
  let asked :=
    Prompt ("You are in " +:+ Js.quoted currentFolder +:+ ". Choose an option:")
      (choices currentPath) in
  match script with
  | [] => ([asked], Waiting, [])
  | selection :: script1 =>
      if selection =? "Go Back" then
        if currentPath =? cwd then
          ([asked], Thrown navigateWorkspaces_undeclared, script1)
        else
          let parentPath := NodePath.dirname currentPath in
          let parentFolder := NodePath.basename parentPath in
          ([asked], Again parentPath parentFolder, script1)
      else if selection =? "Exit" then
        ([asked; Print (Log green "Exiting...")], Resolved, script1)
      else
        let after (done : list effect) (script' : list string) :=
          let '(more, n, rest) := note_block selection script' currentPath currentFolder in
          (done ++ more, n, rest) in
        if JsString.startsWith selection "📂" then
          let folderName := JsString.replace selection "📂 " EmptyString in
          let newPath := join currentPath folderName in
          let asked' :=
            Prompt ("You selected folder " +:+ Js.quoted folderName
                    +:+ ". What would you like to do?")
              ["Open in Finder"; "Navigate Inside"; "Go Back"; "Exit"] in
          match script1 with
          | [] => ([asked; asked'], Waiting, [])
          | action :: script2 =>
              if action =? "Open in Finder" then
                after ([asked; asked'] ++ openFolderInFinder newPath) script2
              else if action =? "Navigate Inside" then
                ([asked; asked'], Again newPath folderName, script2)
              else if action =? "Exit" then
                after [asked; asked'; Print (Log green "Exiting...")] script2
              else ([asked; asked'], Again currentPath currentFolder, script2)
          end
        else after [asked] script1
  end.

(** [navigateFolders]: the body, entered again as long as it asks for it.
    Every pass takes an answer, so [fuel] above the number of answers is
    never used up. *)
Fixpoint navigateFolders (fuel : nat) (script : list string)
    (currentPath currentFolder : string) : returned (list effect * next) :=
  match fuel with
  | 0 => None
  | S fuel' =>
      match navigateFolders_body script currentPath currentFolder with
      | (done, Again p f, rest) =>
          match navigateFolders fuel' rest p f with
          | Some (more, n) => Some (done ++ more, n)
          | None => None
          end
      | (done, n, _) => Some (done, n)
      end
  end.

(** [getNotedRepoRoot(currentDir)]. *)
Fixpoint getNotedRepoRoot_loop (fuel : nat) (dir : string)
    : returned (option string) :=
  match fuel with
  | 0 => None
  | S fuel' =>
      if negb (dir =? "/") then
        if existsSync (join dir ".notedconfig") then Some (Some dir)
        else getNotedRepoRoot_loop fuel' (NodePath.dirname dir)
      else Some null
  end.

Definition getNotedRepoRoot (fuel : nat) (currentDir : string) :=
  getNotedRepoRoot_loop fuel currentDir.

Definition navigateFromCurrentDir (fuel : nat) (script : list string)
    : returned (list effect * next) :=
  let currentDir := cwd in
  match navigateFolders fuel script currentDir (NodePath.basename currentDir) with
  | Some (more, n) =>
      Some (Print (Log green ("Starting from the current directory: " +:+ currentDir))
            :: more, n)
  | None => None
  end.

Definition navigateFromRoot (fuel : nat) (script : list string)
    : returned (list effect * next) :=
  match getNotedRepoRoot fuel cwd with
  | None => None
  | Some notedRoot =>
      if negb (truthy_path notedRoot) then
        Some ([Print (Log red "Noted repository root not found.")], Resolved)
      else
        let notedRoot := path_text notedRoot in
        match navigateFolders fuel script notedRoot "Noted Root" with
        | Some (more, n) =>
            Some (Print (Log green ("Starting from the Noted repository root: "
                                    +:+ notedRoot)) :: more, n)
        | None => None
        end
  end.

Definition navigateFromWorkspace (fuel : nat) (script : list string)
    : returned (list effect * next) :=
  match Locator.getWorkspaceRoot existsSync join fuel cwd with
  | None => None
  | Some workspaceRoot =>
      if negb (truthy_path workspaceRoot) then
        Some ([Print (Log red "Workspace root not found.")], Resolved)
      else
        let workspaceRoot := path_text workspaceRoot in
        match navigateFolders fuel script workspaceRoot
                (NodePath.basename workspaceRoot) with
        | Some (more, n) =>
            Some (Print (Log green ("Starting from the workspace root: "
                                    +:+ workspaceRoot)) :: more, n)
        | None => None
        end
  end.

(** The action of [nav [scope]]; [scope] is [None] when not given. *)
Definition navCommand (fuel : nat) (scope : option string) (script : list string)
    : returned (list effect * next) :=
  if bool_decide (scope = Some "all") then navigateFromRoot fuel script
  else if bool_decide (scope = Some "workspace") then navigateFromWorkspace fuel script
  else navigateFromCurrentDir fuel script.

End Nav.
End NavCommand.

(** The marker found at the [k]-th directory on the way up from [p], and
    at none before it. *)
Definition first_marked (existsSync : string -> bool) (join : string -> string -> string)
    (marker p : string) (k : nat) : Prop :=
  existsSync (join (Locator.ancestor k p) marker) = true
  /\ forall j, j < k -> existsSync (join (Locator.ancestor j p) marker) = false.

(** The walk of commands/nav.js, for any marker entry. *)
Fixpoint nav_walk (existsSync : string -> bool) (join : string -> string -> string)
    (marker : string) (fuel : nat) (dir : string) : returned (option string) :=
  match fuel with
  | 0 => None
  | S fuel' =>
      if negb (dir =? "/") then
        if existsSync (join dir marker) then Some (Some dir)
        else nav_walk existsSync join marker fuel' (NodePath.dirname dir)
      else Some null
  end.

(** None of the first [k] directories on the way up from [p], nor the
    [k]-th, is the filesystem root. *)
Definition below_root (p : string) (k : nat) : Prop :=
  forall j, j <= k -> Locator.ancestor j p <> "/".

(** A result of the walk with the filesystem root left out. *)
Definition hide_root (r : returned (option string)) : returned (option string) :=
  match r with
  | Some (Some d) => if d =? "/" then Some null else r
  | _ => r
  end.

(** The calls whose rejection [commitChanges] handles itself: the checkout
    of the branch recovery, and the superproject query. *)
Definition swallowed (req : Git.request) : bool :=
  match req with
  | Git.Checkout _ _ | Git.Raw _ _ => true
  | _ => false
  end.

Definition is_error (l : line) : bool :=
  match l with Error _ _ => true | Log _ _ => false end.

Definition is_checkout (c : Git.request * Git.response) : bool :=
  match fst c with
  | Git.Checkout _ _ | Git.CheckoutLocalBranch _ _ => true
  | _ => false
  end.

(** ** The Submodule Detector of the upload command *)

Module UploadDetector.

(** What the upload command's [isSubmodule] yields: a path, [null] from
    its [catch], or [undefined] when control leaves the [try] without a
    [return]. *)
Inductive answer : Type :=
| Undefined
| Null
| Text (s : string).

(** Truthiness, as tested by [if (!parentRepoPath)]. *)
Definition truthy (v : answer) : bool :=
  match v with
  | Text s => Js.truthy s
  | _ => false
  end.

Section Engine.
Context {World : Type} (engine : Git.engine World).

Definition isSubmodule (repoPath : string) : M World answer :=
  git <- simpleGit engine repoPath ;;
  early <- try_catch
             (result <- raw engine git superproject_query ;;
              if Js.truthy result && Js.truthy (Js.trim result)
              then ret (Some (Text (Js.trim result)))
              else ret None)
             (fun _ => ret (Some Null)) ;;
  match early with
  | Some v => ret v
  | None => ret Undefined
  end.
End Engine.
End UploadDetector.

(** A path or [null] for the value of the upload command's detector:
    [undefined] and [null] are both taken for [null]. *)
Definition as_path (v : UploadDetector.answer) : option string :=
  match v with
  | UploadDetector.Text s => Some s
  | _ => null
  end.

(** ** The note command *)

Module Notes.

Section Loop.
(** The entries of the current directory, as in [Names]. *)
Variable existing : gset string.

(** The [while (fs.existsSync(notePath))] loop of [note add], where
    [notePath] is the file [`${finalNoteName}.md`] of the current
    directory; it returns the final note name. *)
Fixpoint note_loop (fuel : nat) (baseNoteName finalNoteName : string) (counter : nat)
    : returned string :=
  match fuel with
  | 0 => None
  | S fuel' =>
      if Names.existsSync_in_dir existing (finalNoteName +:+ ".md") then
        note_loop fuel' baseNoteName (Names.candidate baseNoteName counter) (S counter)
      else Some finalNoteName
  end.

(** The [note add] action, up to the final note name.  [noteName] is
    [None] when the argument is not given: [noteName = 'untitled-note']. *)
Definition noteCommand_add (fuel : nat) (noteName : option string) : returned string :=
  let noteName := default "untitled-note" noteName in
  let baseNoteName := noteName in
  let finalNoteName := baseNoteName in
  let counter := 1 in
  note_loop fuel baseNoteName finalNoteName counter.
End Loop.

(** [isMainNotedRepo(currentDir)] (functions/isParent.js), on the entries
    of the current directory. *)
Definition isMainNotedRepo (existing : gset string) : bool :=
  Names.existsSync_in_dir existing ".notedconfig".

Section Action.
(** Whether [fs.writeFileSync] succeeds in writing the file of this name
    into a directory with these entries; when it does not, it throws. *)
Variable writes : gset string -> string -> bool.

(** The [note add] action, as far as the notes go: the note it creates,
    if any, and the entries of the current directory after it.  In the
    main Noted repository the action returns before the loop; when the
    write throws, the [catch] prints the error and no note is created. *)
Definition noteCommand_add_action (fuel : nat) (existing : gset string)
    (noteName : option string) : returned (option string * gset string) :=
  if isMainNotedRepo existing then Some (None, existing)
  else
    match noteCommand_add existing fuel noteName with
    | None => None
    | Some finalNoteName =>
        if writes existing (finalNoteName +:+ ".md")
        then Some (Some finalNoteName, existing ∪ {[finalNoteName +:+ ".md"]})
        else Some (None, existing)
    end.
End Action.

(** The [note delete] action: the file it looks for and removes. *)
Definition noteCommand_delete_path (join : string -> string -> string)
    (currentDir noteName : string) : string :=
  let notePath := join currentDir noteName in
  if negb (JsString.endsWith noteName ".md")
  then join currentDir (noteName +:+ ".md")
  else notePath.

(** The name [note delete] and [note list] print for a note. *)
Definition shown (noteName : string) : string :=
  JsString.replace noteName ".md" EmptyString.

End Notes.

(** The name of the [i]-th note of a series. *)
Definition nth_name (base : string) (i : nat) : string :=
  match i with
  | 0 => base
  | S _ => Names.candidate base i
  end.

(** The notes that [k] runs of [note add] create one after the other,
    each run finding the files the runs before have written. *)
Fixpoint notes_added (writes : gset string -> string -> bool) (k : nat)
    (existing : gset string) (noteName : option string) : list string :=
  match k with
  | 0 => []
  | S k' =>
      match Notes.noteCommand_add_action writes (size existing + 2) existing noteName with
      | Some (created, existing') =>
          match created with
          | Some finalNoteName => [finalNoteName]
          | None => []
          end ++ notes_added writes k' existing' noteName
      | None => []
      end
  end.

(** ** Status, remotes and push: the other calls on simple-git *)

Module Porcelain.

(** What the commands read of the result of [git.status()]. *)
Record StatusResult : Type := {
  isClean : bool;
  ahead : nat;
  created : list string;
  modified : list string;
  deleted : list string;
}.

(** An entry of the result of [git.getRemotes()]. *)
Record remote : Type := { name : string }.

(** A promise resolves with a value or rejects with a message. *)
Definition outcome (A : Type) : Type := A + string.

(** The engine behind the commands: the calls of the helpers, and the
    three calls the upload and update commands make besides. *)
Record engine (World : Type) : Type := {
  plumbing : Git.engine World;
  status_of : string -> World -> outcome StatusResult * World;
  remotes_of : string -> bool -> World -> outcome (list remote) * World;
  push_to : string -> string -> string -> World -> outcome unit * World;
}.
Arguments plumbing {World} _.
Arguments status_of {World} _.
Arguments remotes_of {World} _.
Arguments push_to {World} _.

(** Lines of the commands, with the chalk colour (if any) and the stream:
    [console.log] or [console.error]; [ErrThen] is for a coloured text with
    a plain one after it, [console.error(chalk.red(text) + plain)]. *)
Inductive tint : Type := Plain | Green | Red | Yellow | Blue.

Inductive said : Type :=
| Out (c : tint) (text : string)
| Err (c : tint) (text : string)
| ErrThen (c : tint) (text : string) (plain : string).

(** What a command does, in the order it does it. *)
Inductive event : Type :=
| Call (req : Git.request) (resp : Git.response)
| Status (baseDir : string) (r : outcome StatusResult)
| GetRemotes (baseDir : string) (verbose : bool) (r : outcome (list remote))
| Push (baseDir remote branch : string) (r : outcome unit)
| Say (l : said).

(** The world of a command: the one of the engine, and the events so
    far. *)
Record session (World : Type) : Type := {
  inner : World;
  events : list event;
}.
Arguments inner {World} _.
Arguments events {World} _.

Definition open {World : Type} (w : World) : session World :=
  {| inner := w; events := [] |}.

Section Session.
Context {World : Type} (e : engine World).

(** The engine of the helpers, every call noted among the events. *)
Definition helpers : Git.engine (session World) := fun req ss =>
  let '(resp, w') := plumbing e req (inner ss) in
  (resp, {| inner := w'; events := events ss ++ [Call req resp] |}).

Definition note (ev : event) (w' : World) (s : run (session World))
    : run (session World) :=
  {| world := {| inner := w'; events := events (world s) ++ [ev] |};
     calls := calls s; console := console s |}.

Definition settle {A : Type} (r : outcome A) (s : run (session World))
    : (A + error) * run (session World) :=
  match r with
  | inl a => (inl a, s)
  | inr msg => (inr {| message := msg |}, s)
  end.

Definition status (git : handle) : M (session World) StatusResult := fun s =>
  let '(r, w') := status_of e (baseDir git) (inner (world s)) in
  settle r (note (Status (baseDir git) r) w' s).

Definition getRemotes (git : handle) (verbose : bool)
    : M (session World) (list remote) := fun s =>
  let '(r, w') := remotes_of e (baseDir git) verbose (inner (world s)) in
  settle r (note (GetRemotes (baseDir git) verbose r) w' s).

Definition push (git : handle) (remote branch : string) : M (session World) unit :=
  fun s =>
    let '(r, w') := push_to e (baseDir git) remote branch (inner (world s)) in
    settle r (note (Push (baseDir git) remote branch r) w' s).

Definition say (l : said) : M (session World) unit := fun s =>
  (inl tt, note (Say l) (inner (world s)) s).

(** [remotes.some(remote => remote.name === 'origin')]. *)
Definition hasOrigin (remotes : list remote) : bool :=
  existsb (fun remote => name remote =? "origin") remotes.

(** [for (const x of l) { await body(x) }]. *)
Fixpoint for_of {A : Type} (l : list A) (body : A -> M (session World) unit)
    : M (session World) unit :=
  match l with
  | [] => ret tt
  | x :: l' => body x ;; for_of l' body
  end.
End Session.
End Porcelain.

(** ** The upload command *)

Module Upload.
Import Porcelain.

Section Command.
Context {World : Type} (e : engine World).
(** The filesystem as the world shows it, [path.join], and the regular
    expression engine: [path_groups content] has the first group of the
    successive matches of [/path\s*=\s*(.+)/g] in [content]. *)
Variable existsSync : World -> string -> bool.
Variable readFileSync : World -> string -> outcome string.
Variable join : string -> string -> string.
Variable path_groups : string -> list string.

Let git_engine : Git.engine (session World) := helpers e.

Definition handleSubmoduleChanges (submoduleRepoPath : string)
    : M (session World) unit :=
  git <- simpleGit git_engine submoduleRepoPath ;;
  try_catch
    (remotes <- getRemotes e git true ;;
     if hasOrigin remotes then
       say (Out Blue ("✔ Submodule " +:+ Js.quoted (NodePath.basename submoduleRepoPath)
                      +:+ " has origin.")) ;;
       add git_engine git "." ;;
       changesSummary <- status e git ;;
       let commitMessage :=
         "Updated submodule " +:+ Js.quoted (NodePath.basename submoduleRepoPath)
         +:+ " with " +:+ pretty (length (created changesSummary)) +:+ " new files, "
         +:+ pretty (length (modified changesSummary)) +:+ " modified files, and "
         +:+ pretty (length (deleted changesSummary)) +:+ " deleted files." in
       commit git_engine git commitMessage ;;
       say (Out Green ("✔ Committed changes in submodule "
                       +:+ Js.quoted (NodePath.basename submoduleRepoPath)
                       +:+ ": " +:+ commitMessage)) ;;
       push e git "origin" "main" ;;
       say (Out Green ("✔ Pushed changes in submodule "
                       +:+ Js.quoted (NodePath.basename submoduleRepoPath)
                       +:+ " to origin."))
     else
       say (Out Yellow ("⚠ Submodule " +:+ Js.quoted (NodePath.basename submoduleRepoPath)
                        +:+ " has no origin. Skipping push.")))
    (fun error =>
       say (Err Red ("✖ Error handling submodule changes: " +:+ message error))).

Definition updateParentRepository (parentRepoPath : string)
    (submodulePaths : list string) : M (session World) unit :=
  parentGit <- simpleGit git_engine parentRepoPath ;;
  try_catch
    (for_of submodulePaths (fun submodulePath =>
       let submoduleName := NodePath.basename submodulePath in
       add git_engine parentGit submoduleName ;;
       say (Out Green ("✔ Staged submodule " +:+ Js.quoted submoduleName
                       +:+ " in parent repository."))) ;;
     let commitMessage :=
       "Updated submodules: "
       +:+ String.concat ", " (map NodePath.basename submodulePaths)
       +:+ " to latest commit in parent repository." in
     commit git_engine parentGit commitMessage ;;
     say (Out Green ("✔ Committed submodule changes in parent repository: "
                     +:+ commitMessage)) ;;
     remotes <- getRemotes e parentGit true ;;
     if hasOrigin remotes then
       push e parentGit "origin" "main" ;;
       say (Out Green "✔ Pushed changes in parent repository to origin.")
     else
       say (Out Yellow "⚠ Parent repository has no origin. Skipping push."))
    (fun error =>
       say (Err Red ("✖ Error committing changes in parent repository: "
                     +:+ message error))).

(** [fs.existsSync] and [fs.readFileSync], on the world as it is. *)
Definition exists_now (p : string) : M (session World) bool := fun s =>
  (inl (existsSync (inner (world s)) p), s).

Definition read_now (p : string) : M (session World) string := fun s =>
  settle (readFileSync (inner (world s)) p) s.

Definition getSubmodules (parentRepoPath : string) : M (session World) (list string) :=
  let gitmodulesPath := join parentRepoPath ".gitmodules" in
  there <- exists_now gitmodulesPath ;;
  if negb there then
    say (Out Plain "No submodules found. .gitmodules file does not exist.") ;;
    ret []
  else
    gitmodulesContent <- read_now gitmodulesPath ;;
    let submodulePaths :=
      map (fun group =>
             let submoduleRelativePath := Js.trim group in
             join parentRepoPath submoduleRelativePath)
        (path_groups gitmodulesContent) in
    (if (length submodulePaths =? 0)%nat then
       say (Out Plain "No submodules found in .gitmodules.")
     else
       say (Out Plain ("Found " +:+ pretty (length submodulePaths) +:+ " submodule(s)."))) ;;
    ret submodulePaths.

(** The walk of [findWorkspaceRoot] on the files as they are. *)
Definition root_now (fuel : nat) (currentPath : string)
    : M (session World) (returned (option string)) := fun s =>
  (inl (Locator.findWorkspaceRoot (existsSync (inner (world s))) join fuel currentPath), s).

(** The action of [upload], with or without [--all].  [cwd] is what
    [process.cwd()] gives: the current directory, or the error it throws
    when that directory is gone.  The result is [None] when the walk does
    not end within [fuel]. *)
Definition uploadCommand (fuel : nat) (cwd : outcome string) (all : bool)
    : M (session World) (returned unit) :=
  currentRepoPath <- settle cwd ;;
  walk <- root_now fuel currentRepoPath ;;
  match walk with
  | None => ret None
  | Some workspaceRoot =>
      if negb (truthy_path workspaceRoot) then
        say (Err Red "✖ Error: Could not find the root of the workspace. Make sure you are inside a workspace.") ;;
        ret (Some tt)
      else
        let workspaceRoot := path_text workspaceRoot in
        try_catch
          (if all then
             let parentRepoPath := workspaceRoot in
             marked <- exists_now (join parentRepoPath ".notedconfig") ;;
             if negb marked then
               say (Err Red "✖ Error: The --all option can only be run from the parent Noted repository.")
             else
               say (Out Green "✔ Parent repository detected.") ;;
               submodules <- getSubmodules parentRepoPath ;;
               if (length submodules =? 0)%nat then
                 say (Out Yellow "⚠ No submodules found in the parent repository.")
               else
                 for_of submodules (fun submodulePath =>
                   say (Out Blue ("Processing submodule: "
                                  +:+ NodePath.basename submodulePath)) ;;
                   handleSubmoduleChanges submodulePath) ;;
                 updateParentRepository parentRepoPath submodules
           else
             parentRepoPath <- UploadDetector.isSubmodule git_engine workspaceRoot ;;
             if negb (UploadDetector.truthy parentRepoPath) then
               say (Err Red "✖ Error: Upload can only be run inside a workspace (submodule).")
             else
               let parentRepoPath :=
                 match parentRepoPath with
                 | UploadDetector.Text p => p
                 | _ => EmptyString
                 end in
               say (Out Green "✔ Workspace detected.") ;;
               handleSubmoduleChanges workspaceRoot ;;
               updateParentRepository parentRepoPath [workspaceRoot])
          (fun error =>
             say (Err Red ("✖ Error during upload process: " +:+ message error))) ;;
        ret (Some tt)
  end.
End Command.
End Upload.

(** ** The update command *)

Module Update.
Import Porcelain.

Section Command.
Context {World : Type} (e : engine World).
Variable existsSync : World -> string -> bool.
Variable readFileSync : World -> string -> outcome string.
Variable join : string -> string -> string.
Variable relative : string -> string -> string.
Variable path_groups : string -> list string.

Let git_engine : Git.engine (session World) := helpers e.

(** Its [commitChanges] and [isSubmodule] are the exported ones, the
    branch left to its default. *)
Definition commitChanges (currentPath commitMessage : string) : M (session World) unit :=
  commitChanges_default git_engine relative currentPath commitMessage.

(** [findWorkspaceRoot(currentPath)], by a query to the engine. *)
Definition findWorkspaceRoot (currentPath : string) : M (session World) (option string) :=
  git <- simpleGit git_engine currentPath ;;
  try_catch
    (repoRoot <- revparse git_engine git ["--show-toplevel"] ;;
     ret (Some repoRoot))
    (fun _ => ret null).

(** Its [getSubmodules] has the body of the upload command's. *)
Definition getSubmodules : string -> M (session World) (list string) :=
  Upload.getSubmodules existsSync readFileSync join path_groups.

(** The action of [update]; [cwd] is what [process.cwd()] gives, as for
    the upload command. *)
Definition updateCommand (cwd : outcome string) (all : bool) : M (session World) unit :=
  currentRepoPath <- settle cwd ;;
  workspaceRoot <- findWorkspaceRoot currentRepoPath ;;
  if negb (truthy_path workspaceRoot) then
    say (Err Red "✖ Error: Could not find the root of the workspace. Make sure you are inside a workspace.")
  else
    let workspaceRoot := path_text workspaceRoot in
    try_catch
      (if all then
         let parentRepoPath := workspaceRoot in
         marked <- Upload.exists_now existsSync (join parentRepoPath ".notedconfig") ;;
         if negb marked then
           say (Err Red "✖ Error: The --all option can only be run from the main Noted repository.")
         else
           say (Out Green "✔ Parent repository detected.") ;;
           submodules <- getSubmodules parentRepoPath ;;
           if (length submodules =? 0)%nat then
             say (Out Yellow "⚠ No workspaces (submodules) found in the parent repository.")
           else
             for_of submodules (fun submodulePath =>
               say (Out Blue ("Processing workspace: "
                              +:+ NodePath.basename submodulePath)) ;;
               git <- simpleGit git_engine submodulePath ;;
               status <- status e git ;;
               let hasChanges := negb (isClean status) in
               let hasUnpushedCommits := (0 <? ahead status)%nat in
               remotes <- getRemotes e git true ;;
               let hasOrigin := hasOrigin remotes in
               (if hasChanges then
                  commitChanges submodulePath
                    ("Update workspace: " +:+ NodePath.basename submodulePath)
                else
                  say (Out Yellow ("⚠ No changes to commit in workspace "
                                   +:+ Js.quoted (NodePath.basename submodulePath)
                                   +:+ "."))) ;;
               if hasOrigin then
                 if hasUnpushedCommits || hasChanges then
                   push e git "origin" "main" ;;
                   say (Out Green ("✔ Pushed changes in workspace "
                                   +:+ Js.quoted (NodePath.basename submodulePath)
                                   +:+ " to origin."))
                 else
                   say (Out Yellow ("⚠ No new commits to push in workspace "
                                    +:+ Js.quoted (NodePath.basename submodulePath)
                                    +:+ "."))
               else
                 say (Out Yellow ("⚠ Workspace "
                                  +:+ Js.quoted (NodePath.basename submodulePath)
                                  +:+ " has no remote origin. Skipping push."))) ;;
             parentGit <- simpleGit git_engine parentRepoPath ;;
             parentStatus <- status e parentGit ;;
             let parentHasChanges := negb (isClean parentStatus) in
             let parentHasUnpushedCommits := (0 <? ahead parentStatus)%nat in
             (if parentHasChanges then
                commitChanges parentRepoPath "Update workspaces to latest commits"
              else
                say (Out Yellow "⚠ No changes to commit in parent repository.")) ;;
             parentRemotes <- getRemotes e parentGit true ;;
             let parentHasOrigin := hasOrigin parentRemotes in
             if parentHasOrigin then
               if parentHasUnpushedCommits || parentHasChanges then
                 push e parentGit "origin" "main" ;;
                 say (Out Green "✔ Pushed changes in parent repository to origin.")
               else
                 say (Out Yellow "⚠ No new commits to push in parent repository.")
             else
               say (Out Yellow "⚠ Parent repository has no remote origin. Skipping push.")
       else
         parentRepoPath <- isSubmodule git_engine workspaceRoot ;;
         if negb (truthy_path parentRepoPath) then
           say (Err Red "✖ Error: Update can only be run inside a workspace (submodule).")
         else
           let parentRepoPath := path_text parentRepoPath in
           say (Out Green "✔ Workspace detected.") ;;
           git <- simpleGit git_engine workspaceRoot ;;
           status <- status e git ;;
           let hasChanges := negb (isClean status) in
           let hasUnpushedCommits := (0 <? ahead status)%nat in
           remotes <- getRemotes e git true ;;
           let hasOrigin := hasOrigin remotes in
           (if hasChanges then
              commitChanges workspaceRoot
                ("Update workspace: " +:+ NodePath.basename workspaceRoot)
            else
              say (Out Yellow "⚠ No changes to commit in the workspace.")) ;;
           (if hasOrigin then
              if hasUnpushedCommits || hasChanges then
                push e git "origin" "main" ;;
                say (Out Green "✔ Pushed changes in workspace to origin.")
              else
                say (Out Yellow "⚠ No new commits to push in workspace.")
            else
              say (Out Yellow "⚠ Workspace has no remote origin. Skipping push.")) ;;
           parentGit <- simpleGit git_engine parentRepoPath ;;
           parentStatus <- Porcelain.status e parentGit ;;
           let parentHasChanges := negb (isClean parentStatus) in
           let parentHasUnpushedCommits := (0 <? ahead parentStatus)%nat in
           (if parentHasChanges then
              commitChanges parentRepoPath
                ("Update workspace: " +:+ NodePath.basename workspaceRoot
                 +:+ " to latest commit")
            else
              say (Out Yellow "⚠ No changes to commit in parent repository.")) ;;
           parentRemotes <- getRemotes e parentGit true ;;
           let parentHasOrigin := Porcelain.hasOrigin parentRemotes in
           if parentHasOrigin then
             if parentHasUnpushedCommits || parentHasChanges then
               push e parentGit "origin" "main" ;;
               say (Out Green "✔ Pushed changes in parent repository to origin.")
             else
               say (Out Yellow "⚠ No new commits to push in parent repository.")
           else
             say (Out Yellow "⚠ Parent repository has no remote origin. Skipping push."))
      (fun error =>
         say (Err Red ("✖ Error during update process: " +:+ message error))).
End Command.
End Update.

(** ** Statements about the events of a command *)

(** A computation started in a world satisfying [P] returns in one
    satisfying [Q], or throws in one satisfying [E]. *)
Definition ensures {World A : Type} (P : World -> Prop) (m : M World A)
    (Q : A -> World -> Prop) (E : World -> Prop) : Prop :=
  forall s, P (world s) ->
    match m s with
    | (inl a, s') => Q a (world s')
    | (inr _, s') => E (world s')
    end.

(** Every event has, among the events before it, what [needs] asks. *)
Definition guarded (needs : Porcelain.event -> list Porcelain.event -> Prop)
    (evs : list Porcelain.event) : Prop :=
  forall pre ev post, evs = pre ++ ev :: post -> needs ev pre.

(** The events so far are guarded, and those of [seen] are among them. *)
Definition known {World : Type}
    (needs : Porcelain.event -> list Porcelain.event -> Prop)
    (seen : list Porcelain.event) (ss : Porcelain.session World) : Prop :=
  guarded needs (Porcelain.events ss)
  /\ Forall (fun x => In x (Porcelain.events ss)) seen.

(** The calls of the helpers that change a repository. *)
Definition changes_repo (req : Git.request) : bool :=
  match req with
  | Git.Checkout _ _ | Git.CheckoutLocalBranch _ _ | Git.Add _ _ | Git.Commit _ _ => true
  | _ => false
  end.

(** What the update command has seen before it pushes from [d]: a remote
    named [origin] there, and a status there with commits ahead or with
    changes. *)
Definition cause_to_push (d : string) (pre : list Porcelain.event) : Prop :=
  exists l st,
    In (Porcelain.GetRemotes d true (inl l)) pre /\ Porcelain.hasOrigin l = true
    /\ In (Porcelain.Status d (inl st)) pre
    /\ (0 < Porcelain.ahead st \/ Porcelain.isClean st = false).

(** What it has seen before a helper changes a repository: a status with
    changes. *)
Definition cause_to_commit (pre : list Porcelain.event) : Prop :=
  exists d st, In (Porcelain.Status d (inl st)) pre /\ Porcelain.isClean st = false.

Definition update_needs (ev : Porcelain.event) (pre : list Porcelain.event) : Prop :=
  match ev with
  | Porcelain.Push d r b _ => r = "origin" /\ b = "main" /\ cause_to_push d pre
  | Porcelain.Call req _ => changes_repo req = true -> cause_to_commit pre
  | _ => True
  end.

(** What the upload command has seen before it pushes from [d]: a remote
    named [origin] there, and a commit there that resolved. *)
Definition upload_needs (ev : Porcelain.event) (pre : list Porcelain.event) : Prop :=
  match ev with
  | Porcelain.Push d r b _ =>
      r = "origin" /\ b = "main"
      /\ (exists l, In (Porcelain.GetRemotes d true (inl l)) pre
                    /\ Porcelain.hasOrigin l = true)
      /\ exists msg out, In (Porcelain.Call (Git.Commit d msg) (Git.Resolve out)) pre
  | _ => True
  end.

(** Sample engines for the commands: every call resolves; the status
    shows one modified file and nothing ahead; the remotes are the given
    ones. *)
Definition sample_porcelain (remotes : list Porcelain.remote) : Porcelain.engine unit :=
  {| Porcelain.plumbing := fun req w =>
       match req with
       | Git.Raw _ _ => (Git.Resolve ("/noted" +:+ RefGit.newline), w)
       | Git.Revparse _ _ => (Git.Resolve "/noted/ws", w)
       | _ => (Git.Resolve EmptyString, w)
       end;
     Porcelain.status_of := fun _ w =>
       (inl {| Porcelain.isClean := false; Porcelain.ahead := 0;
               Porcelain.created := []; Porcelain.modified := ["a.md"];
               Porcelain.deleted := [] |}, w);
     Porcelain.remotes_of := fun _ _ w => (inl remotes, w);
     Porcelain.push_to := fun _ _ _ w => (inl tt, w) |}.

(** A remote named [origin] seen in the repository [d]. *)
Definition origin_seen (d : string) (pre : list Porcelain.event) : Prop :=
  exists l, In (Porcelain.GetRemotes d true (inl l)) pre
            /\ Porcelain.hasOrigin l = true.

(** What [handleSubmoduleChanges] on [d] has seen before it changes the
    repository or pushes. *)
Definition submodule_needs (d : string) (ev : Porcelain.event)
    (pre : list Porcelain.event) : Prop :=
  match ev with
  | Porcelain.Call req _ => changes_repo req = true -> origin_seen d pre
  | Porcelain.Push _ _ _ _ => origin_seen d pre
  | _ => True
  end.

(** Every path of [paths] staged in [parent], by a call that resolved. *)
Definition all_staged (parent : string) (paths : list string)
    (pre : list Porcelain.event) : Prop :=
  forall p, In p paths ->
    exists out,
      In (Porcelain.Call (Git.Add parent (NodePath.basename p)) (Git.Resolve out)) pre.

(** What [updateParentRepository] has done before it commits. *)
Definition parent_needs (parent : string) (paths : list string)
    (ev : Porcelain.event) (pre : list Porcelain.event) : Prop :=
  match ev with
  | Porcelain.Call (Git.Commit _ _) _ => all_staged parent paths pre
  | Porcelain.Push _ _ _ _ => all_staged parent paths pre
  | _ => True
  end.

(** ** Listing the workspaces *)

Module WorkspaceList.
Import Porcelain.

(** [s.split(sep)] for a separator of one character. *)
Fixpoint split (sep : ascii) (s : string) : list string :=
  match s with
  | EmptyString => [EmptyString]
  | String c s' =>
      if Ascii.eqb c sep then EmptyString :: split sep s'
      else
        match split sep s' with
        | piece :: pieces => String c piece :: pieces
        | [] => [String c EmptyString]
        end
  end.

Definition LF : ascii := ascii_of_nat 10.

(** The text chalk makes of a value that may be [undefined]. *)
Definition chalk_text (v : option string) : string := default "undefined" v.

(** What [workspace list] prints once the query has resolved with
    [submodules]: the version that trims each line and takes [parts[1]]. *)
Definition listed (a : bool) (submodules : string) : list said :=
  if (String.length (Js.trim submodules) =? 0)%nat then
    [Out Yellow "No workspaces (submodules) found."]
  else
    Out Blue "Workspaces (Submodules):"
    :: flat_map
         (fun line =>
            if Js.truthy (Js.trim line) then
              let parts := split " " (Js.trim line) in
              let workspaceName := parts !! 1 in
              if a then [Out Green (Js.trim line)]
              else [Out Green (chalk_text workspaceName)]
            else [])
         (split LF submodules).

(** The version that splits the line as it is and takes [parts[2]]. *)
Definition listed_untrimmed (a : bool) (submodules : string) : list said :=
  if (String.length (Js.trim submodules) =? 0)%nat then
    [Out Yellow "No workspaces (submodules) found."]
  else
    Out Blue "Workspaces (Submodules):"
    :: flat_map
         (fun line =>
            if Js.truthy (Js.trim line) then
              let parts := split " " line in
              let workspaceName := parts !! 2 in
              if a then [Out Green (Js.trim line)]
              else [Out Green (chalk_text workspaceName)]
            else [])
         (split LF submodules).

Section Action.
Context {World : Type} (e : engine World).

(** The action of [workspace list], with the lines of one of the two
    versions. *)
Definition workspaceCommand_list (lines : bool -> string -> list said)
    (cwd : string) (a : bool) : M (session World) unit :=
  try_catch
    (let parentRepoPath := cwd in
     parentGit <- simpleGit (helpers e) parentRepoPath ;;
     submodules <- raw (helpers e) parentGit ["submodule"; "status"] ;;
     for_of (lines a submodules) say)
    (fun error => say (ErrThen Red "✖ Error listing workspaces: " (message error))).
End Action.

(** An entry of the output of [git submodule status]: a flag, the
    commit, the path and, when there is one, the description. *)
Record entry : Type := {
  flag : ascii;
  sha : string;
  path : string;
  describe : option string;
}.

Definition status_line (x : entry) : string :=
  String (flag x)
    (sha x +:+ " " +:+ path x
     +:+ match describe x with
         | Some d => " (" +:+ d +:+ ")"
         | None => EmptyString
         end).

Definition status_output (l : list entry) : string :=
  String.concat EmptyString (map (fun x => status_line x +:+ String LF EmptyString) l).

(** A character that is printable and no space. *)
Definition solid_char (c : ascii) : bool :=
  (33 <=? nat_of_ascii c)%nat && (nat_of_ascii c <=? 126)%nat.

Fixpoint all_solid (s : string) : bool :=
  match s with
  | EmptyString => true
  | String c s' => solid_char c && all_solid s'
  end.

(** A word: not empty, made of solid characters. *)
Definition word (s : string) : bool := negb (s =? EmptyString) && all_solid s.

(** The character [sep] does not occur in the string. *)
Fixpoint free_of (sep : ascii) (s : string) : bool :=
  match s with
  | EmptyString => true
  | String c s' => negb (Ascii.eqb c sep) && free_of sep s'
  end.

(** The string is not empty and its last character is solid. *)
Fixpoint ends_solid (s : string) : bool :=
  match s with
  | EmptyString => false
  | String c EmptyString => solid_char c
  | String _ s' => ends_solid s'
  end.

(** An entry as the engine prints it, one to a line: the flag is a
    space, [+], [-] or [U]; the commit and the description are words; the
    path, which may hold spaces, has no line feed and ends in a solid
    character. *)
Definition well_formed (x : entry) : bool :=
  existsb (Ascii.eqb (flag x)) [" "; "+"; "-"; "U"]%char
  && word (sha x)
  && (free_of LF (path x) && ends_solid (path x))
  && match describe x with
     | Some d => word d
     | None => true
     end.

(** The part of a string before its first space. *)
Fixpoint before_space (s : string) : string :=
  match s with
  | EmptyString => EmptyString
  | String c s' =>
      if Ascii.eqb c " " then EmptyString else String c (before_space s')
  end.

(** What the untrimmed version takes for the name of an entry: for a
    flag that is a space, the path up to its first space; for another
    flag, the second of the parts of the path that spaces separate, and
    for a path without space the description in parentheses, or
    [undefined]. *)
Definition third_part (x : entry) : string :=
  if Ascii.eqb (flag x) " " then before_space (path x)
  else
    match split " " (path x) with
    | _ :: second :: _ => second
    | _ =>
        match describe x with
        | Some d => "(" +:+ d +:+ ")"
        | None => "undefined"
        end
    end.

(** The rest of a line after its flag. *)
Definition after_flag (x : entry) : string :=
  sha x +:+ " " +:+ path x
  +:+ match describe x with
      | Some d => " (" +:+ d +:+ ")"
      | None => EmptyString
      end.

(** A pattern that begins with a character that is not solid. *)
Definition starts_blank (p : string) : bool :=
  match p with
  | String a _ => negb (solid_char a)
  | EmptyString => false
  end.

(** Sample data for the listing: five entries, two of them with a space
    in the path, and an engine whose queries resolve with the given
    text. *)
Definition sample_entries : list entry :=
  [ {| flag := " "; sha := "abc"; path := "ws1"; describe := Some "heads/main" |};
    {| flag := "+"; sha := "def"; path := "ws2"; describe := Some "v1" |};
    {| flag := "-"; sha := "012"; path := "ws3"; describe := None |};
    {| flag := " "; sha := "345"; path := "My Notes"; describe := Some "heads/main" |};
    {| flag := "+"; sha := "678"; path := "Old Notes"; describe := Some "v2" |} ].

Definition sample_listing (text : string) : engine unit :=
  {| plumbing := fun req w =>
       match req with
       | Git.Raw _ _ => (Git.Resolve text, w)
       | _ => (Git.Resolve EmptyString, w)
       end;
     status_of := fun _ w => (inr "no status", w);
     remotes_of := fun _ _ w => (inl [], w);
     push_to := fun _ _ _ w => (inl tt, w) |}.

End WorkspaceList.

(** * Properties *)

(** ** Sanity checks of the string and path primitives *)

Example dirname_ex1 : NodePath.dirname "/a/b" = "/a". Proof. reflexivity. Qed.
Example dirname_ex2 : NodePath.dirname "/a/b/" = "/a". Proof. reflexivity. Qed.
Example dirname_ex3 : NodePath.dirname "/a" = "/". Proof. reflexivity. Qed.
Example dirname_ex4 : NodePath.dirname "a" = ".". Proof. reflexivity. Qed.
Example dirname_ex5 : NodePath.dirname "//a" = "//". Proof. reflexivity. Qed.
Example dirname_ex6 : NodePath.dirname "a//b" = "a/". Proof. reflexivity. Qed.
Example basename_ex1 : NodePath.basename "/noted/ws" = "ws". Proof. reflexivity. Qed.
Example basename_ex2 : NodePath.basename "/noted/ws//" = "ws". Proof. reflexivity. Qed.
Example basename_ex3 : NodePath.basename "/" = EmptyString. Proof. reflexivity. Qed.
Example trim_ex1 : Js.trim (" /noted" +:+ Js.bytes [10]) = "/noted". Proof. reflexivity. Qed.
Example trim_ex2 : Js.trim (Js.bytes [194; 160; 10; 9]) = EmptyString. Proof. reflexivity. Qed.
Example cand_ex : Names.candidate "untitled-folder" 12 = "untitled-folder-12".
Proof. reflexivity. Qed.

(** ** The upward walks end *)

Section DirnameFacts.

Lemma length_substring0 (s : string) (m : nat) :
  String.length (String.substring 0 m s) = Nat.min m (String.length s).
Proof.
  revert m; induction s as [|c s IH]; intros [|m]; simpl; auto.
Qed.

Lemma length_slice0 (s : string) (e : nat) :
  e <= String.length s -> String.length (Js.slice s 0 e) = e.
Proof.
  intros He. unfold Js.slice. rewrite Nat.sub_0_r, length_substring0. lia.
Qed.

Lemma slash_at_slice0 (s : string) (e : nat) :
  1 <= e -> Js.is_slash_at (Js.slice s 0 e) 0 = Js.is_slash_at s 0.
Proof.
  intros He. unfold Js.slice, Js.is_slash_at. rewrite Nat.sub_0_r.
  destruct e as [|e]; [lia|]. destruct s; reflexivity.
Qed.

(** The scan stops strictly inside the indices it has visited; started
    with [matchedSlash] set, it has to pass a non-slash first. *)
Lemma dirname_scan_bound (p : string) (i : nat) (b : bool) (e : nat) :
  NodePath.dirname_scan p i b = Some e ->
  1 <= e /\ e <= i /\ (b = true -> e < i).
Proof.
  revert b e; induction i as [|j IH]; intros b e; simpl; [discriminate|].
  destruct (Js.is_slash_at p (S j)).
  - destruct b.
    + intros H. apply IH in H. lia.
    + intros [= <-]. repeat split; first [lia | discriminate].
  - intros H. apply IH in H. lia.
Qed.

(** The shapes of a [dirname] result. *)
Lemma dirname_cases (p : string) :
  (NodePath.dirname p = "." /\ NodePath.isAbsolute p = false)
  \/ (NodePath.dirname p = "/" /\ NodePath.isAbsolute p = true)
  \/ (NodePath.dirname p = "//" /\ NodePath.isAbsolute p = true
      /\ 3 <= String.length p)
  \/ (exists e, NodePath.dirname p = Js.slice p 0 e /\ 1 <= e
      /\ e + 2 <= String.length p).
Proof.
  unfold NodePath.dirname, NodePath.isAbsolute.
  destruct (Nat.eqb_spec (String.length p) 0) as [H0|H0].
  { left. split; [reflexivity|]. destruct p; [reflexivity|discriminate]. }
  destruct (NodePath.dirname_scan p (String.length p - 1) true) as [e|] eqn:Hs.
  - apply dirname_scan_bound in Hs as (H1 & _ & H3). specialize (H3 eq_refl).
    destruct (Js.is_slash_at p 0) eqn:Hr, (Nat.eqb_spec e 1) as [->|He]; simpl.
    + right; right; left. repeat split; lia.
    + right; right; right. exists e. repeat split; lia.
    + right; right; right. exists 1. repeat split; lia.
    + right; right; right. exists e. repeat split; lia.
  - destruct (Js.is_slash_at p 0); auto.
Qed.

End DirnameFacts.

Lemma dirname_measure (p : string) :
  NodePath.dirname p = p \/ walk_measure (NodePath.dirname p) < walk_measure p.
Proof.
  destruct (String.eqb_spec p ".") as [->|Hdot]; [left; reflexivity|].
  destruct (String.eqb_spec p "/") as [->|Hroot]; [left; reflexivity|].
  right.
  assert (Hp : walk_measure p = S (String.length p)).
  { unfold walk_measure.
    apply String.eqb_neq in Hdot, Hroot. rewrite Hdot, Hroot. reflexivity. }
  rewrite Hp.
  destruct (dirname_cases p) as [[-> _]|[[-> _]|[(-> & _ & Hl)|(e & -> & H1 & H2)]]].
  - unfold walk_measure; simpl; lia.
  - unfold walk_measure; simpl; lia.
  - unfold walk_measure; simpl; lia.
  - unfold walk_measure.
    destruct (_ || _); [lia|]. rewrite length_slice0; lia.
Qed.

Lemma dirname_absolute (p : string) :
  NodePath.isAbsolute p = true -> p <> "/" ->
  NodePath.isAbsolute (NodePath.dirname p) = true
  /\ String.length (NodePath.dirname p) < String.length p.
Proof.
  intros Habs Hroot.
  assert (Hlen : 2 <= String.length p).
  { destruct p as [|c [|c' p]]; simpl; try lia; try discriminate.
    exfalso. apply Hroot. unfold NodePath.isAbsolute, Js.is_slash_at in Habs.
    simpl in Habs. apply Ascii.eqb_eq in Habs. now subst. }
  destruct (dirname_cases p) as [[_ Hn]|[[-> _]|[(-> & _ & Hl)|(e & -> & H1 & H2)]]].
  - congruence.
  - split; [reflexivity|simpl; lia].
  - split; [reflexivity|simpl; lia].
  - split.
    + unfold NodePath.isAbsolute in *. rewrite slash_at_slice0; auto.
    + rewrite length_slice0; lia.
Qed.

Section WalkFacts.
Variable existsSync : string -> bool.
Variable join : string -> string -> string.

Lemma no_git_ancestor_dirname (p : string) :
  Locator.no_git_ancestor existsSync join p ->
  Locator.no_git_ancestor existsSync join (NodePath.dirname p).
Proof.
  intros H k. specialize (H (S k)).
  unfold Locator.ancestor in *. now rewrite Nat.iter_succ_r in H.
Qed.

Lemma no_git_here (p : string) :
  Locator.no_git_ancestor existsSync join p -> existsSync (join p ".git") = false.
Proof. intros H. exact (H 0). Qed.

Lemma findWorkspaceRoot_not_found (fuel : nat) (p : string) :
  walk_measure p < fuel ->
  Locator.no_git_ancestor existsSync join p ->
  Locator.findWorkspaceRoot existsSync join fuel p = Some null.
Proof.
  unfold Locator.findWorkspaceRoot.
  revert p; induction fuel as [|fuel IH]; intros p Hm Hno; [lia|].
  simpl. rewrite (no_git_here p Hno). simpl.
  destruct (String.eqb_spec (NodePath.dirname p) p) as [_|Hne]; [reflexivity|].
  apply IH.
  - destruct (dirname_measure p); [contradiction|lia].
  - now apply no_git_ancestor_dirname.
Qed.

Lemma getWorkspaceRoot_not_found (fuel : nat) (p : string) :
  NodePath.isAbsolute p = true ->
  String.length p < fuel ->
  Locator.no_git_ancestor existsSync join p ->
  Locator.getWorkspaceRoot existsSync join fuel p = Some null.
Proof.
  unfold Locator.getWorkspaceRoot.
  revert p; induction fuel as [|fuel IH]; intros p Habs Hm Hno; [lia|].
  simpl.
  destruct (String.eqb_spec p "/") as [_|Hne]; [reflexivity|]. simpl.
  rewrite (no_git_here p Hno).
  destruct (dirname_absolute p Habs Hne) as [Ha Hl].
  apply IH; [assumption|lia|now apply no_git_ancestor_dirname].
Qed.
End WalkFacts.

Lemma walk_measure_le (p : string) : walk_measure p <= S (String.length p).
Proof. unfold walk_measure. destruct (_ || _); lia. Qed.

(** C8 (as amended): from a starting path none of whose ancestors holds a
    [.git] entry, [findWorkspaceRoot] ends and returns [null] whatever the
    path, and [getWorkspaceRoot] ends and returns [null] for every absolute
    path; neither has a throwing step. *)
Theorem root_walk_returns_null
    (existsSync : string -> bool) (join : string -> string -> string) (p : string) :
  Locator.no_git_ancestor existsSync join p ->
  (forall fuel, String.length p + 1 < fuel ->
     Locator.findWorkspaceRoot existsSync join fuel p = Some null)
  /\ (NodePath.isAbsolute p = true ->
      forall fuel, String.length p < fuel ->
        Locator.getWorkspaceRoot existsSync join fuel p = Some null).
Proof.
  intros Hno. split.
  - intros fuel Hf. apply findWorkspaceRoot_not_found; [|assumption].
    pose proof (walk_measure_le p). lia.
  - intros Habs fuel Hf. now apply getWorkspaceRoot_not_found.
Qed.

Lemma root_walk_returns_null_witness :
  Locator.findWorkspaceRoot bare_fs slash_join 20 "/home/u/notes" = Some null
  /\ Locator.getWorkspaceRoot bare_fs slash_join 20 "/home/u/notes" = Some null.
Proof.
  destruct (root_walk_returns_null bare_fs slash_join "/home/u/notes") as [H1 H2].
  - intros k. reflexivity.
  - split.
    + apply H1. simpl. lia.
    + apply H2; [reflexivity|simpl; lia].
Defined.

(** C8 (as stated) fails for [getWorkspaceRoot] on a relative starting
    path: the walk reaches ["."], whose parent is ["."] again, and the test
    [dir !== '/'] never ends it. *)
Lemma getWorkspaceRoot_relative_diverges :
  Locator.no_git_ancestor bare_fs slash_join "notes"
  /\ forall fuel, Locator.getWorkspaceRoot bare_fs slash_join fuel "notes" = None.
Proof.
  split; [intros k; reflexivity|].
  assert (Hdot : forall fuel, Locator.getWorkspaceRoot_loop bare_fs slash_join fuel "." = None).
  { induction fuel as [|fuel IH]; [reflexivity|]. simpl. exact IH. }
  intros [|fuel]; [reflexivity|]. simpl. apply Hdot.
Qed.

(** ** The name-collision loop *)

Section CollisionFacts.
Variable existing : gset string.
Variable baseName : string.

Lemma candidate_inj (j k : nat) :
  Names.candidate baseName j = Names.candidate baseName k -> j = k.
Proof.
  unfold Names.candidate. intros H.
  apply (inj (String.app baseName)) in H.
  apply (inj (String.app "-")) in H.
  now apply (inj pretty) in H.
Qed.

(** Pigeonhole: the candidates numbered 1 to [size existing + 1] are
    pairwise different, so one of them is unused. *)
Lemma some_candidate_free :
  exists j, 1 <= j <= size existing + 1 /\ (Names.candidate baseName j ∉ existing).
Proof.
  set (n := size existing).
  set (l := seq 1 (n + 1)).
  destruct (decide (Forall (fun j => Names.candidate baseName j ∈ existing) l))
    as [Hall|Hex].
  - exfalso.
    assert (Hnd : NoDup (Names.candidate baseName <$> l)).
    { apply NoDup_fmap_2; [intros j k; apply candidate_inj|apply NoDup_seq]. }
    assert (Hsub : list_to_set (C := gset string) (Names.candidate baseName <$> l)
                   ⊆ existing).
    { intros x Hx. apply elem_of_list_to_set, list_elem_of_fmap in Hx as (j & -> & Hj).
      rewrite Forall_forall in Hall. now apply Hall. }
    apply subseteq_size in Hsub.
    rewrite size_list_to_set in Hsub by assumption.
    rewrite length_fmap in Hsub. subst l. rewrite length_seq in Hsub. lia.
  - apply not_Forall_Exists in Hex; [|intros j; apply _].
    apply Exists_exists in Hex as (j & Hj & Hfree).
    exists j. split; [|exact Hfree].
    subst l. apply elem_of_seq in Hj. lia.
Qed.

(** The least unused counter from [c] on, when one exists below [c + d]. *)
Lemma least_free (d c : nat) :
  (exists j, c <= j < c + d /\ (Names.candidate baseName j ∉ existing)) ->
  exists k, c <= k /\ (Names.candidate baseName k ∉ existing)
    /\ forall j, c <= j < k -> Names.candidate baseName j ∈ existing.
Proof.
  revert c; induction d as [|d IH]; intros c (j & Hj & Hfree); [lia|].
  destruct (decide (Names.candidate baseName c ∈ existing)) as [Hin|Hout].
  - destruct (IH (S c)) as (k & Hk & Hkf & Hbelow).
    + exists j. split; [|exact Hfree].
      destruct (decide (j = c)) as [->|]; [contradiction|lia].
    + exists k. repeat split; [lia|exact Hkf|].
      intros i Hi. destruct (decide (i = c)) as [->|]; [exact Hin|apply Hbelow; lia].
  - exists c. repeat split; [lia|exact Hout|intros; lia].
Qed.

(** Running the loop from a taken name: it walks the taken candidates and
    returns the first unused one. *)
Lemma collision_loop_walk (d c fuel : nat) (name : string) :
  name ∈ existing ->
  (forall j, c <= j < c + d -> Names.candidate baseName j ∈ existing) ->
  Names.candidate baseName (c + d) ∉ existing ->
  d + 1 < fuel ->
  Names.collision_loop existing fuel baseName name c
  = Some (Names.candidate baseName (c + d)).
Proof.
  revert c fuel name; induction d as [|d IH]; intros c fuel name Hin Htaken Hfree Hfuel.
  - destruct fuel as [|[|fuel]]; try lia. simpl.
    unfold Names.existsSync_in_dir.
    rewrite bool_decide_eq_true_2 by assumption.
    rewrite Nat.add_0_r in *.
    rewrite bool_decide_eq_false_2 by assumption. reflexivity.
  - destruct fuel as [|fuel]; [lia|]. simpl.
    unfold Names.existsSync_in_dir at 1.
    rewrite bool_decide_eq_true_2 by assumption.
    replace (c + S d) with (S c + d) in * by lia.
    apply IH; [apply Htaken; lia|intros; apply Htaken; lia|assumption|lia].
Qed.

Lemma collision_loop_free (fuel : nat) (name : string) (c : nat) :
  name ∉ existing -> 0 < fuel ->
  Names.collision_loop existing fuel baseName name c = Some name.
Proof.
  intros Hout Hfuel. destruct fuel; [lia|]. simpl.
  unfold Names.existsSync_in_dir. now rewrite bool_decide_eq_false_2.
Qed.

Lemma collision_loop_result :
  exists name,
    (forall fuel, size existing + 1 < fuel ->
       Names.collision_loop existing fuel baseName baseName 1 = Some name)
    /\ (name ∉ existing)
    /\ (baseName ∉ existing -> name = baseName)
    /\ (baseName ∈ existing ->
        exists k, 1 <= k /\ name = Names.candidate baseName k
          /\ forall j, 1 <= j < k -> Names.candidate baseName j ∈ existing).
Proof.
  destruct (decide (baseName ∈ existing)) as [Hin|Hout].
  - destruct some_candidate_free as (j & Hj & Hfree).
    destruct (least_free (size existing + 1) 1) as (k & Hk & Hkf & Hbelow).
    { exists j. split; [lia|exact Hfree]. }
    assert (Hkle : k <= size existing + 1).
    { destruct (le_lt_dec k j) as [|Hlt]; [lia|].
      exfalso. apply Hfree, Hbelow. lia. }
    exists (Names.candidate baseName k). repeat split.
    + intros fuel Hfuel.
      replace k with (1 + (k - 1)) by lia.
      apply collision_loop_walk; try assumption.
      * intros i Hi. apply Hbelow. lia.
      * now replace (1 + (k - 1)) with k by lia.
      * lia.
    + exact Hkf.
    + intros; contradiction.
    + intros _. exists k. repeat split; [lia|assumption].
  - exists baseName. repeat split.
    + intros fuel Hfuel. apply collision_loop_free; [assumption|lia].
    + exact Hout.
    + intros; contradiction.
Qed.
End CollisionFacts.

(** C9: for every base name and every finite set of existing names, the
    loop of [getWorkspaceName] and of [folder add] ends and returns the base
    name when it is unused, and otherwise [baseName-k] for the least
    [k >= 1] whose candidate is unused; the result is never an existing
    name.  ([folder add] takes ['untitled-folder'] for an empty name.) *)
Theorem next_available_name (existing : gset string) (name : string) :
  (exists r,
     (forall fuel, size existing + 1 < fuel ->
        Names.getWorkspaceName existing fuel name = Some r)
     /\ (r ∉ existing)
     /\ (name ∉ existing -> r = name)
     /\ (name ∈ existing ->
         exists k, 1 <= k /\ r = Names.candidate name k
           /\ forall j, 1 <= j < k -> Names.candidate name j ∈ existing))
  /\ (let base := Js.or_else name "untitled-folder" in
      exists r,
        (forall fuel, size existing + 1 < fuel ->
           Names.foldersCommand_add existing fuel name = Some r)
        /\ (r ∉ existing)
        /\ (base ∉ existing -> r = base)
        /\ (base ∈ existing ->
            exists k, 1 <= k /\ r = Names.candidate base k
              /\ forall j, 1 <= j < k -> Names.candidate base j ∈ existing)).
Proof.
  split.
  - apply collision_loop_result.
  - apply collision_loop_result.
Qed.

Example collision_loop_ex :
  Names.getWorkspaceName {["notes"; "notes-1"; "notes-3"]} 10 "notes" = Some "notes-2"
  /\ Names.foldersCommand_add {["untitled-folder"]} 10 EmptyString = Some "untitled-folder-1".
Proof. split; vm_compute; reflexivity. Qed.

(** ** Running the helpers symbolically *)

Ltac unfold_js :=
  unfold commitChanges_default, commitChanges, CommitHelper.commitChanges,
    CommitHelper.isSubmodule, isSubmodule,
    simpleGit, revparse, checkout, checkoutLocalBranch, add, commit, raw,
    try_catch, bind, ret, print, await, start in *.

Ltac simpl_run :=
  cbn [fst snd world calls console baseDir message app
       truthy_path path_text null from_option id
       count_calls is_commit is_superproject_query] in *.

(** Case analysis on the next answer of the engine. *)
Ltac step_engine engine :=
  match goal with
  | |- context [engine ?r ?w] =>
      let out := fresh "out" in
      let msg := fresh "msg" in
      let w' := fresh "w" in
      destruct (engine r w) as [[out|msg] w']; simpl_run
  end.

Ltac step_if :=
  match goal with
  | |- context [if ?c then _ else _] => destruct c; simpl_run
  end.

Ltac run_all engine := unfold_js; simpl_run; repeat first [step_engine engine | step_if].

(** Membership in an explicit list of calls. *)
Ltac in_calls := simpl; solve [repeat first [left; reflexivity | right]].

(** ** The Submodule Detector *)

Lemma trim_empty : Js.trim EmptyString = EmptyString.
Proof. reflexivity. Qed.





(** ** The Change Propagator over an arbitrary engine *)

Section Propagation.
Context {World : Type} (engine : Git.engine World).
Variable relative : string -> string -> string.
Variables currentPath commitMessage branchName : string.

Lemma commitChanges_resolves (s : run World) :
  fst (commitChanges engine relative currentPath commitMessage branchName s) = inl tt.
Proof. run_all engine; reflexivity. Qed.

Lemma commitHelper_resolves (s : run World) :
  fst (CommitHelper.commitChanges engine currentPath commitMessage s) = inl tt.
Proof. run_all engine; reflexivity. Qed.

Ltac last_call H :=
  repeat (rewrite ?last_snoc in H; rewrite ?last_snoc);
  try (injection H as <- <-); try discriminate; try reflexivity.

Lemma commitChanges_failure_printed (s : run World) (req : Git.request) (err : string) :
  let s' := snd (commitChanges engine relative currentPath commitMessage branchName s) in
  last (calls s') = Some (req, Git.Reject err) ->
  is_superproject_query (req, Git.Reject err) = false ->
  last (console s') = Some (error_line err).
Proof.
  intros s'; subst s'. run_all engine; intros H Hq; last_call H.
Qed.

Lemma commitHelper_failure_printed (s : run World) (req : Git.request) (err : string) :
  let s' := snd (CommitHelper.commitChanges engine currentPath commitMessage s) in
  last (calls s') = Some (req, Git.Reject err) ->
  is_superproject_query (req, Git.Reject err) = false ->
  last (console s') = Some (error_line err).
Proof.
  intros s'; subst s'. run_all engine; intros H Hq; last_call H.
Qed.
End Propagation.

(** C10: whatever the engine answers, both versions of [commitChanges]
    resolve with [undefined], on failure as on success; a rejected call that
    ends the run (a failed commit in the target repository or in the
    superproject among them) shows only as the line printed by the outer
    [catch]. *)
Theorem commitChanges_never_rejects {World : Type} (engine : Git.engine World)
    (relative : string -> string -> string)
    (currentPath commitMessage branchName : string) (s : run World) :
  let r := commitChanges engine relative currentPath commitMessage branchName s in
  let r' := CommitHelper.commitChanges engine currentPath commitMessage s in
  fst r = inl tt
  /\ fst r' = inl tt
  /\ (forall dir msg err,
        last (calls (snd r)) = Some (Git.Commit dir msg, Git.Reject err) ->
        last (console (snd r)) = Some (error_line err))
  /\ (forall dir msg err,
        last (calls (snd r')) = Some (Git.Commit dir msg, Git.Reject err) ->
        last (console (snd r')) = Some (error_line err)).
Proof.
  intros r r'. repeat split.
  - apply commitChanges_resolves.
  - apply commitHelper_resolves.
  - intros dir msg err H.
    now apply (commitChanges_failure_printed engine relative _ _ _ s _ err H).
  - intros dir msg err H.
    now apply (commitHelper_failure_printed engine _ _ s _ err H).
Qed.

Lemma commitChanges_never_rejects_witness :
  let s := start (Sample.standalone true Sample.clean) in
  fst (commitChanges RefGit.engine RefGit.relative "/notes" "msg" "main" s) = inl tt
  /\ last (console (snd (commitChanges RefGit.engine RefGit.relative "/notes" "msg" "main" s)))
     = Some (error_line RefGit.nothing_to_commit)
  /\ last (console (snd (CommitHelper.commitChanges RefGit.engine "/notes" "msg" s)))
     = Some (error_line RefGit.nothing_to_commit).
Proof.
  destruct (commitChanges_never_rejects RefGit.engine RefGit.relative "/notes" "msg" "main"
              (start (Sample.standalone true Sample.clean))) as (H1 & _ & H3 & H4).
  split; [exact H1|]. split.
  - apply (H3 "/notes" "msg"). vm_compute. reflexivity.
  - apply (H4 "/notes" "msg"). vm_compute. reflexivity.
Defined.


Section Cascade.
Context {World : Type} (engine : Git.engine World).
Variable relative : string -> string -> string.
Variables currentPath commitMessage branchName : string.
Variable w : World.

Let s' : run World :=
  snd (commitChanges engine relative currentPath commitMessage branchName (start w)).

Lemma at_most_two_commits : count_calls is_commit (calls s') <= 2.
Proof. subst s'. run_all engine; lia. Qed.

Lemma at_most_one_query : count_calls is_superproject_query (calls s') <= 1.
Proof. subst s'. run_all engine; lia. Qed.

Ltac find_call H :=
  repeat (destruct H as [H|H]; [try discriminate; try (injection H as <- <- <-)|]);
  try contradiction.

Lemma query_on_target_root (dir : string) (args : list string) (resp : Git.response) :
  In (Git.Raw dir args, resp) (calls s') ->
  In (Git.Revparse currentPath ["--show-toplevel"], Git.Resolve dir) (calls s').
Proof.
  subst s'. run_all engine; intros H; simpl in H; find_call H; in_calls.
Qed.

Lemma commits_on_root_or_parent (dir msg : string) (resp : Git.response) :
  In (Git.Commit dir msg, resp) (calls s') ->
  In (Git.Revparse currentPath ["--show-toplevel"], Git.Resolve dir) (calls s')
  \/ exists root out,
       In (Git.Raw root superproject_query, Git.Resolve out) (calls s')
       /\ dir = Js.trim out.
Proof.
  subst s'. run_all engine; intros H; simpl in H; find_call H;
    first [left; in_calls | right; do 2 eexists; split; [in_calls|reflexivity]].
Qed.
End Cascade.

(** C6: one call of [commitChanges] makes at most one superproject query,
    and makes it on the root of the target repository, never on the
    superproject it found; it commits at most twice, in the target
    repository and in the superproject that query returned. *)
Theorem cascade_one_level {World : Type} (engine : Git.engine World)
    (relative : string -> string -> string)
    (currentPath commitMessage branchName : string) (w : World) :
  let s' := snd (commitChanges engine relative currentPath commitMessage branchName
                   (start w)) in
  count_calls is_superproject_query (calls s') <= 1
  /\ count_calls is_commit (calls s') <= 2
  /\ (forall dir args resp,
        In (Git.Raw dir args, resp) (calls s') ->
        In (Git.Revparse currentPath ["--show-toplevel"], Git.Resolve dir) (calls s'))
  /\ (forall dir msg resp,
        In (Git.Commit dir msg, resp) (calls s') ->
        In (Git.Revparse currentPath ["--show-toplevel"], Git.Resolve dir) (calls s')
        \/ exists root out,
             In (Git.Raw root superproject_query, Git.Resolve out) (calls s')
             /\ dir = Js.trim out).
Proof.
  intros s'. repeat split.
  - apply at_most_one_query.
  - apply at_most_two_commits.
  - apply query_on_target_root.
  - apply commits_on_root_or_parent.
Qed.

(** ** Staging is always followed by a commit *)

Section StageThenCommit.
Context {World : Type} (engine : Git.engine World).
Variable relative : string -> string -> string.
Variables currentPath commitMessage branchName : string.
Variable w : World.

Ltac nth_call i H :=
  simpl in H;
  first
    [ discriminate H
    | destruct i as [|i];
      [ try discriminate H; try (injection H as <- <- <-; simpl; eauto)
      | nth_call i H ] ].

Lemma commitChanges_commit_follows (i : nat) (dir spec out : string) :
  let s' := snd (commitChanges engine relative currentPath commitMessage branchName
                   (start w)) in
  calls s' !! i = Some (Git.Add dir spec, Git.Resolve out) ->
  exists msg resp, calls s' !! S i = Some (Git.Commit dir msg, resp).
Proof.
  intros s'; subst s'. run_all engine; intros H; nth_call i H.
Qed.

Lemma commitHelper_commit_follows (i : nat) (dir spec out : string) :
  let s' := snd (CommitHelper.commitChanges engine currentPath commitMessage (start w)) in
  calls s' !! i = Some (Git.Add dir spec, Git.Resolve out) ->
  exists msg resp, calls s' !! S i = Some (Git.Commit dir msg, resp).
Proof.
  intros s'; subst s'. run_all engine; intros H; nth_call i H.
Qed.
End StageThenCommit.

(** C1 (as amended): [commitChanges] has no check between staging and
    committing: in both versions, every staging call that resolves is
    followed at once by a commit call on the same repository, whatever the
    staging produced. *)
Theorem commit_follows_every_stage {World : Type} (engine : Git.engine World)
    (relative : string -> string -> string)
    (currentPath commitMessage branchName : string) (w : World)
    (i : nat) (dir spec out : string) :
  let s1 := snd (commitChanges engine relative currentPath commitMessage branchName
                   (start w)) in
  let s2 := snd (CommitHelper.commitChanges engine currentPath commitMessage (start w)) in
  (calls s1 !! i = Some (Git.Add dir spec, Git.Resolve out) ->
   exists msg resp, calls s1 !! S i = Some (Git.Commit dir msg, resp))
  /\ (calls s2 !! i = Some (Git.Add dir spec, Git.Resolve out) ->
      exists msg resp, calls s2 !! S i = Some (Git.Commit dir msg, resp)).
Proof.
  intros s1 s2. split.
  - apply commitChanges_commit_follows.
  - apply commitHelper_commit_follows.
Qed.

Lemma commit_follows_every_stage_witness :
  exists msg resp,
    calls (snd (commitChanges RefGit.engine RefGit.relative "/notes" "msg" "main"
                  (start (Sample.standalone false Sample.clean)))) !! 5
    = Some (Git.Commit "/notes" msg, resp).
Proof.
  apply (commit_follows_every_stage RefGit.engine RefGit.relative "/notes" "msg" "main"
           (Sample.standalone false Sample.clean) 4 "/notes" "./." EmptyString).
  vm_compute. reflexivity.
Defined.

(** C1 (as stated) fails: on a clean repository staging leaves the index
    empty, and the commit call is made all the same.  When the engine
    resolves the empty commit, what is printed is the confirmation of a
    commit; when it rejects it, what is printed is the error of the outer
    [catch]. *)
Lemma commit_invoked_with_nothing_staged :
  let w := Sample.standalone false Sample.clean in
  let r := commitChanges RefGit.engine RefGit.relative "/notes" "msg" "main" (start w) in
  let w' := Sample.standalone true Sample.clean in
  let r' := commitChanges RefGit.engine RefGit.relative "/notes" "msg" "main" (start w') in
  Sample.view (snd (RefGit.engine (Git.Add "/notes" "./.") w)) "/notes"
    = Some (Some "main", [], [], [])
  /\ In (Git.Commit "/notes" "msg", Git.Resolve EmptyString) (calls (snd r))
  /\ console (snd r) = confirmations "/notes" "msg" None
  /\ In (Git.Commit "/notes" "msg", Git.Reject RefGit.nothing_to_commit) (calls (snd r'))
  /\ console (snd r') = commit_rejected RefGit.nothing_to_commit.
Proof. vm_compute. repeat split; auto 10. Qed.

(** ** Staging in the superproject *)

Section SuperprojectStage.
Context {World : Type} (engine : Git.engine World).
Variable relative : string -> string -> string.
Variables currentPath commitMessage branchName : string.
Variable w : World.

Ltac find_stage H :=
  repeat (destruct H as [H|H]; [try discriminate; try (injection H as <- <- <-)|]);
  try contradiction.

(** The version with scoped staging makes two kinds of staging calls
    only: the subtree of the current directory in the target repository,
    and the entry named after the target's root in the superproject. *)
Lemma scoped_superproject_stage (dir spec : string) (resp : Git.response) :
  let s' := snd (commitChanges engine relative currentPath commitMessage branchName
                   (start w)) in
  In (Git.Add dir spec, resp) (calls s') ->
  exists root,
    In (Git.Revparse currentPath ["--show-toplevel"], Git.Resolve root) (calls s')
    /\ ((dir = root
         /\ spec = Js.or_else (relative root currentPath) "." +:+ "/.")
        \/ (spec = "./" +:+ NodePath.basename root
            /\ exists out,
                 In (Git.Raw root superproject_query, Git.Resolve out) (calls s')
                 /\ dir = Js.trim out)).
Proof.
  intros s'; subst s'. run_all engine; intros H; simpl in H; find_stage H;
    eexists; (split; [in_calls|]);
    first [left; split; reflexivity
          |right; split; [reflexivity|eexists; split; [in_calls|reflexivity]]].
Qed.
End SuperprojectStage.

(** C2, on functions/commitHelper.js: with a workspace at [/noted/ws]
    whose superproject [/noted] has an unrelated change [todo.md], the
    helper stages the superproject's whole working tree (its pathspec is the
    superproject's own path), and the commit made there takes [todo.md]
    along with the entry of the submodule. *)
Theorem commitHelper_stages_whole_superproject :
  let r := CommitHelper.commitChanges RefGit.engine "/noted/ws" "msg"
             (start Sample.workspace_edited) in
  In (Git.Add "/noted" "/noted", Git.Resolve EmptyString) (calls (snd r))
  /\ Sample.view (world (snd r)) "/noted"
     = Some (Some "main", [], [],
             [("Update submodule: " +:+ Js.quoted "ws"
               +:+ " to latest commit in workspace: " +:+ Js.quoted "msg",
               ["ws"; "todo.md"])]).
Proof. vm_compute. split; auto 10. Qed.

(** On the same input the version with scoped staging stages the entry
    [./ws] alone, and [todo.md] stays out of the commit. *)
Example commitChanges_stages_submodule_entry :
  let r := commitChanges RefGit.engine RefGit.relative "/noted/ws" "msg" "main"
             (start Sample.workspace_edited) in
  In (Git.Add "/noted" "./ws", Git.Resolve EmptyString) (calls (snd r))
  /\ Sample.view (world (snd r)) "/noted"
     = Some (Some "main", ["todo.md"], [],
             [("Update submodule: " +:+ Js.quoted "ws" +:+ " - msg", ["ws"])]).
Proof. vm_compute. split; auto 20. Qed.

(** ** The phases make up the function *)

Lemma commitChanges_phases_eq {World : Type} (engine : Git.engine World)
    (relative : string -> string -> string)
    (currentPath commitMessage branchName : string) (s : run World) :
  commitChanges engine relative currentPath commitMessage branchName s
  = commitChanges_phases engine relative currentPath commitMessage branchName s.
Proof.
  unfold commitChanges_phases, locate, recover, stage_and_commit, update_parent,
    commit_parent, report_failure, staged_pathspec, submodule_pathspec,
    submodule_message, error_line.
  run_all engine; reflexivity.
Qed.

(** ** Keeping a property along a computation *)

Section Preserves.
Context {World : Type}.
Variable P : run World -> Prop.

Lemma preserves_ret {A : Type} (a : A) : preserves P (ret a).
Proof. intros s H. exact H. Qed.

Lemma preserves_bind {A B : Type} (m : M World A) (k : A -> M World B) :
  preserves P m -> (forall a, preserves P (k a)) -> preserves P (bind m k).
Proof.
  intros Hm Hk s H. unfold bind. specialize (Hm s H).
  destruct (m s) as [[a|e] s1]; simpl in *; [now apply Hk|exact Hm].
Qed.

(** The continuation only matters on the values the first part returns. *)
Lemma preserves_bind_val {A B : Type} (R : A -> Prop) (m : M World A)
    (k : A -> M World B) :
  (forall s a, P s -> fst (m s) = inl a -> R a) ->
  preserves P m -> (forall a, R a -> preserves P (k a)) -> preserves P (bind m k).
Proof.
  intros HR Hm Hk s H. unfold bind. specialize (Hm s H). specialize (HR s).
  destruct (m s) as [[a|e] s1]; simpl in *; [|exact Hm].
  apply Hk; [now apply HR|exact Hm].
Qed.

Lemma preserves_try_catch {A : Type} (m : M World A) (h : error -> M World A) :
  preserves P m -> (forall e, preserves P (h e)) -> preserves P (try_catch m h).
Proof.
  intros Hm Hh s H. unfold try_catch. specialize (Hm s H).
  destruct (m s) as [[a|e] s1]; simpl in *; [exact Hm|now apply Hh].
Qed.

Lemma preserves_if {A : Type} (c : bool) (m1 m2 : M World A) :
  preserves P m1 -> preserves P m2 -> preserves P (if c then m1 else m2).
Proof. destruct c; auto. Qed.
End Preserves.

Section PreservesWorld.
Context {World : Type} (engine : Git.engine World).
Variable P : World -> Prop.

Lemma preserves_print (l : line) : preserves (of_world P) (print l).
Proof. intros s H. exact H. Qed.

Lemma preserves_await (req : Git.request) :
  (forall w, P w -> P (snd (engine req w))) ->
  preserves (of_world P) (await engine req).
Proof.
  intros Hreq s H. unfold await, of_world in *. specialize (Hreq _ H).
  destruct (engine req (world s)) as [[out|msg] w']; exact Hreq.
Qed.

Lemma preserves_simpleGit (dir : string) :
  (forall w, P w -> P (snd (engine (Git.SimpleGit dir) w))) ->
  preserves (of_world P) (simpleGit engine dir).
Proof.
  intros H. apply preserves_bind; [now apply preserves_await|].
  intros; apply preserves_ret.
Qed.

Lemma simpleGit_value (dir : string) (s : run World) (git : handle) :
  fst (simpleGit engine dir s) = inl git -> git = {| baseDir := dir |}.
Proof.
  unfold simpleGit, bind, await, ret.
  destruct (engine (Git.SimpleGit dir) (world s)) as [[out|msg] w']; simpl; congruence.
Qed.

(** [git <- simpleGit dir ;; k git], with [k] looked at on the instance
    for [dir] only. *)
Lemma preserves_with_simpleGit {B : Type} (dir : string) (k : handle -> M World B) :
  (forall w, P w -> P (snd (engine (Git.SimpleGit dir) w))) ->
  preserves (of_world P) (k {| baseDir := dir |}) ->
  preserves (of_world P) (bind (simpleGit engine dir) k).
Proof.
  intros H Hk.
  apply (preserves_bind_val _ (fun git => git = {| baseDir := dir |})).
  - intros s a _. apply simpleGit_value.
  - now apply preserves_simpleGit.
  - now intros git ->.
Qed.

Lemma preserves_isSubmodule (repoPath : string) :
  (forall w, P w -> P (snd (engine (Git.SimpleGit repoPath) w))) ->
  (forall w, P w -> P (snd (engine (Git.Raw repoPath superproject_query) w))) ->
  preserves (of_world P) (isSubmodule engine repoPath).
Proof.
  intros H1 H2. unfold isSubmodule.
  apply preserves_with_simpleGit; [assumption|].
  apply preserves_bind.
  - apply preserves_try_catch; [|intros; apply preserves_ret].
    apply preserves_bind; [now apply preserves_await|].
    intros out. apply preserves_if; apply preserves_ret.
  - intros [v|]; apply preserves_ret.
Qed.

Lemma preserves_recover (root cb b : string) :
  (forall w, P w -> P (snd (engine (Git.Checkout root b) w))) ->
  (forall w, P w -> P (snd (engine (Git.CheckoutLocalBranch root b) w))) ->
  preserves (of_world P) (recover engine root cb b).
Proof.
  intros H1 H2. unfold recover. apply preserves_if; [|apply preserves_ret].
  apply preserves_try_catch.
  - apply preserves_bind; [now apply preserves_await|].
    intros; apply preserves_print.
  - intros _. apply preserves_bind; [now apply preserves_await|].
    intros; apply preserves_print.
Qed.

Lemma preserves_stage_and_commit (relative : string -> string -> string)
    (root p m : string) :
  (forall w, P w ->
     P (snd (engine (Git.Add root (staged_pathspec relative root p)) w))) ->
  (forall w, P w -> P (snd (engine (Git.Commit root m) w))) ->
  preserves (of_world P) (stage_and_commit engine relative root p m).
Proof.
  intros H1 H2. unfold stage_and_commit.
  apply preserves_bind; [now apply preserves_await|]. intros _.
  apply preserves_bind; [apply preserves_print|]. intros _.
  apply preserves_bind; [now apply preserves_await|]. intros _.
  apply preserves_print.
Qed.

Lemma preserves_commit_parent (parent root m : string) :
  (forall w, P w -> P (snd (engine (Git.SimpleGit parent) w))) ->
  (forall w, P w -> P (snd (engine (Git.Add parent (submodule_pathspec root)) w))) ->
  (forall w, P w ->
     P (snd (engine (Git.Commit parent (submodule_message root m)) w))) ->
  preserves (of_world P) (commit_parent engine parent root m).
Proof.
  intros H1 H2 H3. unfold commit_parent.
  apply preserves_bind; [apply preserves_print|]. intros _.
  apply preserves_with_simpleGit; [assumption|].
  apply preserves_bind; [now apply preserves_await|]. intros _.
  apply preserves_bind; [apply preserves_print|]. intros _.
  apply preserves_bind; [now apply preserves_await|]. intros _.
  apply preserves_print.
Qed.
End PreservesWorld.

(** ** The reference engine, request by request *)

Section RefGitFacts.
Import RefGit Facts.

Lemma toplevel_touch (w : disk) (r : repo) :
  toplevel (touch_superproject w r) = toplevel w.
Proof.
  unfold touch_superproject. destruct (superproject r) as [[parent entry]|]; [|reflexivity].
  destruct (repos w !! parent); reflexivity.
Qed.

(** No request changes which directories exist or how pathspecs match. *)
Lemma engine_toplevel (req : Git.request) (w : disk) :
  toplevel (snd (engine req w)) = toplevel w.
Proof.
  destruct req; unfold engine, on_repo;
    repeat case_match; simpl; rewrite ?toplevel_touch; reflexivity.
Qed.




Lemma repo_of_known (w : disk) (d root : string) (r : repo) :
  toplevel w !! d = Some (Some root) -> repos w !! root = Some r ->
  repo_of w d = Some (root, r).
Proof. intros H1 H2. unfold repo_of. now rewrite H1, H2. Qed.

(** On a directory of a repository, [locate] returns the root and the
    branch, and leaves the disk as it is. *)
Lemma locate_ref (s : run disk) (p root : string) (r : repo) :
  toplevel (world s) !! p = Some (Some root) ->
  toplevel (world s) !! root = Some (Some root) ->
  repos (world s) !! root = Some r ->
  exists s', locate engine p s = (inl (root, default "HEAD" (head r)), s')
             /\ world s' = world s.
Proof.
  intros Hp Hroot Hr.
  unfold locate, simpleGit, revparse, bind, await, ret, engine, on_repo; simpl.
  rewrite Hp; simpl.
  rewrite (repo_of_known _ _ _ _ Hp Hr); simpl.
  rewrite Hroot; simpl.
  rewrite (repo_of_known _ _ _ _ Hroot Hr); simpl.
  eexists; split; reflexivity.
Qed.

Lemma recover_ref_named (s : run disk) (root h b : string) :
  Js.trim h <> "HEAD" -> recover engine root h b s = (inl tt, s).
Proof.
  intros Hh. unfold recover. apply String.eqb_neq in Hh. now rewrite Hh.
Qed.

Lemma trim_HEAD : (Js.trim "HEAD" =? "HEAD") = true.
Proof. vm_compute. reflexivity. Qed.

(** From a detached [HEAD], [recover] checks the branch out when the
    checkout is accepted. *)
Lemma recover_ref_switch (s : run disk) (root cb b : string) (r : repo)
    (lost : gset string) :
  Js.trim cb = "HEAD" ->
  toplevel (world s) !! root = Some (Some root) ->
  repos (world s) !! root = Some r ->
  checkout_replaces (world s) root b r = Some lost ->
  exists s', recover engine root cb b s = (inl tt, s')
    /\ world s' = set_repo (world s) root (switched r b lost).
Proof.
  intros Hcb Hroot Hr Hco. apply String.eqb_eq in Hcb.
  unfold recover, try_catch, checkout, checkoutLocalBranch, bind, await, print,
    engine, on_repo; simpl. rewrite Hcb.
  rewrite (repo_of_known _ _ _ _ Hroot Hr); simpl.
  rewrite Hco. simpl.
  eexists; split; reflexivity.
Qed.

(** When the checkout of the existing branch is refused, the creation of
    the branch is refused as well, and [recover] throws. *)
Lemma recover_ref_refused (s : run disk) (root cb b : string) (r : repo) :
  Js.trim cb = "HEAD" ->
  toplevel (world s) !! root = Some (Some root) ->
  repos (world s) !! root = Some r ->
  b ∈ branches r ->
  checkout_replaces (world s) root b r = None ->
  exists s',
    recover engine root cb b s
    = (inr {| message := "fatal: a branch named '" +:+ b +:+ "' already exists" |}, s')
    /\ world s' = world s /\ console s' = console s.
Proof.
  intros Hcb Hroot Hr Hb Hco. apply String.eqb_eq in Hcb.
  unfold recover, try_catch, checkout, checkoutLocalBranch, bind, await, print,
    engine, on_repo; simpl. rewrite Hcb.
  rewrite (repo_of_known _ _ _ _ Hroot Hr); simpl.
  rewrite Hco. rewrite bool_decide_eq_true_2 by assumption. simpl.
  rewrite (repo_of_known _ _ _ _ Hroot Hr); simpl.
  rewrite bool_decide_eq_true_2 by assumption. simpl.
  eexists; repeat split; reflexivity.
Qed.

(** When the checkout is refused and the branch is missing, [recover]
    creates it. *)
Lemma recover_ref_create (s : run disk) (root cb b : string) (r : repo) :
  Js.trim cb = "HEAD" ->
  toplevel (world s) !! root = Some (Some root) ->
  repos (world s) !! root = Some r ->
  b ∉ branches r ->
  checkout_replaces (world s) root b r = None ->
  exists s', recover engine root cb b s = (inl tt, s')
    /\ world s' = set_repo (world s) root (with_head r (Some b) (branches r ∪ {[b]})).
Proof.
  intros Hcb Hroot Hr Hb Hco. apply String.eqb_eq in Hcb.
  unfold recover, try_catch, checkout, checkoutLocalBranch, bind, await, print,
    engine, on_repo; simpl. rewrite Hcb.
  rewrite (repo_of_known _ _ _ _ Hroot Hr); simpl.
  rewrite Hco. rewrite bool_decide_eq_false_2 by assumption. simpl.
  rewrite (repo_of_known _ _ _ _ Hroot Hr); simpl.
  rewrite bool_decide_eq_false_2 by assumption. simpl.
  eexists; split; reflexivity.
Qed.


End RefGitFacts.

Section HeadRecovery.
Import RefGit Facts.
Variable relative : string -> string -> string.


Lemma phases_after_recover (s s1 s2 : run disk) (p m b : string)
    (found : string * string) :
  locate engine p s = (inl found, s1) ->
  recover engine (fst found) (snd found) b s1 = (inl tt, s2) ->
  commitChanges engine relative p m b s
  = try_catch
      (stage_and_commit engine relative (fst found) p m ;;
       update_parent engine (fst found) m)
      report_failure s2.
Proof.
  intros H1 H2. rewrite commitChanges_phases_eq.
  unfold commitChanges_phases, try_catch, bind. rewrite H1, H2. reflexivity.
Qed.

Lemma phases_recover_fails (s s1 s2 : run disk) (p m b : string)
    (found : string * string) (err : error) :
  locate engine p s = (inl found, s1) ->
  recover engine (fst found) (snd found) b s1 = (inr err, s2) ->
  commitChanges engine relative p m b s = report_failure err s2.
Proof.
  intros H1 H2. rewrite commitChanges_phases_eq.
  unfold commitChanges_phases, try_catch, bind. rewrite H1, H2. reflexivity.
Qed.
End HeadRecovery.





(** ** Changes outside the staged subtree *)

Section ScopedStaging.
Import RefGit Facts.
Variables (w0 : disk) (root f : string) (r0 : repo) (keep : bool).

Let Inv : disk -> Prop := scoped_inv w0 root f r0 keep.

Lemma scoped_inv_set_repo (w : disk) (x : string) (rx : repo) :
  Inv w ->
  (forall r, x = root -> repos w !! root = Some r ->
     superproject r = superproject r0 ->
     (keep = true -> f ∈ worktree r) -> unstaged_in f (history r0) r ->
     superproject rx = superproject r0
     /\ (keep = true -> f ∈ worktree rx) /\ unstaged_in f (history r0) rx) ->
  Inv (set_repo w x rx).
Proof.
  intros (Ht & Hc & r & Hr & Hs & Hk & Hp) Hx. repeat split; try assumption.
  unfold set_repo; simpl. destruct (decide (x = root)) as [->|Hne].
  - exists rx. rewrite lookup_insert_eq. split; [reflexivity|]. now apply (Hx r).
  - exists r. rewrite lookup_insert_ne by assumption. auto.
Qed.

Lemma scoped_inv_touch (w : disk) (r : repo) :
  Inv w -> Inv (touch_superproject w r).
Proof.
  intros H. unfold touch_superproject.
  destruct (superproject r) as [[parent entry]|]; [|exact H].
  destruct (repos w !! parent) as [p|] eqn:Hp; [|exact H].
  apply scoped_inv_set_repo; [exact H|].
  intros rr -> Hrr Hs Hk (Hout & new & Hh & Hnew). simplify_eq.
  split; [exact Hs|]. split; [simpl; set_solver|].
  split; [exact Hout|]. exists new. auto.
Qed.

Lemma engine_keeps_scoped (req : Git.request) (w : disk) :
  spares w0 root f req -> Inv w -> Inv (snd (engine req w)).
Proof.
  intros Hreq H.
  destruct req as [d|d args|d br|d br|d spec|d msg|d args];
    try contradiction Hreq;
    unfold engine, on_repo, repo_of;
    repeat case_match; simplify_eq; simpl; try exact H.
  - (* CheckoutLocalBranch *)
    apply scoped_inv_set_repo; [exact H|]. intros rr -> Hrr Hs Hk Hp. simplify_eq. auto.
  - (* Add *)
    apply scoped_inv_set_repo; [exact H|].
    intros rr -> Hrr Hs Hk (Hout & new & Hh & Hnew). simplify_eq.
    split; [exact Hs|].
    destruct H as (Ht & Hc & _).
    assert (Hcov : covers w root d spec f = false).
    { rewrite Hc. apply Hreq. now rewrite <- Ht. }
    split; [|split]; simpl.
    + intros Hkeep. apply elem_of_difference. split; [now apply Hk|].
      rewrite elem_of_filter. intros [Hf _]. congruence.
    + rewrite elem_of_union, elem_of_filter. intros [?|[Hf _]]; [auto|congruence].
    + exists new. auto.
  - (* Commit *)
    apply scoped_inv_touch, scoped_inv_set_repo; [exact H|].
    intros rr -> Hrr Hs Hk (Hout & new & Hh & Hnew). simplify_eq.
    split; [exact Hs|]. split; [exact Hk|]. split; simpl; [set_solver|].
    eexists (_ :: new). rewrite Hh. split; [reflexivity|].
    intros c [<-|Hc]; [exact Hout|now apply Hnew].
Qed.
End ScopedStaging.

Section ScopedRun.
Import RefGit Facts.
Variable relative : string -> string -> string.
Variables (w0 : disk) (p root m f : string) (r0 : repo) (keep : bool).

Hypothesis Hp : toplevel w0 !! p = Some (Some root).
Hypothesis Hroot : toplevel w0 !! root = Some (Some root).
Hypothesis Helsewhere :
  forall parent, reported (superproject r0) parent ->
                 toplevel w0 !! parent <> Some (Some root).

Let Inv : run disk -> Prop := of_world (scoped_inv w0 root f r0 keep).

Lemma spared_keeps (req : Git.request) :
  spares w0 root f req ->
  forall w, scoped_inv w0 root f r0 keep w ->
            scoped_inv w0 root f r0 keep (snd (engine req w)).
Proof. intros H w. now apply engine_keeps_scoped. Qed.

Lemma newline_truthy (pp : string) : Js.truthy (pp +:+ newline) = true.
Proof. destruct pp; reflexivity. Qed.

(** The answer of the Submodule Detector, asked from a directory [d] of
    the repository. *)
Lemma isSubmodule_value (d : string) (s : run disk) (parent : string) :
  toplevel w0 !! d = Some (Some root) ->
  Inv s -> fst (isSubmodule engine d s) = inl (Some parent) ->
  reported (superproject r0) parent.
Proof.
  intros Hd (Ht & _ & r & Hr & Hs & _).
  unfold isSubmodule, simpleGit, raw, try_catch, bind, await, ret, engine, on_repo; simpl.
  rewrite Ht, Hd; simpl.
  rewrite (repo_of_known _ _ _ _ (eq_trans (f_equal (fun t => t !! d) Ht) Hd) Hr);
    simpl.
  rewrite Hs. destruct (superproject r0) as [[pp e]|]; simpl.
  - rewrite newline_truthy; simpl.
    destruct (Js.truthy (Js.trim (pp +:+ newline))); simpl; [|discriminate].
    intros [= <-]. now exists pp, e.
  - discriminate.
Qed.

(** What follows the branch recovery spares the change. *)
Lemma tail_keeps_scoped :
  covers w0 root root (staged_pathspec relative root p) f = false ->
  preserves Inv
    (try_catch
       (stage_and_commit engine relative root p m ;; update_parent engine root m)
       (report_failure (World := disk))).
Proof.
  intros Hspec.
  apply preserves_try_catch; [|intros; apply preserves_print].
  apply preserves_bind.
  { apply preserves_stage_and_commit; apply spared_keeps; [|exact I].
    intros _. exact Hspec. }
  intros _. unfold update_parent.
  apply (preserves_bind_val _
           (fun v => forall parent, v = Some parent -> reported (superproject r0) parent)).
  { intros s v Hs Hv parent ->. now apply (isSubmodule_value root s). }
  { apply preserves_isSubmodule; now apply spared_keeps. }
  intros [parent|] Hv; cbn [truthy_path path_text from_option id];
    [|apply preserves_print].
  apply preserves_if; [|apply preserves_print].
  apply preserves_commit_parent; apply spared_keeps; try exact I.
  intros Hpar. exfalso. now apply (Helsewhere parent (Hv parent eq_refl)).
Qed.

(** The version of functions/commitHelper.js stages ["."] from the
    directory it is called with. *)
Lemma commitHelper_keeps_scoped :
  covers w0 root p "." f = false ->
  preserves Inv (CommitHelper.commitChanges engine p m).
Proof.
  intros Hdot.
  unfold CommitHelper.commitChanges, CommitHelper.isSubmodule.
  apply preserves_try_catch; [|intros; apply preserves_print].
  apply preserves_with_simpleGit; [now apply spared_keeps|].
  apply preserves_bind.
  { apply preserves_await, spared_keeps. intros _. exact Hdot. }
  intros _. apply preserves_bind; [apply preserves_print|]. intros _.
  apply preserves_bind; [apply preserves_await; now apply spared_keeps|]. intros _.
  apply preserves_bind; [apply preserves_print|]. intros _.
  apply (preserves_bind_val _
           (fun v => forall parent, v = Some parent -> reported (superproject r0) parent)).
  { intros s v Hs Hv parent ->. now apply (isSubmodule_value p s). }
  { apply preserves_isSubmodule; now apply spared_keeps. }
  intros [parent|] Hv; cbn [truthy_path path_text from_option id];
    [|apply preserves_print].
  apply preserves_if; [|apply preserves_print].
  apply preserves_bind; [apply preserves_print|]. intros _.
  apply preserves_with_simpleGit; [now apply spared_keeps|].
  apply preserves_bind.
  { apply preserves_await, spared_keeps.
    intros Hpar. exfalso. now apply (Helsewhere parent (Hv parent eq_refl)). }
  intros _. apply preserves_bind; [apply preserves_print|]. intros _.
  apply preserves_bind; [apply preserves_await; now apply spared_keeps|]. intros _.
  apply preserves_print.
Qed.
End ScopedRun.

Section ScopedRecovery.
Import RefGit Facts.
Variable relative : string -> string -> string.
Variables (w : disk) (p root m b f : string) (r : repo).

Hypothesis Hp : toplevel w !! p = Some (Some root).
Hypothesis Hroot : toplevel w !! root = Some (Some root).
Hypothesis Hr : repos w !! root = Some r.
Hypothesis Hin : f ∈ worktree r.
Hypothesis Hout : f ∉ index r.
Hypothesis Helsewhere :
  forall parent, reported (superproject r) parent ->
                 toplevel w !! parent <> Some (Some root).
Hypothesis Hspec : covers w root root (staged_pathspec relative root p) f = false.

Lemma unstaged_start : unstaged_in f (history r) r.
Proof. split; [exact Hout|]. exists []. split; [reflexivity|]. intros c []. Qed.

(** After the recovery has left the repository as [rx], the rest of the
    call spares the change. *)
Lemma scoped_after_recovery (s2 : run disk) (rx : repo) (keep : bool) :
  world s2 = set_repo w root rx ->
  superproject rx = superproject r -> index rx = index r -> history rx = history r ->
  (keep = true -> f ∈ worktree rx) ->
  scoped_inv w root f r keep
    (world (snd (try_catch
                   (stage_and_commit engine relative root p m ;;
                    update_parent engine root m)
                   (report_failure (World := disk)) s2))).
Proof.
  intros Hw Hsp Hix Hhi Hk.
  apply tail_keeps_scoped; try assumption.
  unfold of_world. rewrite Hw. repeat split.
  exists rx. unfold set_repo; simpl. rewrite lookup_insert_eq.
  split; [reflexivity|]. split; [exact Hsp|]. split; [exact Hk|].
  destruct unstaged_start as (H1 & new & H2 & H3).
  split; [now rewrite Hix|]. exists new. now rewrite Hhi.
Qed.

Lemma scoped_with_recovery :
  exists r',
    repos (world (snd (commitChanges engine relative p m b (start w)))) !! root = Some r'
    /\ unstaged_in f (history r) r'
    /\ (f ∈ worktree r' \/ replaced_by_recovery w root b r f).
Proof.
  destruct (locate_ref (start w) p root r Hp Hroot Hr) as (s1 & Hloc & Hw1).
  cbn [start world] in Hw1.
  assert (Hroot1 : toplevel (world s1) !! root = Some (Some root)) by now rewrite Hw1.
  assert (Hr1 : repos (world s1) !! root = Some r) by now rewrite Hw1.
  assert (Hid : world s1 = set_repo w root r).
  { rewrite Hw1. destruct w as [strict cov co top reps]; unfold set_repo; simpl in *.
    f_equal. symmetry. now apply insert_id. }
  destruct (String.eqb_spec (Js.trim (default "HEAD" (head r))) "HEAD") as [Hdet|Hnamed].
  - destruct (checkout_replaces w root b r) as [lost|] eqn:Hco.
    + destruct (recover_ref_switch s1 root _ b r lost Hdet Hroot1 Hr1)
        as (s2 & Hrec & Hw2); [now rewrite Hw1|].
      rewrite (phases_after_recover relative _ s1 s2 _ _ _ _ Hloc Hrec).
      rewrite Hw1 in Hw2.
      destruct (scoped_after_recovery s2 (switched r b lost)
                  (bool_decide (f ∉ lost)) Hw2 eq_refl eq_refl eq_refl)
        as (_ & _ & r' & Hr' & _ & Hk & Hun).
      { intros Hk. apply bool_decide_eq_true_1 in Hk. simpl.
        apply elem_of_difference. now split. }
      exists r'. split; [exact Hr'|]. split; [exact Hun|].
      destruct (decide (f ∈ lost)) as [Hlost|Hkept].
      * right. split; [exact Hdet|]. now exists lost.
      * left. apply Hk. now apply bool_decide_eq_true_2.
    + destruct (decide (b ∈ branches r)) as [Hb|Hb].
      * destruct (recover_ref_refused s1 root _ b r Hdet Hroot1 Hr1 Hb)
          as (s2 & Hrec & Hw2 & _); [now rewrite Hw1|].
        rewrite (phases_recover_fails relative _ s1 s2 _ _ _ _ _ Hloc Hrec).
        unfold report_failure, print. cbn [snd world]. rewrite Hw2, Hw1.
        exists r. split; [exact Hr|]. split; [exact unstaged_start|now left].
      * destruct (recover_ref_create s1 root _ b r Hdet Hroot1 Hr1 Hb)
          as (s2 & Hrec & Hw2); [now rewrite Hw1|].
        rewrite (phases_after_recover relative _ s1 s2 _ _ _ _ Hloc Hrec).
        rewrite Hw1 in Hw2.
        destruct (scoped_after_recovery s2 (with_head r (Some b) (branches r ∪ {[b]}))
                    true Hw2 eq_refl eq_refl eq_refl (fun _ => Hin))
          as (_ & _ & r' & Hr' & _ & Hk & Hun).
        exists r'. split; [exact Hr'|]. split; [exact Hun|]. left. now apply Hk.
  - rewrite (phases_after_recover relative _ s1 s1 _ _ _ _ Hloc
               (recover_ref_named _ _ _ _ Hnamed)).
    destruct (scoped_after_recovery s1 r true Hid eq_refl eq_refl eq_refl (fun _ => Hin))
      as (_ & _ & r' & Hr' & _ & Hk & Hun).
    exists r'. split; [exact Hr'|]. split; [exact Hun|]. left. now apply Hk.
Qed.
End ScopedRecovery.

(** C4 (as amended): on the reference engine, a call of [commitChanges]
    from a directory of a repository leaves every change alone that lies
    outside the staged pathspec and was not staged before the call: after
    the call it is not staged and in none of the commits made by the call,
    and it is still a change of the working tree, unless the repository was
    in detached-HEAD state and the checkout of the branch has replaced the
    file.  The version of functions/commitHelper.js, which stages ["."]
    from the directory it is called with and checks no branch out, leaves
    the change in the working tree in every case.  (The superproject is
    taken to be another repository.) *)
Theorem scoped_staging (relative : string -> string -> string)
    (w : RefGit.disk) (currentPath root commitMessage branchName f : string)
    (r : RefGit.repo) :
  RefGit.toplevel w !! currentPath = Some (Some root) ->
  RefGit.toplevel w !! root = Some (Some root) ->
  RefGit.repos w !! root = Some r ->
  f ∈ RefGit.worktree r ->
  f ∉ RefGit.index r ->
  (forall parent, Facts.reported (RefGit.superproject r) parent ->
                  RefGit.toplevel w !! parent <> Some (Some root)) ->
  let w1 := world (snd (commitChanges RefGit.engine relative currentPath commitMessage
                          branchName (start w))) in
  let w2 := world (snd (CommitHelper.commitChanges RefGit.engine currentPath
                          commitMessage (start w))) in
  (RefGit.covers w root root (staged_pathspec relative root currentPath) f = false ->
   exists r', RefGit.repos w1 !! root = Some r'
              /\ Facts.unstaged_in f (RefGit.history r) r'
              /\ (f ∈ RefGit.worktree r'
                  \/ Facts.replaced_by_recovery w root branchName r f))
  /\ (RefGit.covers w root currentPath "." f = false ->
      exists r', RefGit.repos w2 !! root = Some r'
                 /\ Facts.pending_in f (RefGit.history r) r').
Proof.
  intros Hp Hroot Hr Hin Hout Helse w1 w2. subst w1 w2.
  split; intros Hspec.
  - now apply scoped_with_recovery.
  - assert (Hstart : of_world (Facts.scoped_inv w root f r true) (start w)).
    { split; [reflexivity|]. split; [reflexivity|]. exists r.
      split; [exact Hr|]. split; [reflexivity|]. split; [intros _; exact Hin|].
      split; [exact Hout|]. exists []. split; [reflexivity|]. intros c []. }
    destruct (commitHelper_keeps_scoped w currentPath root commitMessage f r true
                Hp Helse Hspec (start w) Hstart)
      as (_ & _ & r' & Hr' & _ & Hk & Hun).
    exists r'. split; [exact Hr'|]. split; [now apply Hk|exact Hun].
Qed.

Lemma scoped_staging_witness :
  let w := Sample.standalone false Sample.two_changes in
  (exists r',
     RefGit.repos
       (world (snd (commitChanges RefGit.engine RefGit.relative "/notes/A" "msg" "main"
                      (start w)))) !! "/notes" = Some r'
     /\ Facts.unstaged_in "B/b.md" [] r'
     /\ ("B/b.md" ∈ RefGit.worktree r'
         \/ Facts.replaced_by_recovery w "/notes" "main" Sample.two_changes "B/b.md"))
  /\ (exists r',
        RefGit.repos
          (world (snd (CommitHelper.commitChanges RefGit.engine "/notes/A" "msg"
                         (start w)))) !! "/notes" = Some r'
        /\ Facts.pending_in "B/b.md" [] r').
Proof.
  destruct (scoped_staging RefGit.relative (Sample.standalone false Sample.two_changes)
              "/notes/A" "/notes" "msg" "main" "B/b.md" Sample.two_changes) as [H1 H2].
  - reflexivity.
  - reflexivity.
  - reflexivity.
  - simpl. apply (bool_decide_unpack _). vm_compute. exact I.
  - simpl. apply (bool_decide_unpack _). vm_compute. exact I.
  - intros parent (pp & e & H & _). discriminate H.
  - split; [apply H1|apply H2]; vm_compute; reflexivity.
Defined.

(** A checkout that replaces a changed file: the repository is detached
    at a commit where [B/b.md] is not the file of [main], and [B/b.md]
    has been deleted.  The checkout of [main] writes the file of [main];
    after the call the change under [B] is gone, though never committed. *)
Example checkout_replaces_pending_change :
  let w := Sample.with_checkout (Sample.standalone false Sample.detached_from_main)
             (Sample.restoring {["B/b.md"]}) in
  let run := snd (commitChanges RefGit.engine RefGit.relative "/notes/A" "msg" "main"
                    (start w)) in
  Sample.view w "/notes" = Some (None, ["A/a.md"; "B/b.md"], [], [])
  /\ Sample.view (world run) "/notes"
     = Some (Some "main", [], [], [("msg", ["A/a.md"])]).
Proof. vm_compute. repeat split. Qed.

(** C4 (as stated) fails when the change under [B] was staged before the
    call: the pathspec of the call does not cover it, and the commit, which
    takes the whole index, includes it. *)
Lemma prestaged_change_is_committed :
  let w := Sample.standalone false Sample.one_prestaged in
  let r := commitChanges RefGit.engine RefGit.relative "/notes/A" "msg" "main" (start w) in
  Sample.view w "/notes" = Some (Some "main", ["A/a.md"], ["B/b.md"], [])
  /\ RefGit.covers_by_prefix "/notes" "/notes"
       (staged_pathspec RefGit.relative "/notes" "/notes/A") "B/b.md" = false
  /\ Sample.view (world (snd r)) "/notes"
     = Some (Some "main", [], [], [("msg", ["A/a.md"; "B/b.md"])]).
Proof. vm_compute. repeat split. Qed.


(** ** Calling twice in a row *)

Section Settled.
Import RefGit Facts.

Lemma set_repo_id (w : disk) (root : string) (r : repo) :
  repos w !! root = Some r -> set_repo w root r = w.
Proof.
  intros H. destruct w as [strict cov co top reps]; unfold set_repo; simpl in *.
  f_equal. now apply insert_id.
Qed.

Lemma stage_nothing (w : disk) (root dir spec : string) (r : repo) :
  nothing_to_stage w root dir spec r -> stage w root dir spec r = r.
Proof.
  intros H. unfold stage.
  assert (Hhit : filter (fun f => covers w root dir spec f = true) (worktree r) = ∅).
  { apply leibniz_equiv. intros f. rewrite elem_of_filter. split; [|set_solver].
    intros [Hc Hf]. apply H in Hf. congruence. }
  rewrite Hhit, difference_empty_L, (right_id_L ∅ (∪)).
  destruct r; reflexivity.
Qed.

Lemma engine_simpleGit (w : disk) (d : string) (x : option string) :
  toplevel w !! d = Some x -> engine (Git.SimpleGit d) w = (Git.Resolve EmptyString, w).
Proof. intros H. unfold engine. now rewrite H. Qed.

Lemma engine_toplevel_of (w : disk) (d root : string) (r : repo) :
  repo_of w d = Some (root, r) ->
  engine (Git.Revparse d ["--show-toplevel"]) w = (Git.Resolve root, w).
Proof. intros H. unfold engine, on_repo. now rewrite H. Qed.

Lemma engine_branch_of (w : disk) (d root : string) (r : repo) :
  repo_of w d = Some (root, r) ->
  engine (Git.Revparse d ["--abbrev-ref"; "HEAD"]) w
  = (Git.Resolve (default "HEAD" (head r)), w).
Proof. intros H. unfold engine, on_repo. now rewrite H. Qed.

Lemma engine_query_of (w : disk) (d root : string) (r : repo) :
  repo_of w d = Some (root, r) ->
  engine (Git.Raw d superproject_query) w
  = (Git.Resolve match superproject r with
                 | Some (parent, _) => parent +:+ newline
                 | None => EmptyString
                 end, w).
Proof.
  intros H. unfold engine, on_repo. rewrite H. simpl.
  destruct (superproject r) as [[? ?]|]; reflexivity.
Qed.

Lemma engine_checkout (w : disk) (d root br : string) (r : repo) :
  repo_of w d = Some (root, r) ->
  engine (Git.Checkout d br) w
  = match checkout_replaces w root br r with
    | Some lost => (Git.Resolve EmptyString, set_repo w root (switched r br lost))
    | None =>
        if bool_decide (br ∈ branches r) then (Git.Reject would_be_overwritten, w)
        else (Git.Reject ("error: pathspec '" +:+ br
                          +:+ "' did not match any file(s) known to git"), w)
    end.
Proof. intros H. unfold engine, on_repo. now rewrite H. Qed.

Lemma engine_checkoutLocalBranch (w : disk) (d root br : string) (r : repo) :
  repo_of w d = Some (root, r) ->
  engine (Git.CheckoutLocalBranch d br) w
  = if bool_decide (br ∈ branches r)
    then (Git.Reject ("fatal: a branch named '" +:+ br +:+ "' already exists"), w)
    else (Git.Resolve EmptyString,
          set_repo w root (with_head r (Some br) (branches r ∪ {[br]}))).
Proof. intros H. unfold engine, on_repo. now rewrite H. Qed.

Lemma engine_add_nothing (w : disk) (d root spec : string) (r : repo) :
  repo_of w d = Some (root, r) -> repos w !! root = Some r ->
  nothing_to_stage w root d spec r ->
  engine (Git.Add d spec) w = (Git.Resolve EmptyString, w).
Proof.
  intros H Hr Hn. unfold engine, on_repo. rewrite H.
  now rewrite (stage_nothing _ _ _ _ _ Hn), (set_repo_id _ _ _ Hr).
Qed.

Lemma engine_commit_nothing (w : disk) (d root msg : string) (r : repo) :
  repo_of w d = Some (root, r) -> index r = ∅ ->
  engine (Git.Commit d msg) w
  = (if empty_commit_rejects w then Git.Reject nothing_to_commit
     else Git.Resolve EmptyString, w).
Proof.
  intros H Hi. unfold engine, on_repo. rewrite H.
  rewrite bool_decide_eq_true_2 by assumption.
  destruct (empty_commit_rejects w); reflexivity.
Qed.

Lemma isSubmodule_detected (w : disk) (root : string) (r : repo)
    (cs : list (Git.request * Git.response)) (out : list line) :
  toplevel w !! root = Some (Some root) -> repos w !! root = Some r ->
  isSubmodule engine root {| world := w; calls := cs; console := out |}
  = (inl (detected (superproject r)),
     {| world := w;
        calls := cs ++ [ (Git.SimpleGit root, Git.Resolve EmptyString);
                         (Git.Raw root superproject_query,
                          Git.Resolve match superproject r with
                                      | Some (parent, _) => parent +:+ newline
                                      | None => EmptyString
                                      end) ];
        console := out |}).
Proof.
  intros Hroot Hr.
  unfold isSubmodule, simpleGit, raw, try_catch, bind, await, ret. simpl_run.
  rewrite (engine_simpleGit _ _ _ Hroot). simpl_run.
  rewrite (engine_query_of _ _ _ _ (repo_of_known _ _ _ _ Hroot Hr)). simpl_run.
  rewrite <- app_assoc. simpl.
  destruct (superproject r) as [[pp e]|]; simpl; [|reflexivity].
  replace (Js.truthy (pp +:+ newline)) with true by (destruct pp; reflexivity). simpl.
  destruct (Js.truthy (Js.trim (pp +:+ newline))); reflexivity.
Qed.
End Settled.

Section SecondCall.
Import RefGit Facts.
Variable relative : string -> string -> string.
Variables (w : disk) (p root m b : string) (r : repo).

Hypothesis Hp : toplevel w !! p = Some (Some root).
Hypothesis Hroot : toplevel w !! root = Some (Some root).
Hypothesis Hsettled :
  settled w root (staged_pathspec relative root p) (submodule_pathspec root) r.

(** On a settled disk a call changes nothing; it stages and commits all
    the same, and what it prints depends on the answer to the empty
    commit only. *)
Lemma call_on_settled :
  let res := commitChanges engine relative p m b (start w) in
  world (snd res) = w
  /\ In (Git.Commit root m,
         if empty_commit_rejects w then Git.Reject nothing_to_commit
         else Git.Resolve EmptyString) (calls (snd res))
  /\ console (snd res)
     = if empty_commit_rejects w then commit_rejected nothing_to_commit
       else confirmations root m (detected (superproject r)).
Proof.
  destruct Hsettled as (Hr & (h & Hh & Htrim) & Hix & Hnts & Hparent).
  pose proof (repo_of_known _ _ _ _ Hp Hr) as Hrp.
  pose proof (repo_of_known _ _ _ _ Hroot Hr) as Hrr.
  intros res; subst res. rewrite commitChanges_phases_eq.
  unfold commitChanges_phases, locate, recover, stage_and_commit, update_parent,
    report_failure.
  unfold simpleGit, revparse, add, commit, try_catch, bind, await, ret, print, start.
  simpl_run.
  rewrite (engine_simpleGit _ _ _ Hp); simpl_run.
  rewrite (engine_toplevel_of _ _ _ _ Hrp); simpl_run.
  rewrite (engine_simpleGit _ _ _ Hroot); simpl_run.
  rewrite (engine_branch_of _ _ _ _ Hrr); simpl_run.
  rewrite Hh; simpl_run.
  apply String.eqb_neq in Htrim. rewrite Htrim; simpl_run.
  rewrite (engine_add_nothing _ _ _ _ _ Hrr Hr Hnts); simpl_run.
  rewrite (engine_commit_nothing _ _ _ m _ Hrr Hix).
  destruct (empty_commit_rejects w) eqn:Hstrict; simpl_run.
  { repeat split. in_calls. }
  rewrite (isSubmodule_detected w root r _ _ Hroot Hr); simpl_run.
  destruct (detected (superproject r)) as [parent|] eqn:Hdet; simpl_run.
  - destruct (Hparent parent eq_refl) as (pp & pr & Htp & Hpr & Hpix & Hpnts).
    assert (Htruthy : Js.truthy parent = true).
    { unfold detected in Hdet. destruct (superproject r) as [[? ?]|]; [|discriminate].
      simpl in Hdet. destruct (Js.truthy (Js.trim _)) eqn:Ht; congruence. }
    rewrite Htruthy. unfold commit_parent, simpleGit, add, commit, bind, await, ret, print.
    simpl_run.
    pose proof (repo_of_known _ _ _ _ Htp Hpr) as Hrpar.
    rewrite (engine_simpleGit _ _ _ Htp); simpl_run.
    rewrite (engine_add_nothing _ _ _ _ _ Hrpar Hpr Hpnts); simpl_run.
    rewrite (engine_commit_nothing _ _ _ _ _ Hrpar Hpix), Hstrict; simpl_run.
    repeat split. in_calls.
  - repeat split. in_calls.
Qed.
End SecondCall.

(** ** Reasoning on the runs that return *)

Section Returns.
Context {World : Type} (engine : Git.engine World).

Lemma returns_ret {A : Type} (a : A) (P : World -> Prop) (Q : A -> World -> Prop) :
  (forall w, P w -> Q a w) -> returns P (ret a) Q.
Proof. intros H s a' HP [= <-]. now apply H. Qed.

Lemma returns_print (l : line) (P : World -> Prop) (Q : unit -> World -> Prop) :
  (forall w, P w -> Q tt w) -> returns P (print l) Q.
Proof. intros H s [] HP _. now apply H. Qed.

Lemma returns_print_keep (l : line) (P : World -> Prop) :
  returns P (print l) (fun _ => P).
Proof. intros s [] HP _. exact HP. Qed.

(** A fact that does not depend on the world can be taken out of the
    precondition. *)
Lemma returns_assume {A : Type} (fact : Prop) (m : M World A)
    (P : World -> Prop) (Q : A -> World -> Prop) :
  (fact -> returns P m Q) -> returns (fun w => fact /\ P w) m Q.
Proof. intros H s a [Hf HP]. now apply H. Qed.

Lemma returns_bind {A B : Type} (m : M World A) (k : A -> M World B)
    (P : World -> Prop) (R : A -> World -> Prop) (Q : B -> World -> Prop) :
  returns P m R -> (forall a, returns (R a) (k a) Q) -> returns P (bind m k) Q.
Proof.
  intros Hm Hk s b HP. unfold bind. specialize (Hm s).
  destruct (m s) as [[a|e] s1]; simpl in *; [|discriminate].
  intros Hb. apply (Hk a s1 b); [now apply Hm|exact Hb].
Qed.

Lemma returns_await (req : Git.request) (P : World -> Prop)
    (Q : string -> World -> Prop) :
  (forall w out w', P w -> engine req w = (Git.Resolve out, w') -> Q out w') ->
  returns P (await engine req) Q.
Proof.
  intros H s out HP. unfold await. specialize (H (world s)).
  destruct (engine req (world s)) as [[out'|msg] w']; simpl; [|discriminate].
  intros [= <-]. now apply (H out' w').
Qed.

Lemma returns_simpleGit (dir : string) (P : World -> Prop)
    (Q : handle -> World -> Prop) :
  (forall w out w', P w -> engine (Git.SimpleGit dir) w = (Git.Resolve out, w') ->
                    Q {| baseDir := dir |} w') ->
  returns P (simpleGit engine dir) Q.
Proof.
  intros H. unfold simpleGit.
  apply (returns_bind _ _ _ (fun _ => Q {| baseDir := dir |})).
  - now apply returns_await.
  - intros _. now apply returns_ret.
Qed.
End Returns.

Section FirstCall.
Import RefGit Facts.
Variable relative : string -> string -> string.
Variables (w : disk) (p root m b : string) (r : repo).

Hypothesis Hp : toplevel w !! p = Some (Some root).
Hypothesis Hroot : toplevel w !! root = Some (Some root).
Hypothesis Hr : repos w !! root = Some r.
Hypothesis Hb : Js.trim b <> "HEAD".
Hypothesis Hh : forall h, head r = Some h -> Js.trim h <> "HEAD".
Hypothesis Hlayout : two_level w root (superproject r).

Let spec : string := staged_pathspec relative root p.
Let spec' : string := submodule_pathspec root.
Let nts (r' : repo) : Prop := nothing_to_stage w root root spec r'.
Let done (r' : repo) : Prop := nts r' /\ index r' = ∅.
Let after : disk -> Prop := after_call w root r spec spec'.

Lemma base_start : base w r w.
Proof.
  repeat split. intros pp e pr Hsp Hpr.
  destruct (Hlayout pp e Hsp) as (_ & _ & H). now apply H.
Qed.

Lemma base_set_repo (w' : disk) (x : string) (rx : repo) :
  base w r w' ->
  (forall pp e, superproject r = Some (pp, e) -> x = pp -> superproject rx = None) ->
  base w r (set_repo w' x rx).
Proof.
  intros (Ht & Hc & Hs & Hsup) Hx. repeat split; try assumption.
  intros pp e pr Hsp. unfold set_repo; simpl.
  destruct (decide (x = pp)) as [->|Hne].
  - rewrite lookup_insert_eq. intros [= <-]. now apply (Hx pp e).
  - rewrite lookup_insert_ne by assumption. now apply (Hsup pp e).
Qed.

Lemma root_is_set_root (C D : repo -> Prop) (w' : disk) (rx : repo) :
  superproject rx = superproject r ->
  (exists h, head rx = Some h /\ Js.trim h <> "HEAD") ->
  D rx ->
  root_is root r D (set_repo w' root rx).
Proof.
  intros Hs Hhd HD. exists rx. unfold set_repo; simpl.
  rewrite lookup_insert_eq. auto.
Qed.

Lemma root_is_set_other (C : repo -> Prop) (w' : disk) (x : string) (rx : repo) :
  x <> root -> root_is root r C w' -> root_is root r C (set_repo w' x rx).
Proof.
  intros Hne (r' & Hr' & H). exists r'. unfold set_repo; simpl.
  rewrite lookup_insert_ne by assumption. auto.
Qed.

Lemma superproject_elsewhere (pp e : string) :
  superproject r = Some (pp, e) -> pp <> root.
Proof. intros Hsp. now destruct (Hlayout pp e Hsp). Qed.

(** The entry of a submodule touched in its superproject: the
    repository at [root] is not concerned. *)
Lemma touch_keeps (C : repo -> Prop) (w' : disk) (rx : repo) :
  superproject rx = superproject r \/ superproject rx = None ->
  base w r w' -> root_is root r C w' ->
  base w r (touch_superproject w' rx) /\ root_is root r C (touch_superproject w' rx).
Proof.
  intros Hrx Hbase Hroot'. unfold touch_superproject.
  destruct (superproject rx) as [[pp e]|] eqn:Hsp; [|auto].
  destruct Hrx as [Hrx|Hrx]; [|discriminate].
  destruct (repos w' !! pp) as [pr|] eqn:Hpr; [|auto]. split.
  - apply base_set_repo; [exact Hbase|]. intros pp' e' Hsp' _. simpl.
    destruct Hbase as (_ & _ & _ & Hsup). now apply (Hsup pp e pr).
  - apply root_is_set_other; [|exact Hroot'].
    now apply (superproject_elsewhere pp e).
Qed.

Lemma repo_of_root (w' : disk) (r' : repo) :
  base w r w' -> repos w' !! root = Some r' -> repo_of w' root = Some (root, r').
Proof.
  intros (Ht & _) Hr'. apply repo_of_known; [|exact Hr']. now rewrite Ht.
Qed.

(** Staging in the target repository. *)
Lemma add_root_step (w' w'' : disk) (out : string) :
  base w r w' /\ root_is root r (fun _ => True) w' ->
  engine (Git.Add root spec) w' = (Git.Resolve out, w'') ->
  base w r w'' /\ root_is root r nts w''.
Proof.
  intros [Hbase (r' & Hr' & Hs & Hhd & _)].
  unfold engine, on_repo. rewrite (repo_of_root _ _ Hbase Hr').
  intros [= _ <-]. split.
  - apply base_set_repo; [exact Hbase|].
    intros pp e Hsp Heq. now destruct (superproject_elsewhere pp e Hsp).
  - apply (root_is_set_root (fun _ => True)); [exact Hs|exact Hhd|].
    intros f. unfold stage; simpl. rewrite elem_of_difference, elem_of_filter.
    intros [Hf Hnot]. destruct Hbase as (_ & Hc & _). rewrite <- Hc.
    destruct (covers w' root root spec f); [|reflexivity].
    exfalso. apply Hnot. auto.
Qed.

(** Committing in the target repository. *)
Lemma commit_root_step (w' w'' : disk) (out : string) :
  base w r w' /\ root_is root r nts w' ->
  engine (Git.Commit root m) w' = (Git.Resolve out, w'') ->
  base w r w'' /\ root_is root r done w''.
Proof.
  intros [Hbase (r' & Hr' & Hs & Hhd & Hn)].
  unfold engine, on_repo. rewrite (repo_of_root _ _ Hbase Hr').
  case_bool_decide as Hix.
  - destruct (empty_commit_rejects w'); [discriminate|]. intros [= _ <-].
    split; [exact Hbase|]. exists r'. repeat split; assumption.
  - intros [= _ <-]. apply touch_keeps; [left; exact Hs| |].
    + apply base_set_repo; [exact Hbase|].
      intros pp e Hsp Heq. now destruct (superproject_elsewhere pp e Hsp).
    + apply (root_is_set_root (fun _ => True)); [exact Hs|exact Hhd|].
      split; [exact Hn|reflexivity].
Qed.

(** Staging and committing in the superproject found at [pp]. *)
Section Parent.
Variables (parent pp e : string).
Hypothesis Hsp : superproject r = Some (pp, e).
Hypothesis Hparent : toplevel w !! parent = Some (Some pp).

Lemma repo_of_parent (w' : disk) (pr : repo) :
  base w r w' -> repos w' !! pp = Some pr -> repo_of w' parent = Some (pp, pr).
Proof.
  intros (Ht & _) Hpr. apply repo_of_known; [|exact Hpr]. now rewrite Ht.
Qed.

Lemma add_parent_step (w' w'' : disk) (out : string) :
  base w r w' /\ root_is root r done w' ->
  engine (Git.Add parent spec') w' = (Git.Resolve out, w'') ->
  base w r w'' /\ root_is root r done w''
  /\ exists pr, repos w'' !! pp = Some pr /\ nothing_to_stage w pp parent spec' pr.
Proof.
  intros [Hbase Hdone]. unfold engine, on_repo, repo_of.
  destruct Hbase as (Ht & Hc & Hs & Hsup). rewrite Ht, Hparent.
  destruct (repos w' !! pp) as [pr|] eqn:Hpr; [|discriminate].
  intros [= _ <-]. repeat split; try assumption.
  - intros pp' e' pr' Hsp'. unfold set_repo; simpl.
    assert (pp' = pp) as -> by congruence.
    rewrite lookup_insert_eq. intros [= <-]. simpl. now apply (Hsup pp e pr).
  - apply root_is_set_other; [|exact Hdone]. now apply (superproject_elsewhere pp e).
  - eexists. unfold set_repo; simpl. rewrite lookup_insert_eq. split; [reflexivity|].
    intros f. unfold stage; simpl. rewrite elem_of_difference, elem_of_filter.
    intros [Hf Hnot]. rewrite <- Hc.
    destruct (covers w' pp parent spec' f); [|reflexivity].
    exfalso. apply Hnot. auto.
Qed.

Lemma commit_parent_step (w' w'' : disk) (msg out : string) :
  (base w r w' /\ root_is root r done w'
   /\ exists pr, repos w' !! pp = Some pr /\ nothing_to_stage w pp parent spec' pr) ->
  engine (Git.Commit parent msg) w' = (Git.Resolve out, w'') ->
  base w r w'' /\ root_is root r done w'' /\ parent_done w pp parent spec' w''.
Proof.
  intros (Hbase & Hdone & pr & Hpr & Hn). unfold engine, on_repo.
  rewrite (repo_of_parent _ _ Hbase Hpr).
  assert (Hnone : superproject pr = None).
  { destruct Hbase as (_ & _ & _ & Hsup). now apply (Hsup pp e pr). }
  case_bool_decide as Hix.
  - destruct (empty_commit_rejects w'); [discriminate|]. intros [= _ <-].
    split; [exact Hbase|]. split; [exact Hdone|].
    exists pr. repeat split; assumption.
  - intros [= _ <-]. unfold touch_superproject; simpl. rewrite Hnone.
    split; [|split].
    + apply base_set_repo; [exact Hbase|]. intros; exact Hnone.
    + apply root_is_set_other; [|exact Hdone].
      now apply (superproject_elsewhere pp e).
    + eexists. unfold set_repo; simpl. rewrite lookup_insert_eq.
      split; [reflexivity|]. split; [reflexivity|exact Hn].
Qed.

Lemma commit_parent_returns :
  returns (fun w' => base w r w' /\ root_is root r done w')
    (commit_parent engine parent root m)
    (fun _ w' => base w r w' /\ root_is root r done w'
                 /\ parent_done w pp parent spec' w').
Proof.
  set (P0 := fun w' : disk => base w r w' /\ root_is root r done w').
  set (P1 := fun w' : disk =>
               base w r w' /\ root_is root r done w'
               /\ exists pr, repos w' !! pp = Some pr
                             /\ nothing_to_stage w pp parent spec' pr).
  set (P2 := fun w' : disk =>
               base w r w' /\ root_is root r done w'
               /\ parent_done w pp parent spec' w').
  unfold commit_parent.
  apply (returns_bind _ _ _ (fun _ => P0)); [apply returns_print_keep|]. intros ?.
  apply (returns_bind _ _ _ (fun git w' => git = {| baseDir := parent |} /\ P0 w')).
  { apply returns_simpleGit. intros w' out w'' [Hbase Hdone].
    pose proof Hbase as (Ht & Hrest). unfold engine. rewrite Ht, Hparent.
    intros [= ? <-]. split; [reflexivity|]. split; assumption. }
  intros git. apply returns_assume. intros ->.
  apply (returns_bind _ _ _ (fun _ => P1)).
  { unfold add. apply returns_await. intros w' out w''. apply add_parent_step. }
  intros ?. apply (returns_bind _ _ _ (fun _ => P1)); [apply returns_print_keep|].
  intros ?. apply (returns_bind _ _ _ (fun _ => P2)).
  { unfold commit. apply returns_await. intros w' out w'' H.
    apply commit_parent_step. exact H. }
  intros ?. apply returns_print_keep.
Qed.
End Parent.

Lemma locate_returns :
  returns (fun w' => w' = w) (locate engine p)
    (fun found w' => found = (root, default "HEAD" (head r)) /\ w' = w).
Proof.
  intros s found Hw Hfound.
  destruct (locate_ref s p root r) as (s' & Hloc & Hw'); rewrite ?Hw; try assumption.
  rewrite Hloc in *. simpl in *. split; congruence.
Qed.

Lemma recover_returns :
  returns (fun w' => w' = w) (recover engine root (default "HEAD" (head r)) b)
    (fun _ w' => base w r w' /\ root_is root r (fun _ => True) w').
Proof.
  intros s a Hw Hret. destruct (head r) as [h|] eqn:Hhead; cbn [from_option id] in *.
  - rewrite (recover_ref_named _ _ _ _ (Hh h eq_refl)). cbn [snd]. rewrite Hw.
    split; [apply base_start|]. exists r. repeat split; eauto.
  - assert (Hset : exists rx, world (snd (recover engine root "HEAD" b s))
                              = set_repo w root rx
                              /\ head rx = Some b
                              /\ superproject rx = superproject r).
    { assert (Htrim : Js.trim "HEAD" = "HEAD") by (apply String.eqb_eq, trim_HEAD).
      assert (Hroot' : toplevel (world s) !! root = Some (Some root)) by now rewrite Hw.
      assert (Hr' : repos (world s) !! root = Some r) by now rewrite Hw.
      destruct (checkout_replaces w root b r) as [lost|] eqn:Hco.
      - destruct (recover_ref_switch s root "HEAD" b r lost Htrim Hroot' Hr')
          as (s' & Hrec & Hw'); [now rewrite Hw|].
        rewrite Hrec. cbn [snd]. rewrite Hw', Hw. eexists; repeat split.
      - destruct (decide (b ∈ branches r)) as [Hin|Hin].
        + destruct (recover_ref_refused s root "HEAD" b r Htrim Hroot' Hr' Hin)
            as (s' & Hrec & _); [now rewrite Hw|].
          rewrite Hrec in Hret. discriminate Hret.
        + destruct (recover_ref_create s root "HEAD" b r Htrim Hroot' Hr' Hin)
            as (s' & Hrec & Hw'); [now rewrite Hw|].
          rewrite Hrec. cbn [snd]. rewrite Hw', Hw. eexists; repeat split. }
    destruct Hset as (rx & -> & Hhx & Hsx). split.
    + apply base_set_repo; [apply base_start|].
      intros pp e Hsp Heq. now destruct (superproject_elsewhere pp e Hsp).
    + apply (root_is_set_root (fun _ => True)); simpl; eauto.
Qed.

Lemma stage_and_commit_returns :
  returns (fun w' => base w r w' /\ root_is root r (fun _ => True) w')
    (stage_and_commit engine relative root p m)
    (fun _ w' => base w r w' /\ root_is root r done w').
Proof.
  unfold stage_and_commit, add, commit; simpl.
  apply (returns_bind _ _ _ (fun _ w' => base w r w' /\ root_is root r nts w')).
  { apply returns_await. intros w' out w''. apply add_root_step. }
  intros ?. eapply returns_bind; [apply returns_print_keep|].
  intros ?. apply (returns_bind _ _ _ (fun _ w' => base w r w' /\ root_is root r done w')).
  { apply returns_await. intros w' out w''. apply commit_root_step. }
  intros ?. apply returns_print_keep.
Qed.

Lemma isSubmodule_returns (C : repo -> Prop) :
  returns (fun w' => base w r w' /\ root_is root r C w')
    (isSubmodule engine root)
    (fun v w' => v = detected (superproject r)
                 /\ base w r w' /\ root_is root r C w').
Proof.
  intros [w' cs out] v [Hbase Hc]; simpl in *.
  pose proof Hbase as (Ht & _). pose proof Hc as (r' & Hr' & Hs & _).
  rewrite (isSubmodule_detected w' root r' cs out); [|now rewrite Ht|exact Hr'].
  simpl. intros [= <-]. rewrite Hs. auto.
Qed.

Lemma update_parent_returns :
  returns (fun w' => base w r w' /\ root_is root r done w')
    (update_parent engine root m) (fun _ => after).
Proof.
  unfold update_parent.
  eapply returns_bind; [apply isSubmodule_returns|].
  intros v. apply returns_assume. intros ->.
  destruct (detected (superproject r)) as [parent|] eqn:Hdet; simpl.
  - assert (Htruthy : Js.truthy parent = true).
    { unfold detected in Hdet. destruct (superproject r) as [[? ?]|]; [|discriminate].
      simpl in Hdet. destruct (Js.truthy (Js.trim _)) eqn:Ht; congruence. }
    rewrite Htruthy.
    assert (Hfrom : exists pp e, superproject r = Some (pp, e)
                                 /\ parent = Js.trim (pp +:+ newline)).
    { unfold detected in Hdet. destruct (superproject r) as [[pp e]|]; [|discriminate].
      simpl in Hdet. destruct (Js.truthy (Js.trim _)); [|discriminate].
      exists pp, e. split; congruence. }
    destruct Hfrom as (pp & e & Hsp & ->).
    destruct (Hlayout pp e Hsp) as (_ & Htop & _).
    intros s a HP Ha.
    destruct (commit_parent_returns _ pp e Hsp Htop s a HP Ha) as (H1 & H2 & H3).
    split; [exact H1|]. split; [exact H2|].
    intros parent' Hd. rewrite Hdet in Hd. injection Hd as <-.
    exists pp. split; assumption.
  - apply returns_print. intros w' [H1 H2].
    split; [exact H1|]. split; [exact H2|].
    intros parent' Hd. rewrite Hdet in Hd. discriminate Hd.
Qed.

Lemma body_returns :
  returns (fun w' => w' = w)
    (found <- locate engine p ;;
     recover engine (fst found) (snd found) b ;;
     stage_and_commit engine relative (fst found) p m ;;
     update_parent engine (fst found) m)
    (fun _ => after).
Proof.
  eapply returns_bind; [apply locate_returns|].
  intros found. apply returns_assume. intros ->. simpl.
  eapply returns_bind; [apply recover_returns|]. intros ?.
  eapply returns_bind; [apply stage_and_commit_returns|]. intros ?.
  apply update_parent_returns.
Qed.

(** After a call that ran to its end the disk is settled. *)
Lemma after_call_settled (w' : disk) :
  after w' ->
  toplevel w' = toplevel w
  /\ empty_commit_rejects w' = empty_commit_rejects w
  /\ exists r', superproject r' = superproject r
                /\ settled w' root spec spec' r'.
Proof.
  intros ((Ht & Hc & Hs & _) & (r' & Hr' & Hsup & Hhd & Hn & Hix) & Hpar).
  split; [exact Ht|]. split; [exact Hs|]. exists r'. split; [exact Hsup|].
  repeat split; try assumption.
  - intros f Hf. rewrite Hc. now apply Hn.
  - intros parent Hdet. rewrite Hsup in Hdet.
    destruct (Hpar parent Hdet) as (pp & Htop & pr & Hpr & Hpix & Hpn).
    exists pp, pr. rewrite Ht. repeat split; try assumption.
    intros f Hf. rewrite Hc. now apply Hpn.
Qed.
End FirstCall.

(** C3 (as amended): on the reference engine, with the layout the tool
    creates and valid branch names, when a first call of [commitChanges]
    prints no error, a second call right after it changes nothing on the
    disk (it creates no commit, in the target repository or in the
    superproject) and returns the same [undefined]; it reports no
    nothing-to-commit outcome: it stages and calls commit again, and prints
    the confirmations of a commit when the engine resolves a commit with
    nothing staged, or the message of the rejected commit when the engine
    rejects it. *)
Theorem second_call_repeats (relative : string -> string -> string)
    (w : RefGit.disk) (currentPath root commitMessage branchName : string)
    (r : RefGit.repo) :
  RefGit.toplevel w !! currentPath = Some (Some root) ->
  RefGit.toplevel w !! root = Some (Some root) ->
  RefGit.repos w !! root = Some r ->
  Js.trim branchName <> "HEAD" ->
  (forall h, RefGit.head r = Some h -> Js.trim h <> "HEAD") ->
  Facts.two_level w root (RefGit.superproject r) ->
  let r1 := commitChanges RefGit.engine relative currentPath commitMessage branchName
              (start w) in
  let r2 := commitChanges RefGit.engine relative currentPath commitMessage branchName
              (start (world (snd r1))) in
  (forall msg, ~ In (error_line msg) (console (snd r1))) ->
  fst r2 = fst r1
  /\ world (snd r2) = world (snd r1)
  /\ In (Git.Commit root commitMessage,
         if RefGit.empty_commit_rejects w then Git.Reject RefGit.nothing_to_commit
         else Git.Resolve EmptyString) (calls (snd r2))
  /\ console (snd r2)
     = if RefGit.empty_commit_rejects w then commit_rejected RefGit.nothing_to_commit
       else confirmations root commitMessage (Facts.detected (RefGit.superproject r)).
Proof.
  intros Hp Hroot Hr Hb Hh Hlayout r1 r2 Hquiet.
  split; [unfold r1, r2; now rewrite !commitChanges_resolves|].
  assert (Hafter : Facts.after_call w root r (staged_pathspec relative root currentPath)
                     (submodule_pathspec root) (world (snd r1))).
  { subst r1 r2. rewrite commitChanges_phases_eq in *.
    unfold commitChanges_phases, try_catch in *.
    pose proof (body_returns relative w currentPath root commitMessage branchName r
                  Hp Hroot Hr Hb Hh Hlayout (start w)) as Hbody.
    match type of Hbody with
    | forall a, _ -> fst (?body _) = _ -> _ => destruct (body (start w)) as [[a|e] s'] eqn:E
    end.
    - simpl. now apply (Hbody a).
    - exfalso. apply (Hquiet (message e)). simpl. apply in_or_app. right. now left. }
  destruct (after_call_settled relative w currentPath root r _ Hafter)
    as (Ht & Hs & r' & Hsup & Hsettled).
  rewrite <- Hs, <- Hsup.
  apply (call_on_settled relative (world (snd r1)) currentPath root commitMessage
           branchName r'); [now rewrite Ht|now rewrite Ht|exact Hsettled].
Qed.

Lemma second_call_repeats_witness :
  let w := Sample.workspace_edited in
  let r1 := commitChanges RefGit.engine RefGit.relative "/noted/ws" "msg" "main" (start w) in
  let r2 := commitChanges RefGit.engine RefGit.relative "/noted/ws" "msg" "main"
              (start (world (snd r1))) in
  fst r2 = fst r1
  /\ world (snd r2) = world (snd r1)
  /\ In (Git.Commit "/noted/ws" "msg", Git.Resolve EmptyString) (calls (snd r2))
  /\ console (snd r2) = confirmations "/noted/ws" "msg" (Some "/noted").
Proof.
  apply (second_call_repeats RefGit.relative Sample.workspace_edited "/noted/ws"
           "/noted/ws" "msg" "main"
           (Sample.on_main {["a.md"]} ∅ (Some ("/noted", "ws")))).
  - reflexivity.
  - reflexivity.
  - reflexivity.
  - vm_compute. discriminate.
  - intros h [= <-]. vm_compute. discriminate.
  - intros pp e [= <- <-]. split; [discriminate|]. split; [vm_compute; reflexivity|].
    intros pr Hpr. vm_compute in Hpr. injection Hpr as <-. reflexivity.
  - vm_compute. intros msg H.
    repeat (destruct H as [H|H]; [discriminate H|]). exact H.
Defined.

(** C3 (as stated) fails: the second of two calls in a row prints exactly
    what the first printed, the confirmation of a commit in the target
    repository and in the superproject, and it calls commit in both, though
    nothing is left to commit and no commit is created.  On an engine that
    rejects a commit with nothing staged, the second call prints the error
    of the rejected commit and makes no call on the superproject. *)
Lemma second_call_reports_committed :
  let w := Sample.workspace_edited in
  let r1 := commitChanges RefGit.engine RefGit.relative "/noted/ws" "msg" "main" (start w) in
  let r2 := commitChanges RefGit.engine RefGit.relative "/noted/ws" "msg" "main"
              (start (world (snd r1))) in
  let w' := Sample.workspace_edited_strict in
  let r1' := commitChanges RefGit.engine RefGit.relative "/noted/ws" "msg" "main"
               (start w') in
  let r2' := commitChanges RefGit.engine RefGit.relative "/noted/ws" "msg" "main"
               (start (world (snd r1'))) in
  (fst r2 = fst r1
   /\ console (snd r2) = console (snd r1)
   /\ console (snd r2) = confirmations "/noted/ws" "msg" (Some "/noted")
   /\ In (Git.Commit "/noted/ws" "msg", Git.Resolve EmptyString) (calls (snd r2))
   /\ In (Git.Commit "/noted" (submodule_message "/noted/ws" "msg"),
          Git.Resolve EmptyString) (calls (snd r2))
   /\ Sample.view (world (snd r2)) "/noted/ws" = Sample.view (world (snd r1)) "/noted/ws"
   /\ Sample.view (world (snd r2)) "/noted" = Sample.view (world (snd r1)) "/noted")
  /\ (fst r2' = fst r1'
      /\ console (snd r1') = confirmations "/noted/ws" "msg" (Some "/noted")
      /\ console (snd r2') = commit_rejected RefGit.nothing_to_commit
      /\ calls (snd r2')
         = [ (Git.SimpleGit "/noted/ws", Git.Resolve EmptyString);
             (Git.Revparse "/noted/ws" ["--show-toplevel"], Git.Resolve "/noted/ws");
             (Git.SimpleGit "/noted/ws", Git.Resolve EmptyString);
             (Git.Revparse "/noted/ws" ["--abbrev-ref"; "HEAD"], Git.Resolve "main");
             (Git.Add "/noted/ws" "./.", Git.Resolve EmptyString);
             (Git.Commit "/noted/ws" "msg", Git.Reject RefGit.nothing_to_commit) ]).
Proof. vm_compute. repeat split; auto 20. Qed.

(** * Properties of the further code *)

Section NearestFacts.
Variable existsSync : string -> bool.
Variable join : string -> string -> string.

Lemma ancestor_S (k : nat) (p : string) :
  Locator.ancestor (S k) p = Locator.ancestor k (NodePath.dirname p).
Proof. unfold Locator.ancestor. now rewrite Nat.iter_succ_r. Qed.

Lemma ancestor_fixed (k : nat) (p : string) :
  NodePath.dirname p = p -> Locator.ancestor k p = p.
Proof.
  intros H. induction k as [|k IH]; [reflexivity|].
  unfold Locator.ancestor in *. simpl. now rewrite IH.
Qed.

Lemma first_marked_step (marker p : string) (k : nat) :
  first_marked existsSync join marker p (S k) ->
  existsSync (join p marker) = false
  /\ first_marked existsSync join marker (NodePath.dirname p) k.
Proof.
  intros [Hk Hlt]. split; [apply (Hlt 0); lia|]. split.
  - now rewrite <- ancestor_S.
  - intros j Hj. rewrite <- ancestor_S. apply Hlt. lia.
Qed.

Lemma first_marked_unstep (marker p : string) (k : nat) :
  existsSync (join p marker) = false ->
  first_marked existsSync join marker (NodePath.dirname p) k ->
  first_marked existsSync join marker p (S k).
Proof.
  intros H0 [Hk Hlt]. split.
  - now rewrite ancestor_S.
  - intros [|j] Hj; [exact H0|]. rewrite ancestor_S. apply Hlt. lia.
Qed.

Lemma findWorkspaceRoot_found (fuel : nat) (p d : string) :
  Locator.findWorkspaceRoot_loop existsSync join fuel p = Some (Some d) <->
  exists k, k < fuel /\ d = Locator.ancestor k p
            /\ first_marked existsSync join ".git" p k.
Proof.
  revert p; induction fuel as [|fuel IH]; intros p; simpl.
  { split; [discriminate|]. intros (k & Hk & _); lia. }
  destruct (existsSync (join p ".git")) eqn:Hhere; simpl.
  - split.
    + intros [= <-]. exists 0. split; [lia|]. split; [reflexivity|].
      split; [exact Hhere|intros; lia].
    + intros (k & Hk & -> & Hm). destruct k as [|k]; [reflexivity|].
      apply first_marked_step in Hm as [Hm _]. congruence.
  - destruct (String.eqb_spec (NodePath.dirname p) p) as [Hfix|Hne].
    + split; [discriminate|].
      intros (k & _ & _ & Hm & _). rewrite ancestor_fixed in Hm by assumption. congruence.
    + rewrite IH. split.
      * intros (k & Hk & -> & Hm). exists (S k).
        split; [lia|]. split; [now rewrite ancestor_S|].
        now apply first_marked_unstep.
      * intros (k & Hk & -> & Hm). destruct k as [|k].
        { destruct Hm as [Hm _]. simpl in Hm. congruence. }
        apply first_marked_step in Hm as [_ Hm].
        exists k. split; [lia|]. split; [now rewrite ancestor_S|exact Hm].
Qed.
End NearestFacts.

Theorem findWorkspaceRoot_nearest (existsSync : string -> bool)
    (join : string -> string -> string) (fuel : nat) (p d : string) :
  Locator.findWorkspaceRoot existsSync join fuel p = Some (Some d) <->
  exists k, k < fuel /\ d = Locator.ancestor k p
            /\ first_marked existsSync join ".git" p k.
Proof. apply findWorkspaceRoot_found. Qed.

Section NavWalkFacts.
Variable existsSync : string -> bool.
Variable join : string -> string -> string.

Lemma getWorkspaceRoot_nav_walk (fuel : nat) (p : string) :
  Locator.getWorkspaceRoot_loop existsSync join fuel p
  = nav_walk existsSync join ".git" fuel p.
Proof.
  revert p; induction fuel as [|fuel IH]; intros p; simpl; [reflexivity|].
  now rewrite IH.
Qed.

Lemma getNotedRepoRoot_nav_walk (fuel : nat) (p : string) :
  NavCommand.getNotedRepoRoot_loop existsSync join fuel p
  = nav_walk existsSync join ".notedconfig" fuel p.
Proof.
  revert p; induction fuel as [|fuel IH]; intros p; simpl; [reflexivity|].
  now rewrite IH.
Qed.

Lemma below_root_step (p : string) (k : nat) :
  below_root p (S k) <-> p <> "/" /\ below_root (NodePath.dirname p) k.
Proof.
  unfold below_root. split.
  - intros H. split; [apply (H 0); lia|].
    intros j Hj. rewrite <- ancestor_S. apply H. lia.
  - intros [H0 H] [|j] Hj; [exact H0|]. rewrite ancestor_S. apply H. lia.
Qed.

Lemma nav_walk_found (marker : string) (fuel : nat) (p d : string) :
  nav_walk existsSync join marker fuel p = Some (Some d) <->
  exists k, k < fuel /\ d = Locator.ancestor k p
            /\ first_marked existsSync join marker p k /\ below_root p k.
Proof.
  revert p; induction fuel as [|fuel IH]; intros p; simpl.
  { split; [discriminate|]. intros (k & Hk & _); lia. }
  destruct (String.eqb_spec p "/") as [->|Hne]; simpl.
  { split; [discriminate|]. intros (k & _ & _ & _ & Hb). now destruct (Hb 0 ltac:(lia)). }
  destruct (existsSync (join p marker)) eqn:Hhere.
  - split.
    + intros [= <-]. exists 0. split; [lia|]. split; [reflexivity|].
      split; [split; [exact Hhere|intros; lia]|].
      intros j Hj. replace j with 0 by lia. exact Hne.
    + intros (k & Hk & -> & Hm & _). destruct k as [|k]; [reflexivity|].
      apply first_marked_step in Hm as [Hm _]. congruence.
  - rewrite IH. split.
    + intros (k & Hk & -> & Hm & Hb). exists (S k).
      split; [lia|]. split; [now rewrite ancestor_S|].
      split; [now apply first_marked_unstep|].
      apply below_root_step. now split.
    + intros (k & Hk & -> & Hm & Hb). destruct k as [|k].
      { destruct Hm as [Hm _]. simpl in Hm. congruence. }
      apply first_marked_step in Hm as [_ Hm].
      apply below_root_step in Hb as [_ Hb].
      exists k. split; [lia|]. split; [now rewrite ancestor_S|]. now split.
Qed.

Lemma nav_walk_hides_root (fuel : nat) (p : string) :
  NodePath.isAbsolute p = true -> String.length p < fuel ->
  nav_walk existsSync join ".git" fuel p
  = hide_root (Locator.findWorkspaceRoot_loop existsSync join fuel p).
Proof.
  revert p; induction fuel as [|fuel IH]; intros p Habs Hlen; [lia|]. simpl.
  destruct (String.eqb_spec p "/") as [->|Hne]; simpl.
  { destruct (existsSync (join "/" ".git")); reflexivity. }
  destruct (existsSync (join p ".git")) eqn:Hhere; simpl.
  - apply String.eqb_neq in Hne. now rewrite Hne.
  - destruct (dirname_absolute p Habs Hne) as [Ha Hl].
    destruct (String.eqb_spec (NodePath.dirname p) p) as [Hfix|_].
    { rewrite Hfix in Hl. lia. }
    apply IH; [assumption|lia].
Qed.
End NavWalkFacts.

(** commands/nav.js: [getWorkspaceRoot] and [getNotedRepoRoot] return a
    directory exactly when it is the nearest one, on the way up from the
    starting directory, that holds the marker ([.git], [.notedconfig]), and
    the walk has not met the filesystem root up to it. *)
Theorem nav_roots_nearest (existsSync : string -> bool)
    (join : string -> string -> string) (fuel : nat) (p d : string) :
  (Locator.getWorkspaceRoot existsSync join fuel p = Some (Some d) <->
   exists k, k < fuel /\ d = Locator.ancestor k p
             /\ first_marked existsSync join ".git" p k /\ below_root p k)
  /\ (NavCommand.getNotedRepoRoot existsSync join fuel p = Some (Some d) <->
      exists k, k < fuel /\ d = Locator.ancestor k p
                /\ first_marked existsSync join ".notedconfig" p k /\ below_root p k).
Proof.
  unfold Locator.getWorkspaceRoot, NavCommand.getNotedRepoRoot.
  rewrite getWorkspaceRoot_nav_walk, getNotedRepoRoot_nav_walk.
  split; apply nav_walk_found.
Qed.

(** From an absolute starting directory, [getWorkspaceRoot] of
    commands/nav.js returns what [findWorkspaceRoot] of the upload command
    returns, except for a repository at the filesystem root, which it
    reports as not found. *)
Theorem getWorkspaceRoot_hides_root (existsSync : string -> bool)
    (join : string -> string -> string) (fuel : nat) (p : string) :
  NodePath.isAbsolute p = true -> String.length p < fuel ->
  Locator.getWorkspaceRoot existsSync join fuel p
  = hide_root (Locator.findWorkspaceRoot existsSync join fuel p).
Proof.
  intros Habs Hlen. unfold Locator.getWorkspaceRoot, Locator.findWorkspaceRoot.
  rewrite getWorkspaceRoot_nav_walk. now apply nav_walk_hides_root.
Qed.

Lemma getWorkspaceRoot_hides_root_witness :
  Locator.getWorkspaceRoot (fun p => p =? "//.git") slash_join 9 "/notes" = Some null
  /\ Locator.findWorkspaceRoot (fun p => p =? "//.git") slash_join 9 "/notes"
     = Some (Some "/").
Proof.
  split; [|reflexivity].
  rewrite (getWorkspaceRoot_hides_root (fun p => p =? "//.git") slash_join 9 "/notes");
    [reflexivity|reflexivity|simpl; lia].
Defined.

Section FailStop.
Context {World : Type} (engine : Git.engine World).
Variable relative : string -> string -> string.
Variables currentPath commitMessage branchName : string.
Variable w : World.

Ltac at_call i H Hs :=
  simpl in H;
  first
    [ discriminate H
    | destruct i as [|i];
      [ first [ discriminate H
              | injection H as <- <-;
                first [discriminate Hs | split; reflexivity] ]
      | at_call i H Hs ] ].

Lemma commitChanges_rejection_last (i : nat) (req : Git.request) (err : string) :
  let s' := snd (commitChanges engine relative currentPath commitMessage branchName
                   (start w)) in
  calls s' !! i = Some (req, Git.Reject err) -> swallowed req = false ->
  length (calls s') = S i /\ last (console s') = Some (error_line err).
Proof.
  intros s'; subst s'. run_all engine; intros H Hs; at_call i H Hs.
Qed.

Lemma commitHelper_rejection_last (i : nat) (req : Git.request) (err : string) :
  let s' := snd (CommitHelper.commitChanges engine currentPath commitMessage (start w)) in
  calls s' !! i = Some (req, Git.Reject err) -> swallowed req = false ->
  length (calls s') = S i /\ last (console s') = Some (error_line err).
Proof.
  intros s'; subst s'. run_all engine; intros H Hs; at_call i H Hs.
Qed.

Ltac find_line H :=
  repeat (destruct H as [H|H]; [try discriminate; subst|]); try contradiction.

Lemma commitChanges_error_cause (l : line) :
  let s' := snd (commitChanges engine relative currentPath commitMessage branchName
                   (start w)) in
  In l (console s') -> is_error l = true ->
  exists req err, last (calls s') = Some (req, Git.Reject err)
                  /\ swallowed req = false /\ l = error_line err.
Proof.
  intros s'; subst s'. run_all engine; intros H Hl; simpl in H; find_line H;
    try discriminate Hl; do 2 eexists; (split; [reflexivity|split; reflexivity]).
Qed.

Lemma commitHelper_error_cause (l : line) :
  let s' := snd (CommitHelper.commitChanges engine currentPath commitMessage (start w)) in
  In l (console s') -> is_error l = true ->
  exists req err, last (calls s') = Some (req, Git.Reject err)
                  /\ swallowed req = false /\ l = error_line err.
Proof.
  intros s'; subst s'. run_all engine; intros H Hl; simpl in H; find_line H;
    try discriminate Hl; do 2 eexists; (split; [reflexivity|split; reflexivity]).
Qed.
End FailStop.

(** Both versions of [commitChanges], whatever the engine answers: a call
    that rejects, other than the checkout of the branch recovery and the
    superproject query, is the last call of the run, and its message is the
    last line printed; and an error line is printed only then, with the
    message of the run's last call. *)
Theorem rejection_ends_the_run {World : Type} (engine : Git.engine World)
    (relative : string -> string -> string)
    (currentPath commitMessage branchName : string) (w : World) :
  let s1 := snd (commitChanges engine relative currentPath commitMessage branchName
                   (start w)) in
  let s2 := snd (CommitHelper.commitChanges engine currentPath commitMessage (start w)) in
  (forall i req err,
     calls s1 !! i = Some (req, Git.Reject err) -> swallowed req = false ->
     length (calls s1) = S i /\ last (console s1) = Some (error_line err))
  /\ (forall l, In l (console s1) -> is_error l = true ->
        exists req err, last (calls s1) = Some (req, Git.Reject err)
                        /\ swallowed req = false /\ l = error_line err)
  /\ (forall i req err,
        calls s2 !! i = Some (req, Git.Reject err) -> swallowed req = false ->
        length (calls s2) = S i /\ last (console s2) = Some (error_line err))
  /\ (forall l, In l (console s2) -> is_error l = true ->
        exists req err, last (calls s2) = Some (req, Git.Reject err)
                        /\ swallowed req = false /\ l = error_line err).
Proof.
  intros s1 s2. split; [|split; [|split]].
  - intros i req err. apply commitChanges_rejection_last.
  - apply commitChanges_error_cause.
  - intros i req err. apply commitHelper_rejection_last.
  - apply commitHelper_error_cause.
Qed.

Section Recovery.
Context {World : Type} (engine : Git.engine World).
Variable relative : string -> string -> string.
Variables currentPath commitMessage branchName : string.
Variable w : World.

Ltac step_if_eqn :=
  match goal with
  | |- context [if ?c then _ else _] =>
      let E := fresh "E" in destruct c eqn:E; simpl_run
  end.

Ltac run_eqn := unfold_js; simpl_run; repeat first [step_engine engine | step_if_eqn].

Ltac find_call H :=
  repeat (destruct H as [H|H]; [try discriminate; try (injection H as <- <- <-)|]);
  try contradiction.

Lemma checkout_only_when_detached (d b : string) (resp : Git.response) :
  let s' := snd (commitChanges engine relative currentPath commitMessage branchName
                   (start w)) in
  In (Git.Checkout d b, resp) (calls s') ->
  b = branchName
  /\ In (Git.Revparse currentPath ["--show-toplevel"], Git.Resolve d) (calls s')
  /\ exists out,
       In (Git.Revparse d ["--abbrev-ref"; "HEAD"], Git.Resolve out) (calls s')
       /\ Js.trim out = "HEAD".
Proof.
  intros s'; subst s'. run_eqn; intros H; simpl in H; find_call H;
    (split; [reflexivity|]); (split; [in_calls|]);
    eexists; (split; [in_calls|]); now apply String.eqb_eq.
Qed.

Lemma create_only_after_failed_checkout (d b : string) (resp : Git.response) :
  let s' := snd (commitChanges engine relative currentPath commitMessage branchName
                   (start w)) in
  In (Git.CheckoutLocalBranch d b, resp) (calls s') ->
  exists err, In (Git.Checkout d b, Git.Reject err) (calls s').
Proof.
  intros s'; subst s'. run_all engine; intros H; simpl in H; find_call H;
    eexists; in_calls.
Qed.

Lemma commitHelper_no_checkout (c : Git.request * Git.response) :
  let s' := snd (CommitHelper.commitChanges engine currentPath commitMessage (start w)) in
  In c (calls s') -> is_checkout c = false.
Proof.
  intros s'; subst s'. run_all engine; intros H; simpl in H;
    repeat (destruct H as [H|H]; [subst c; reflexivity|]); contradiction.
Qed.
End Recovery.

(** [commitChanges] with branch recovery, whatever the engine answers: it
    checks a branch out only in the repository root it was given by the
    engine, only the branch it was asked for, and only when the engine gave
    [HEAD] for the current branch; it creates that branch only after this
    checkout was rejected.  The version of functions/commitHelper.js never
    switches branches. *)
Theorem branch_touched_only_when_detached {World : Type} (engine : Git.engine World)
    (relative : string -> string -> string)
    (currentPath commitMessage branchName : string) (w : World) :
  let s1 := snd (commitChanges engine relative currentPath commitMessage branchName
                   (start w)) in
  let s2 := snd (CommitHelper.commitChanges engine currentPath commitMessage (start w)) in
  (forall d b resp,
     In (Git.Checkout d b, resp) (calls s1) ->
     b = branchName
     /\ In (Git.Revparse currentPath ["--show-toplevel"], Git.Resolve d) (calls s1)
     /\ exists out,
          In (Git.Revparse d ["--abbrev-ref"; "HEAD"], Git.Resolve out) (calls s1)
          /\ Js.trim out = "HEAD")
  /\ (forall d b resp,
        In (Git.CheckoutLocalBranch d b, resp) (calls s1) ->
        exists err, In (Git.Checkout d b, Git.Reject err) (calls s1))
  /\ (forall c, In c (calls s2) -> is_checkout c = false).
Proof.
  intros s1 s2. split; [|split].
  - apply checkout_only_when_detached.
  - apply create_only_after_failed_checkout.
  - apply commitHelper_no_checkout.
Qed.

(** ** The copies of the Submodule Detector agree *)

(** The upload command's own [isSubmodule] makes the calls of the exported
    one and leaves the same state; it throws when that one throws, returns
    the path that one returns, and returns a falsy value ([undefined] for a
    blank output, [null] for a rejected query) when that one returns
    [null], so the test [!parentRepoPath] of their callers decides alike. *)
Theorem upload_isSubmodule_agrees {World : Type} (engine : Git.engine World)
    (repoPath : string) (s : run World) :
  let r := UploadDetector.isSubmodule engine repoPath s in
  let r' := isSubmodule engine repoPath s in
  snd r = snd r'
  /\ match fst r, fst r' with
     | inl v, inl v' =>
         as_path v = v' /\ UploadDetector.truthy v = truthy_path v'
         /\ (v = UploadDetector.Null <->
             exists msg,
               last (calls (snd r))
               = Some (Git.Raw repoPath superproject_query, Git.Reject msg))
     | inr e, inr e' => e = e'
     | _, _ => False
     end.
Proof.
  unfold UploadDetector.isSubmodule. run_all engine;
    repeat split; try discriminate;
    try (intros _; rewrite last_snoc; eexists; reflexivity);
    try (intros (? & H); rewrite last_snoc in H; discriminate H).
Qed.

(** ** The navigation command *)

Section JsStringFacts.

Lemma prefix_app (p s : string) : String.prefix p (p +:+ s) = true.
Proof.
  induction p as [|c p IH]; simpl; [now destruct s|].
  destruct (ascii_dec c c); [exact IH|congruence].
Qed.

Lemma drop_app (p s : string) : Js.drop (String.length p) (p +:+ s) = s.
Proof. induction p as [|c p IH]; simpl; [now destruct s|exact IH]. Qed.

Lemma slice_0_0 (s : string) : Js.slice s 0 0 = EmptyString.
Proof. unfold Js.slice. now destruct s. Qed.

Lemma indexOf_leading (s p : string) :
  String.prefix p s = true -> JsString.indexOf s p = Some 0.
Proof. intros H. destruct s; cbn [JsString.indexOf]; now rewrite H. Qed.

(** Removing a leading piece by [replace]. *)
Lemma replace_leading (p s : string) :
  JsString.replace (p +:+ s) p EmptyString = s.
Proof.
  unfold JsString.replace.
  rewrite (indexOf_leading _ _ (prefix_app p s)), slice_0_0.
  simpl. apply drop_app.
Qed.
End JsStringFacts.

(** commands/nav.js: the choices offered for a folder and for a note lead
    back to that folder and that note, whatever their names: picking the
    choice of the folder [f] and then [Navigate Inside] enters
    [navigateFolders] again on [f] inside the current directory, and picking
    the choice of the note [n] and then [Open in Text Editor] opens [n] of
    the current directory. *)
Theorem choice_leads_to_its_entry (platform cwd : string)
    (readdirSync : string -> list NavCommand.dirent)
    (join : string -> string -> string)
    (script : list string) (currentPath currentFolder f n : string) :
  let body := NavCommand.navigateFolders_body platform cwd readdirSync join in
  (snd (fst (body (NavCommand.folder_choice f :: "Navigate Inside" :: script)
               currentPath currentFolder))
   = NavCommand.Again (join currentPath f) f)
  /\ (exists asked asked',
        body (NavCommand.note_choice n :: "Open in Text Editor" :: script)
          currentPath currentFolder
        = (NavCommand.Prompt asked (NavCommand.choices readdirSync currentPath)
           :: NavCommand.Prompt asked' ["Open in Text Editor"; "Go Back"; "Exit"]
           :: NavCommand.openNoteInEditor platform (join currentPath n),
           NavCommand.Resolved, script)).
Proof.
  intros body; subst body. split.
  - unfold NavCommand.navigateFolders_body.
    change (NavCommand.folder_choice f =? "Go Back") with false.
    change (NavCommand.folder_choice f =? "Exit") with false.
    change (JsString.startsWith (NavCommand.folder_choice f) "📂") with true.
    cbv iota. unfold NavCommand.folder_choice.
    rewrite (replace_leading "📂 " f). reflexivity.
  - unfold NavCommand.navigateFolders_body, NavCommand.note_block.
    change (NavCommand.note_choice n =? "Go Back") with false.
    change (NavCommand.note_choice n =? "Exit") with false.
    change (JsString.startsWith (NavCommand.note_choice n) "📂") with false.
    change (JsString.startsWith (NavCommand.note_choice n) "📝") with true.
    cbv iota. unfold NavCommand.note_choice.
    rewrite (replace_leading "📝 " n). do 2 eexists. reflexivity.
Qed.

(** commands/nav.js: [nav] started from the current directory and
    answered with [Go Back] calls [navigateWorkspaces], which is declared
    nowhere: the run ends with that error thrown, after the first question,
    whatever the directory holds. *)
Theorem go_back_at_start_throws (platform cwd : string)
    (readdirSync : string -> list NavCommand.dirent)
    (existsSync : string -> bool) (join : string -> string -> string)
    (fuel : nat) (script : list string) (scope : option string) :
  scope <> Some "all" -> scope <> Some "workspace" ->
  exists asked,
    NavCommand.navCommand platform cwd readdirSync existsSync join (S fuel) scope
      ("Go Back" :: script)
    = Some ([NavCommand.Print
               (Log green ("Starting from the current directory: " +:+ cwd));
             NavCommand.Prompt asked (NavCommand.choices readdirSync cwd)],
            NavCommand.Thrown NavCommand.navigateWorkspaces_undeclared).
Proof.
  intros Hall Hws. unfold NavCommand.navCommand.
  rewrite !bool_decide_eq_false_2 by assumption.
  unfold NavCommand.navigateFromCurrentDir. simpl.
  rewrite String.eqb_refl. eexists. reflexivity.
Qed.

Lemma go_back_at_start_throws_witness :
  exists asked,
    NavCommand.navCommand "linux" "/noted/ws" (fun _ => []) bare_fs slash_join 1 None
      ["Go Back"]
    = Some ([NavCommand.Print
               (Log green ("Starting from the current directory: " +:+ "/noted/ws"));
             NavCommand.Prompt asked (NavCommand.choices (fun _ => []) "/noted/ws")],
            NavCommand.Thrown NavCommand.navigateWorkspaces_undeclared).
Proof.
  apply (go_back_at_start_throws "linux" "/noted/ws" (fun _ => []) bare_fs slash_join 0 []
           None); discriminate.
Defined.

(** ** The names of new notes *)

Lemma length_append (s t : string) :
  String.length (s +:+ t) = String.length s + String.length t.
Proof. induction s as [|c s IH]; simpl; [reflexivity|now rewrite IH]. Qed.

Lemma app_inv_tail_string (s1 s2 t : string) : s1 +:+ t = s2 +:+ t -> s1 = s2.
Proof.
  revert s2; induction s1 as [|c s1 IH]; intros [|c' s2] H.
  - reflexivity.
  - exfalso. apply (f_equal String.length) in H.
    rewrite !length_append in H. simpl in H. lia.
  - exfalso. apply (f_equal String.length) in H.
    rewrite !length_append in H. simpl in H. lia.
  - cbn in H. injection H as -> H. f_equal. now apply IH.
Qed.

Section NoteFacts.
Variable existing : gset string.
Variable baseName : string.

Let file (name : string) : string := name +:+ ".md".

Lemma file_candidate_inj (j k : nat) :
  file (Names.candidate baseName j) = file (Names.candidate baseName k) -> j = k.
Proof.
  unfold file, Names.candidate. intros H.
  apply app_inv_tail_string in H.
  apply (inj (String.app baseName)) in H.
  apply (inj (String.app "-")) in H.
  now apply (inj pretty) in H.
Qed.

Lemma file_candidate_base (j : nat) : file (Names.candidate baseName j) <> file baseName.
Proof.
  unfold file, Names.candidate. intros H. apply app_inv_tail_string in H.
  apply (f_equal String.length) in H. rewrite !length_append in H.
  simpl in H. lia.
Qed.

Lemma some_note_free :
  exists j, 1 <= j <= size existing + 1 /\ (file (Names.candidate baseName j) ∉ existing).
Proof.
  set (n := size existing).
  set (l := seq 1 (n + 1)).
  set (g := fun j => file (Names.candidate baseName j)).
  destruct (decide (Forall (fun j => g j ∈ existing) l)) as [Hall|Hex].
  - exfalso.
    assert (Hnd : NoDup (g <$> l)).
    { apply NoDup_fmap_2; [intros j k; apply file_candidate_inj|apply NoDup_seq]. }
    assert (Hsub : list_to_set (C := gset string) (g <$> l) ⊆ existing).
    { intros x Hx. apply elem_of_list_to_set, list_elem_of_fmap in Hx as (j & -> & Hj).
      rewrite Forall_forall in Hall. now apply Hall. }
    apply subseteq_size in Hsub.
    rewrite size_list_to_set in Hsub by assumption.
    rewrite length_fmap in Hsub. subst l. rewrite length_seq in Hsub. lia.
  - apply not_Forall_Exists in Hex; [|intros j; apply _].
    apply Exists_exists in Hex as (j & Hj & Hfree).
    exists j. split; [|exact Hfree].
    subst l. apply elem_of_seq in Hj. lia.
Qed.

Lemma least_note_free (d c : nat) :
  (exists j, c <= j < c + d /\ (file (Names.candidate baseName j) ∉ existing)) ->
  exists k, c <= k /\ (file (Names.candidate baseName k) ∉ existing)
    /\ forall j, c <= j < k -> file (Names.candidate baseName j) ∈ existing.
Proof.
  revert c; induction d as [|d IH]; intros c (j & Hj & Hfree); [lia|].
  destruct (decide (file (Names.candidate baseName c) ∈ existing)) as [Hin|Hout].
  - destruct (IH (S c)) as (k & Hk & Hkf & Hbelow).
    + exists j. split; [|exact Hfree].
      destruct (decide (j = c)) as [->|]; [contradiction|lia].
    + exists k. split; [lia|]. split; [exact Hkf|].
      intros i Hi. destruct (decide (i = c)) as [->|]; [exact Hin|apply Hbelow; lia].
  - exists c. split; [lia|]. split; [exact Hout|intros; lia].
Qed.

Lemma note_loop_walk (d c fuel : nat) (name : string) :
  file name ∈ existing ->
  (forall j, c <= j < c + d -> file (Names.candidate baseName j) ∈ existing) ->
  file (Names.candidate baseName (c + d)) ∉ existing ->
  d + 1 < fuel ->
  Notes.note_loop existing fuel baseName name c
  = Some (Names.candidate baseName (c + d)).
Proof.
  revert c fuel name; induction d as [|d IH]; intros c fuel name Hin Htaken Hfree Hfuel.
  - destruct fuel as [|[|fuel]]; try lia. simpl.
    unfold Names.existsSync_in_dir.
    rewrite bool_decide_eq_true_2 by assumption.
    rewrite Nat.add_0_r in *.
    rewrite bool_decide_eq_false_2 by assumption. reflexivity.
  - destruct fuel as [|fuel]; [lia|]. simpl.
    unfold Names.existsSync_in_dir at 1.
    rewrite bool_decide_eq_true_2 by assumption.
    replace (c + S d) with (S c + d) in * by lia.
    apply IH; [apply Htaken; lia|intros; apply Htaken; lia|assumption|lia].
Qed.

Lemma note_loop_result :
  exists name,
    (forall fuel, size existing + 1 < fuel ->
       Notes.note_loop existing fuel baseName baseName 1 = Some name)
    /\ (file name ∉ existing)
    /\ (file baseName ∉ existing -> name = baseName)
    /\ (file baseName ∈ existing ->
        exists k, 1 <= k /\ name = Names.candidate baseName k
          /\ forall j, 1 <= j < k -> file (Names.candidate baseName j) ∈ existing).
Proof.
  destruct (decide (file baseName ∈ existing)) as [Hin|Hout].
  - destruct some_note_free as (j & Hj & Hfree).
    destruct (least_note_free (size existing + 1) 1) as (k & Hk & Hkf & Hbelow).
    { exists j. split; [lia|exact Hfree]. }
    assert (Hkle : k <= size existing + 1).
    { destruct (le_lt_dec k j) as [|Hlt]; [lia|].
      exfalso. apply Hfree, Hbelow. lia. }
    exists (Names.candidate baseName k). split; [|split; [exact Hkf|split]].
    + intros fuel Hfuel.
      replace k with (1 + (k - 1)) by lia.
      apply note_loop_walk; try assumption.
      * intros i Hi. apply Hbelow. lia.
      * now replace (1 + (k - 1)) with k by lia.
      * lia.
    + intros; contradiction.
    + intros _. exists k. split; [lia|]. split; [reflexivity|assumption].
  - exists baseName. split; [|split; [exact Hout|split]].
    + intros fuel Hfuel. destruct fuel; [lia|]. simpl.
      unfold Names.existsSync_in_dir. now rewrite bool_decide_eq_false_2.
    + reflexivity.
    + intros; contradiction.
Qed.
End NoteFacts.

(** [note add]: for every set of entries of the current directory, the
    loop ends and returns a name whose file [name.md] does not exist: the
    given name (or [untitled-note]) when its file is free, and otherwise
    [name-k] for the least [k >= 1] whose file is free.  The file the action
    writes afterwards is therefore never an existing one. *)
Theorem note_add_picks_free_file (existing : gset string) (noteName : option string) :
  let base := default "untitled-note" noteName in
  exists r,
    (forall fuel, size existing + 1 < fuel ->
       Notes.noteCommand_add existing fuel noteName = Some r)
    /\ (r +:+ ".md" ∉ existing)
    /\ (base +:+ ".md" ∉ existing -> r = base)
    /\ (base +:+ ".md" ∈ existing ->
        exists k, 1 <= k /\ r = Names.candidate base k
          /\ forall j, 1 <= j < k -> Names.candidate base j +:+ ".md" ∈ existing).
Proof. intros base. apply note_loop_result. Qed.

Section Series.
Variable base : string.

Let file (name : string) : string := name +:+ ".md".

(** The files of the first [i] notes of the series. *)
Let written (i : nat) : gset string :=
  list_to_set (map (fun j => file (nth_name base j)) (seq 0 i)).

Lemma written_S (i : nat) : written (S i) = written i ∪ {[file (nth_name base i)]}.
Proof.
  unfold written. rewrite seq_S, map_app, list_to_set_app_L. simpl.
  now rewrite (right_id_L ∅ (∪)).
Qed.

Lemma elem_of_written (x : string) (i : nat) :
  x ∈ written i <-> exists j, j < i /\ x = file (nth_name base j).
Proof.
  unfold written. rewrite elem_of_list_to_set, list_elem_of_In, in_map_iff. split.
  - intros (j & <- & Hj). apply in_seq in Hj. exists j. split; [lia|reflexivity].
  - intros (j & Hj & ->). exists j. split; [reflexivity|]. apply in_seq. lia.
Qed.

Lemma nth_name_inj (i j : nat) : file (nth_name base i) = file (nth_name base j) -> i = j.
Proof.
  destruct i as [|i], j as [|j]; simpl; intros H.
  - reflexivity.
  - symmetry in H. now apply file_candidate_base in H.
  - now apply file_candidate_base in H.
  - now apply file_candidate_inj in H.
Qed.

Variable existing : gset string.
Variable writes : gset string -> string -> bool.
Hypothesis Hfresh : forall i, file (nth_name base i) ∉ existing.
Hypothesis Hworkspace : ".notedconfig" ∉ existing.
Hypothesis Hwrites : forall dir name, writes dir name = true.

Lemma run_gives_next (i : nat) (fuel : nat) :
  size (existing ∪ written i) + 1 < fuel ->
  Notes.noteCommand_add (existing ∪ written i) fuel (Some base) = Some (nth_name base i).
Proof.
  intros Hfuel.
  assert (Hin : forall j, j < i -> file (nth_name base j) ∈ existing ∪ written i).
  { intros j Hj. apply elem_of_union_r, elem_of_written. now exists j. }
  assert (Hout : forall j, i <= j -> file (nth_name base j) ∉ existing ∪ written i).
  { intros j Hj [Hx|Hx]%elem_of_union; [now apply (Hfresh j)|].
    apply elem_of_written in Hx as (j' & Hj' & Heq). apply nth_name_inj in Heq. lia. }
  destruct (note_loop_result (existing ∪ written i) base) as (r & Hrun & Hfree & Hb & Hk).
  unfold Notes.noteCommand_add. simpl. rewrite (Hrun fuel Hfuel). f_equal.
  destruct i as [|i].
  - apply Hb. apply (Hout 0). lia.
  - destruct Hk as (k & Hk1 & -> & Hbelow); [apply (Hin 0); lia|].
    simpl. f_equal.
    destruct (lt_eq_lt_dec k (S i)) as [[Hlt|Heq]|Hgt]; [|exact Heq|].
    + exfalso. apply Hfree. specialize (Hin k Hlt).
      destruct k as [|k]; [lia|exact Hin].
    + exfalso. apply (Hout (S i)); [lia|]. apply (Hbelow (S i)). lia.
Qed.

(** The file of a note is never [.notedconfig]. *)
Lemma file_not_config (name : string) : file name <> ".notedconfig".
Proof.
  unfold file. intros H.
  do 13 (destruct name as [|? name]; [discriminate H|]).
  discriminate H.
Qed.

Lemma still_workspace (i : nat) : Notes.isMainNotedRepo (existing ∪ written i) = false.
Proof.
  unfold Notes.isMainNotedRepo, Names.existsSync_in_dir.
  apply bool_decide_eq_false_2. intros [Hx|Hx]%elem_of_union; [contradiction|].
  apply elem_of_written in Hx as (j & _ & Heq). symmetry in Heq.
  now apply file_not_config in Heq.
Qed.

Lemma notes_added_from (k i : nat) :
  notes_added writes k (existing ∪ written i) (Some base)
  = map (nth_name base) (seq i k).
Proof.
  revert i; induction k as [|k IH]; intros i; [reflexivity|].
  cbn [notes_added]. unfold Notes.noteCommand_add_action.
  rewrite still_workspace, run_gives_next by lia. rewrite Hwrites.
  rewrite <- (assoc_L (∪)), <- written_S, IH. reflexivity.
Qed.
End Series.

Lemma notes_added_refused (writes : gset string -> string -> bool) (k : nat)
    (existing : gset string) (noteName : option string) :
  ".notedconfig" ∈ existing -> notes_added writes k existing noteName = [].
Proof.
  intros Hmain. induction k as [|k IH]; [reflexivity|].
  cbn [notes_added]. unfold Notes.noteCommand_add_action, Notes.isMainNotedRepo,
    Names.existsSync_in_dir.
  rewrite bool_decide_eq_true_2 by assumption. exact IH.
Qed.

(** [note add] run [k] times with the same name, every write succeeding,
    in a directory that is not the main Noted repository (it holds no
    [.notedconfig]) and holds none of the files [name.md], [name-1.md],
    [name-2.md]...: the notes are named [name], [name-1], ..., in this
    order, each run taking the first number the runs before have left.  In
    the main Noted repository no note is created. *)
Theorem notes_numbered_in_sequence (writes : gset string -> string -> bool)
    (existing : gset string) (base : string) (k : nat) :
  (".notedconfig" ∈ existing -> notes_added writes k existing (Some base) = [])
  /\ (".notedconfig" ∉ existing ->
      (forall dir name, writes dir name = true) ->
      (forall i, nth_name base i +:+ ".md" ∉ existing) ->
      notes_added writes k existing (Some base) = map (nth_name base) (seq 0 k)).
Proof.
  split; [apply notes_added_refused|].
  intros Hworkspace Hwrites Hfresh.
  pose proof (notes_added_from base existing writes Hfresh Hworkspace Hwrites k 0) as H.
  simpl in H. now rewrite (right_id_L ∅ (∪)) in H.
Qed.

Lemma notes_numbered_in_sequence_witness :
  notes_added (fun _ _ => true) 3 {["README.md"]} (Some "todo")
  = ["todo"; "todo-1"; "todo-2"]
  /\ notes_added (fun _ _ => true) 3 {["README.md"; ".notedconfig"]} (Some "todo") = [].
Proof.
  split.
  - apply (notes_numbered_in_sequence (fun _ _ => true) {["README.md"]} "todo" 3).
    + intros Hin. apply elem_of_singleton in Hin. discriminate Hin.
    + reflexivity.
    + intros i Hin. apply elem_of_singleton in Hin.
      destruct i as [|i]; simpl in Hin; [discriminate|].
      unfold Names.candidate in Hin. discriminate.
  - apply (notes_numbered_in_sequence (fun _ _ => true)
             {["README.md"; ".notedconfig"]} "todo" 3).
    apply (bool_decide_unpack _). vm_compute. exact I.
Defined.

(** ** Reasoning on the events of a command *)

Section Ensures.
Context {World : Type}.

Lemma ensures_ret {A : Type} (P : World -> Prop) (a : A) (Q : A -> World -> Prop)
    (E : World -> Prop) :
  (forall w, P w -> Q a w) -> ensures P (ret a) Q E.
Proof. intros H s Hs. simpl. now apply H. Qed.

Lemma ensures_bind {A B : Type} (P : World -> Prop) (m : M World A)
    (k : A -> M World B) (Q1 : A -> World -> Prop) (Q : B -> World -> Prop)
    (E : World -> Prop) :
  ensures P m Q1 E -> (forall a, ensures (Q1 a) (k a) Q E) ->
  ensures P (bind m k) Q E.
Proof.
  intros Hm Hk s Hs. unfold bind. specialize (Hm s Hs).
  destruct (m s) as [[a|err] s1]; [now apply Hk|exact Hm].
Qed.

Lemma ensures_try_catch {A : Type} (P : World -> Prop) (m : M World A)
    (h : error -> M World A) (Q : A -> World -> Prop) (E1 E : World -> Prop) :
  ensures P m Q E1 -> (forall err, ensures E1 (h err) Q E) ->
  ensures P (try_catch m h) Q E.
Proof.
  intros Hm Hh s Hs. unfold try_catch. specialize (Hm s Hs).
  destruct (m s) as [[a|err] s1]; [exact Hm|now apply Hh].
Qed.

Lemma ensures_if {A : Type} (P : World -> Prop) (c : bool) (m1 m2 : M World A)
    (Q : A -> World -> Prop) (E : World -> Prop) :
  (c = true -> ensures P m1 Q E) -> (c = false -> ensures P m2 Q E) ->
  ensures P (if c then m1 else m2) Q E.
Proof. destruct c; auto. Qed.

Lemma ensures_weaken {A : Type} (P P' : World -> Prop) (m : M World A)
    (Q Q' : A -> World -> Prop) (E E' : World -> Prop) :
  ensures P' m Q' E' ->
  (forall w, P w -> P' w) -> (forall a w, Q' a w -> Q a w) -> (forall w, E' w -> E w) ->
  ensures P m Q E.
Proof.
  intros Hm HP HQ HE s Hs. specialize (Hm s (HP _ Hs)).
  destruct (m s) as [[a|err] s1]; auto.
Qed.

Lemma ensures_preserves {A : Type} (P : World -> Prop) (m : M World A) :
  preserves (of_world P) m -> ensures P m (fun _ => P) P.
Proof.
  intros Hm s Hs. specialize (Hm s Hs). unfold of_world in Hm.
  destruct (m s) as [[a|err] s1]; exact Hm.
Qed.

Lemma ensures_print (P : World -> Prop) (l : line) :
  ensures P (print l) (fun _ => P) P.
Proof. intros s Hs. exact Hs. Qed.
End Ensures.

(** The helpers keep what every call of the engine keeps. *)
Section HelpersKeep.
Context {World : Type} (engine : Git.engine World).
Variable relative : string -> string -> string.
Variable P : World -> Prop.
Hypothesis Hcall : forall req w, P w -> P (snd (engine req w)).

Lemma isSubmodule_keeps (repoPath : string) :
  preserves (of_world P) (isSubmodule engine repoPath).
Proof. apply preserves_isSubmodule; intros; now apply Hcall. Qed.

Lemma upload_isSubmodule_keeps (repoPath : string) :
  preserves (of_world P) (UploadDetector.isSubmodule engine repoPath).
Proof.
  unfold UploadDetector.isSubmodule.
  apply preserves_with_simpleGit; [intros; now apply Hcall|].
  apply preserves_bind.
  - apply preserves_try_catch; [|intros; apply preserves_ret].
    apply preserves_bind; [apply preserves_await; intros; now apply Hcall|].
    intros out. apply preserves_if; apply preserves_ret.
  - intros [v|]; apply preserves_ret.
Qed.

Lemma commitChanges_keeps (currentPath commitMessage branchName : string) :
  preserves (of_world P) (commitChanges engine relative currentPath commitMessage branchName).
Proof.
  intros s Hs. rewrite commitChanges_phases_eq. revert s Hs.
  unfold commitChanges_phases. apply preserves_try_catch.
  - apply preserves_bind.
    { unfold locate.
      apply preserves_with_simpleGit; [intros; now apply Hcall|].
      apply preserves_bind; [apply preserves_await; intros; now apply Hcall|].
      intros root.
      apply preserves_with_simpleGit; [intros; now apply Hcall|].
      apply preserves_bind; [apply preserves_await; intros; now apply Hcall|].
      intros; apply preserves_ret. }
    intros found. apply preserves_bind.
    { apply preserves_recover; intros; now apply Hcall. }
    intros _. apply preserves_bind.
    { apply preserves_stage_and_commit; intros; now apply Hcall. }
    intros _. unfold update_parent. apply preserves_bind.
    { apply isSubmodule_keeps. }
    intros parent. apply preserves_if.
    + apply preserves_commit_parent; intros; now apply Hcall.
    + apply preserves_print.
  - intros err. apply preserves_print.
Qed.

Lemma simpleGit_ensures (dir : string) :
  ensures P (simpleGit engine dir) (fun git w => git = {| baseDir := dir |} /\ P w) P.
Proof.
  intros s Hs. unfold simpleGit, bind, await, ret.
  specialize (Hcall (Git.SimpleGit dir) _ Hs).
  destruct (engine (Git.SimpleGit dir) (world s)) as [[out|msg] w']; simpl; auto.
Qed.

Lemma await_ensures (req : Git.request) :
  ensures P (await engine req) (fun _ => P) P.
Proof.
  intros s Hs. unfold await. specialize (Hcall req _ Hs).
  destruct (engine req (world s)) as [[out|msg] w']; simpl; auto.
Qed.
End HelpersKeep.

Section Known.
Import Porcelain.
Context {World : Type} (e : engine World).
Variable needs : event -> list event -> Prop.
Hypothesis needs_say : forall l pre, needs (Say l) pre.
Hypothesis needs_status : forall d r pre, needs (Status d r) pre.
Hypothesis needs_remotes : forall d v r pre, needs (GetRemotes d v r) pre.

Let known := @known World needs.

Lemma guarded_nil : guarded needs [].
Proof. intros pre ev post H. now destruct pre. Qed.

Lemma guarded_snoc (evs : list event) (ev : event) :
  guarded needs evs -> needs ev evs -> guarded needs (evs ++ [ev]).
Proof.
  intros Hg Hev pre x post Heq.
  destruct post as [|y post _] using rev_ind.
  - apply (app_inj_tail evs pre ev x) in Heq as [-> ->]. exact Hev.
  - rewrite app_comm_cons, app_assoc in Heq.
    apply app_inj_tail in Heq as [-> _]. now apply (Hg pre x post).
Qed.

Lemma known_start (w : World) : known [] (open w).
Proof. split; [apply guarded_nil|constructor]. Qed.

Lemma known_forget (F : list event) (ss : session World) : known F ss -> known [] ss.
Proof. intros [Hg _]. split; [exact Hg|constructor]. Qed.

Lemma known_drop (x : event) (F : list event) (ss : session World) :
  known (x :: F) ss -> known F ss.
Proof. intros [Hg HF]. split; [exact Hg|now inversion HF]. Qed.

Lemma known_snoc (F : list event) (ss : session World) (ev : event) (w' : World) :
  known F ss -> needs ev (events ss) ->
  known (ev :: F) {| inner := w'; events := events ss ++ [ev] |}.
Proof.
  intros [Hg HF] Hev. split; simpl.
  - now apply guarded_snoc.
  - constructor; [apply in_or_app; right; now left|].
    eapply Forall_impl; [exact HF|]. intros x Hx. apply in_or_app. now left.
Qed.

Lemma say_keeps (F : list event) (l : said) :
  ensures (known F) (say l) (fun _ => known F) (known []).
Proof.
  intros s Hs. unfold say, note. simpl.
  eapply known_drop, known_snoc; [exact Hs|apply needs_say].
Qed.

Lemma status_learns (F : list event) (git : handle) :
  ensures (known F) (status e git)
    (fun st => known (Status (baseDir git) (inl st) :: F)) (known []).
Proof.
  intros s Hs. unfold status, note, settle.
  destruct (status_of e (baseDir git) (inner (world s))) as [[st|msg] w']; simpl.
  - apply known_snoc; [exact Hs|apply needs_status].
  - eapply known_forget, known_snoc; [exact Hs|apply needs_status].
Qed.

Lemma getRemotes_learns (F : list event) (git : handle) (verbose : bool) :
  ensures (known F) (getRemotes e git verbose)
    (fun l => known (GetRemotes (baseDir git) verbose (inl l) :: F)) (known []).
Proof.
  intros s Hs. unfold getRemotes, note, settle.
  destruct (remotes_of e (baseDir git) verbose (inner (world s))) as [[l|msg] w']; simpl.
  - apply known_snoc; [exact Hs|apply needs_remotes].
  - eapply known_forget, known_snoc; [exact Hs|apply needs_remotes].
Qed.

Lemma push_keeps (F : list event) (git : handle) (r b : string) :
  (forall pre res, Forall (fun x => In x pre) F -> needs (Push (baseDir git) r b res) pre) ->
  ensures (known F) (push e git r b) (fun _ => known F) (known []).
Proof.
  intros Hneeds s Hs. unfold push, note, settle.
  destruct (push_to e (baseDir git) r b (inner (world s))) as [[u|msg] w']; simpl.
  - eapply known_drop, known_snoc; [exact Hs|apply Hneeds, Hs].
  - eapply known_forget, known_snoc; [exact Hs|apply Hneeds, Hs].
Qed.

(** A call of a helper, when the events seen give what it needs. *)
Lemma helpers_keep (F : list event) (req : Git.request) (ss : session World) :
  (forall pre resp, Forall (fun x => In x pre) F -> needs (Call req resp) pre) ->
  known F ss -> known F (snd (helpers e req ss)).
Proof.
  intros Hneeds Hs. unfold helpers.
  destruct (plumbing e req (inner ss)) as [resp w']. simpl.
  eapply known_drop, known_snoc; [exact Hs|apply Hneeds, Hs].
Qed.

Lemma await_learns (F : list event) (req : Git.request) :
  (forall pre resp, Forall (fun x => In x pre) F -> needs (Call req resp) pre) ->
  ensures (known F) (await (helpers e) req)
    (fun out => known (Call req (Git.Resolve out) :: F)) (known []).
Proof.
  intros Hneeds s Hs. unfold await, helpers.
  destruct (plumbing e req (inner (world s))) as [[out|msg] w']; simpl.
  - apply known_snoc; [exact Hs|apply Hneeds, Hs].
  - eapply known_forget, known_snoc; [exact Hs|apply Hneeds, Hs].
Qed.

Lemma await_keeps (F : list event) (req : Git.request) :
  (forall pre resp, Forall (fun x => In x pre) F -> needs (Call req resp) pre) ->
  ensures (known F) (await (helpers e) req) (fun _ => known F) (known []).
Proof.
  intros Hneeds. eapply ensures_weaken; [apply await_learns, Hneeds| | |]; auto.
  intros a w. apply known_drop.
Qed.

Lemma simpleGit_known (F : list event) (dir : string) :
  (forall pre resp, Forall (fun x => In x pre) F -> needs (Call (Git.SimpleGit dir) resp) pre) ->
  ensures (known F) (simpleGit (helpers e) dir)
    (fun git w => git = {| baseDir := dir |} /\ known F w) (known []).
Proof.
  intros Hneeds s Hs. unfold simpleGit, bind, await, ret, helpers.
  destruct (plumbing e (Git.SimpleGit dir) (inner (world s))) as [[out|msg] w']; simpl.
  - split; [reflexivity|].
    eapply known_drop, known_snoc; [exact Hs|apply Hneeds, Hs].
  - eapply known_forget, known_snoc; [exact Hs|apply Hneeds, Hs].
Qed.

Lemma ensures_assume {A : Type} (fact : Prop) (P : session World -> Prop)
    (m : M (session World) A) (Q : A -> session World -> Prop)
    (E : session World -> Prop) :
  (fact -> ensures P m Q E) -> ensures (fun w => fact /\ P w) m Q E.
Proof. intros H s [Hf Hs]. now apply H. Qed.

Lemma ensures_throws {A : Type} (F : list event) (m : M (session World) A)
    (Q : A -> session World -> Prop) :
  ensures (known F) m Q (known F) -> ensures (known F) m Q (known []).
Proof.
  intros H. eapply ensures_weaken; [exact H| | |]; auto.
  intros w. apply known_forget.
Qed.

Lemma ensures_forget {A : Type} (P : session World -> Prop) (F : list event)
    (m : M (session World) A) (E : session World -> Prop) :
  ensures P m (fun _ => known F) E -> ensures P m (fun _ => known []) E.
Proof.
  intros H. eapply ensures_weaken; [exact H| | |]; auto.
  intros a w. apply known_forget.
Qed.

Lemma for_of_keeps {A : Type} (F : list event) (l : list A)
    (body : A -> M (session World) unit) :
  (forall x, In x l -> ensures (known F) (body x) (fun _ => known F) (known [])) ->
  ensures (known F) (for_of l body) (fun _ => known F) (known []).
Proof.
  induction l as [|x l IH]; intros Hbody; simpl.
  - apply ensures_ret. auto.
  - eapply ensures_bind; [apply Hbody; now left|].
    intros ?. apply IH. intros y Hy. apply Hbody. now right.
Qed.

(** Reading the files changes nothing. *)
Lemma exists_now_keeps (F : list event) (existsSync : World -> string -> bool)
    (p : string) :
  ensures (known F) (Upload.exists_now existsSync p) (fun _ => known F) (known []).
Proof. intros s Hs. exact Hs. Qed.

Lemma root_now_keeps (F : list event) (existsSync : World -> string -> bool)
    (join : string -> string -> string) (fuel : nat) (p : string) :
  ensures (known F) (Upload.root_now existsSync join fuel p) (fun _ => known F) (known []).
Proof. intros s Hs. exact Hs. Qed.

Lemma settle_keeps {A : Type} (F : list event) (r : outcome A) :
  ensures (known F) (settle r) (fun _ => known F) (known []).
Proof.
  intros s Hs. unfold settle. destruct r; simpl; [exact Hs|].
  now apply known_forget in Hs.
Qed.

Lemma read_now_keeps (F : list event) (readFileSync : World -> string -> outcome string)
    (p : string) :
  ensures (known F) (Upload.read_now readFileSync p) (fun _ => known F) (known []).
Proof.
  intros s Hs. unfold Upload.read_now, settle.
  destruct (readFileSync (inner (world s)) p); simpl; [exact Hs|].
  now apply known_forget in Hs.
Qed.

Lemma getSubmodules_keeps (F : list event)
    (existsSync : World -> string -> bool)
    (readFileSync : World -> string -> outcome string)
    (join : string -> string -> string) (path_groups : string -> list string)
    (parentRepoPath : string) :
  ensures (known F)
    (Upload.getSubmodules existsSync readFileSync join path_groups parentRepoPath)
    (fun _ => known F) (known []).
Proof.
  unfold Upload.getSubmodules.
  eapply ensures_bind; [apply exists_now_keeps|]. intros there.
  apply ensures_if; intros _.
  - eapply ensures_bind; [apply say_keeps|]. intros ?. apply ensures_ret. auto.
  - eapply ensures_bind; [apply read_now_keeps|]. intros content.
    eapply ensures_bind.
    + apply ensures_if; intros _; apply say_keeps.
    + intros ?. apply ensures_ret. auto.
Qed.
End Known.

(** ** The upload command pushes what it has committed *)

Section UploadFacts.
Import Porcelain.
Context {World : Type} (e : engine World).
Variable existsSync : World -> string -> bool.
Variable readFileSync : World -> string -> outcome string.
Variable join : string -> string -> string.
Variable path_groups : string -> list string.

Let known := @known World upload_needs.

Ltac needs_nothing := intros; exact I.

Lemma upload_say (F : list event) (l : said) :
  ensures (known F) (say l) (fun _ => known F) (known []).
Proof. apply say_keeps. needs_nothing. Qed.

Ltac say_step := apply upload_say.
Ltac say_last := eapply ensures_forget; apply upload_say.

Lemma upload_needs_push (F : list event) (d : string) (l : list remote)
    (msg out : string) (pre : list event) (res : outcome unit) :
  hasOrigin l = true ->
  In (GetRemotes d true (inl l)) F ->
  In (Call (Git.Commit d msg) (Git.Resolve out)) F ->
  Forall (fun x => In x pre) F ->
  upload_needs (Push d "origin" "main" res) pre.
Proof.
  intros Ho Hr Hc HF. rewrite Forall_forall in HF.
  simpl. split; [reflexivity|]. split; [reflexivity|]. split.
  - exists l. split; [apply HF, list_elem_of_In, Hr|exact Ho].
  - exists msg, out. apply HF, list_elem_of_In, Hc.
Qed.

Lemma handleSubmoduleChanges_guarded (p : string) :
  ensures (known []) (Upload.handleSubmoduleChanges e p) (fun _ => known []) (known []).
Proof.
  unfold Upload.handleSubmoduleChanges.
  eapply ensures_bind; [apply simpleGit_known; needs_nothing|].
  intros git. apply ensures_assume. intros ->.
  eapply ensures_try_catch; [|intros err; say_step].
  eapply ensures_bind; [apply getRemotes_learns; needs_nothing|].
  intros l. apply ensures_if; intros Ho.
  - eapply ensures_bind; [say_step|]. intros ?.
    eapply ensures_bind; [apply await_keeps; needs_nothing|]. intros ?.
    eapply ensures_bind; [apply status_learns; needs_nothing|]. intros st.
    eapply ensures_bind; [apply await_learns; needs_nothing|]. intros out.
    eapply ensures_bind; [say_step|]. intros ?.
    eapply ensures_bind.
    + apply push_keeps; [needs_nothing..|]. intros pre res.
      eapply (upload_needs_push _ _ l); [exact Ho|simpl; auto 6..].
    + intros ?. say_last.
  - say_last.
Qed.
Lemma updateParentRepository_guarded (parent : string) (paths : list string) :
  ensures (known []) (Upload.updateParentRepository e parent paths)
    (fun _ => known []) (known []).
Proof.
  unfold Upload.updateParentRepository.
  eapply ensures_bind; [apply simpleGit_known; needs_nothing|].
  intros git. apply ensures_assume. intros ->.
  eapply ensures_try_catch; [|intros err; say_step].
  eapply ensures_bind.
  { apply for_of_keeps. intros x _.
    eapply ensures_bind; [apply await_keeps; needs_nothing|]. intros ?. say_step. }
  intros ?.
  eapply ensures_bind; [apply await_learns; needs_nothing|]. intros out.
  eapply ensures_bind; [say_step|]. intros ?.
  eapply ensures_bind; [apply getRemotes_learns; needs_nothing|]. intros l.
  apply ensures_if; intros Ho.
  - eapply ensures_bind.
    + apply push_keeps; [needs_nothing..|]. intros pre res.
      eapply (upload_needs_push _ _ l); [exact Ho|simpl; auto 6..].
    + intros ?. say_last.
  - say_last.
Qed.

Lemma uploadCommand_guarded (fuel : nat) (cwd : outcome string) (all : bool) :
  ensures (known [])
    (Upload.uploadCommand e existsSync readFileSync join path_groups fuel cwd all)
    (fun _ => known []) (known []).
Proof.
  unfold Upload.uploadCommand.
  eapply ensures_bind; [apply settle_keeps|]. intros currentRepoPath.
  eapply ensures_bind; [apply root_now_keeps|]. intros [root|].
  2: { apply ensures_ret. auto. }
  apply ensures_if; intros _.
  { eapply ensures_bind; [say_step|]. intros ?. apply ensures_ret. auto. }
  eapply ensures_bind; [|intros ?; apply ensures_ret; intros w Hw; exact Hw].
  eapply ensures_try_catch; [|intros err; say_step].
  apply ensures_if; intros _.
  - eapply ensures_bind; [apply exists_now_keeps|]. intros marked.
    apply ensures_if; intros _; [say_step|].
    eapply ensures_bind; [say_step|]. intros ?.
    eapply ensures_bind; [apply getSubmodules_keeps; needs_nothing|]. intros subs.
    apply ensures_if; intros _; [say_step|].
    eapply ensures_bind.
    + apply for_of_keeps. intros x _.
      eapply ensures_bind; [say_step|]. intros ?.
      apply handleSubmoduleChanges_guarded.
    + intros ?. apply updateParentRepository_guarded.
  - eapply ensures_bind.
    { apply ensures_preserves, upload_isSubmodule_keeps.
      intros req w. apply helpers_keep; needs_nothing. }
    intros parent. apply ensures_if; intros _; [say_step|].
    eapply ensures_bind; [say_step|]. intros ?.
    eapply ensures_bind; [apply handleSubmoduleChanges_guarded|]. intros ?.
    apply updateParentRepository_guarded.
Qed.
End UploadFacts.

(** The upload command, with or without [--all], whatever the engine
    answers: every push is of [main] to [origin], from a repository where
    the command has seen a remote named [origin] and where a commit of its
    own has resolved before. *)
Theorem upload_pushes_after_commit {World : Type} (e : Porcelain.engine World)
    (existsSync : World -> string -> bool)
    (readFileSync : World -> string -> Porcelain.outcome string)
    (join : string -> string -> string) (path_groups : string -> list string)
    (fuel : nat) (cwd : Porcelain.outcome string) (all : bool) (w : World) :
  guarded upload_needs
    (Porcelain.events
       (world (snd (Upload.uploadCommand e existsSync readFileSync join path_groups
                      fuel cwd all (start (Porcelain.open w)))))).
Proof.
  pose proof (uploadCommand_guarded e existsSync readFileSync join path_groups
                fuel cwd all (start (Porcelain.open w))) as H.
  simpl in H. specialize (H (known_start upload_needs w)).
  destruct (Upload.uploadCommand _ _ _ _ _ _ _ _ _) as [[a|err] s']; apply H.
Qed.

(** ** The update command commits and pushes for a cause *)

Section UpdateFacts.
Import Porcelain.
Context {World : Type} (e : engine World).
Variable existsSync : World -> string -> bool.
Variable readFileSync : World -> string -> outcome string.
Variable join : string -> string -> string.
Variable relative : string -> string -> string.
Variable path_groups : string -> list string.

Let known := @known World update_needs.

Ltac needs_nothing := intros; first [exact I | discriminate].

Lemma update_say (F : list event) (l : said) :
  ensures (known F) (say l) (fun _ => known F) (known []).
Proof. apply say_keeps. needs_nothing. Qed.

Ltac say_step := apply update_say.
Ltac say_last := eapply ensures_forget; apply update_say.

(** The helpers called without a cause: those that change nothing. *)
Lemma update_reads (F : list event) (req : Git.request) (ss : session World) :
  changes_repo req = false -> known F ss -> known F (snd (helpers e req ss)).
Proof.
  intros Hreq. apply helpers_keep. intros pre resp _ Hc. simpl in Hc. congruence.
Qed.

Lemma update_simpleGit (F : list event) (dir : string) :
  ensures (known F) (simpleGit (helpers e) dir)
    (fun git w => git = {| baseDir := dir |} /\ known F w) (known []).
Proof. apply simpleGit_known. intros pre resp _ Hc. discriminate Hc. Qed.

Lemma update_commit_step (F : list event) (d p msg : string) (st : StatusResult)
    (l : said) :
  In (Status d (inl st)) F ->
  ensures (known F)
    (if negb (isClean st) then Update.commitChanges e relative p msg else say l)
    (fun _ => known F) (known []).
Proof.
  intros Hst. apply ensures_if; intros Hc; [|say_step].
  apply ensures_throws, ensures_preserves, commitChanges_keeps.
  intros req w. apply helpers_keep. intros pre resp HF _.
  rewrite Forall_forall in HF.
  exists d, st. split; [apply HF, list_elem_of_In, Hst|].
  now destruct (isClean st).
Qed.

Lemma update_push_step (F : list event) (d : string) (st : StatusResult)
    (l : list remote) (a b c : said) :
  In (Status d (inl st)) F -> In (GetRemotes d true (inl l)) F ->
  ensures (known F)
    (if hasOrigin l then
       if (0 <? ahead st)%nat || negb (isClean st) then
         push e {| baseDir := d |} "origin" "main" ;; say a
       else say b
     else say c)
    (fun _ => known F) (known []).
Proof.
  intros Hst Hl. apply ensures_if; intros Ho; [|say_step].
  apply ensures_if; intros Hc; [|say_step].
  eapply ensures_bind; [|intros ?; say_step].
  apply push_keeps; [needs_nothing..|]. intros pre res HF.
  rewrite Forall_forall in HF.
  split; [reflexivity|]. split; [reflexivity|].
  exists l, st. split; [apply HF, list_elem_of_In, Hl|]. split; [exact Ho|].
  split; [apply HF, list_elem_of_In, Hst|].
  apply orb_true_iff in Hc as [Hc|Hc].
  - left. now apply Nat.ltb_lt.
  - right. now destruct (isClean st).
Qed.

Lemma updateCommand_guarded (cwd : outcome string) (all : bool) :
  ensures (known [])
    (Update.updateCommand e existsSync readFileSync join relative path_groups cwd all)
    (fun _ => known []) (known []).
Proof.
  unfold Update.updateCommand.
  eapply ensures_bind; [apply settle_keeps|]. intros currentRepoPath.
  apply (ensures_bind _ _ _ (fun _ => known [])).
  { unfold Update.findWorkspaceRoot, revparse.
    eapply ensures_bind; [apply update_simpleGit|].
    intros git. apply ensures_assume. intros ->.
    apply (ensures_try_catch _ _ _ _ (known [])).
    - eapply ensures_bind; [apply await_keeps; intros pre resp _ Hc; discriminate Hc|].
      intros root. apply ensures_ret. auto.
    - intros err. apply ensures_ret. auto. }
  intros root. apply ensures_if; intros _; [say_step|].
  eapply ensures_try_catch; [|intros err; say_step].
  apply ensures_if; intros _.
  - eapply ensures_bind; [apply exists_now_keeps|]. intros marked.
    apply ensures_if; intros _; [say_step|].
    eapply ensures_bind; [say_step|]. intros ?.
    eapply ensures_bind; [apply getSubmodules_keeps; needs_nothing|]. intros subs.
    apply ensures_if; intros _; [say_step|].
    eapply ensures_bind.
    { apply for_of_keeps. intros p _.
      eapply ensures_bind; [say_step|]. intros ?.
      eapply ensures_bind; [apply update_simpleGit|].
      intros git. apply ensures_assume. intros ->.
      eapply ensures_bind; [apply status_learns; needs_nothing|]. intros st.
      eapply ensures_bind; [apply getRemotes_learns; needs_nothing|]. intros l.
      eapply ensures_bind.
      { apply (update_commit_step _ p); simpl; auto. }
      intros ?. eapply ensures_forget.
      apply (update_push_step _ p st l); simpl; auto. }
    intros ?.
    eapply ensures_bind; [apply update_simpleGit|].
    intros git. apply ensures_assume. intros ->.
    eapply ensures_bind; [apply status_learns; needs_nothing|]. intros st.
    eapply ensures_bind.
    { apply (update_commit_step _ (path_text root)); simpl; auto. }
    intros ?.
    eapply ensures_bind; [apply getRemotes_learns; needs_nothing|]. intros l.
    eapply ensures_forget.
    apply (update_push_step _ (path_text root) st l); simpl; auto.
  - eapply ensures_bind.
    { apply ensures_throws, ensures_preserves, preserves_isSubmodule;
        intros w; now apply update_reads. }
    intros parent. apply ensures_if; intros _; [say_step|].
    eapply ensures_bind; [say_step|]. intros ?.
    eapply ensures_bind; [apply update_simpleGit|].
    intros git. apply ensures_assume. intros ->.
    eapply ensures_bind; [apply status_learns; needs_nothing|]. intros st.
    eapply ensures_bind; [apply getRemotes_learns; needs_nothing|]. intros l.
    eapply ensures_bind.
    { apply (update_commit_step _ (path_text root)); simpl; auto. }
    intros ?.
    eapply ensures_bind.
    { eapply ensures_forget. apply (update_push_step _ (path_text root) st l); simpl; auto. }
    intros ?.
    eapply ensures_bind; [apply update_simpleGit|].
    intros git. apply ensures_assume. intros ->.
    eapply ensures_bind; [apply status_learns; needs_nothing|]. intros pst.
    eapply ensures_bind.
    { apply (update_commit_step _ (path_text parent)); simpl; auto. }
    intros ?.
    eapply ensures_bind; [apply getRemotes_learns; needs_nothing|]. intros pl.
    eapply ensures_forget.
    apply (update_push_step _ (path_text parent) pst pl); simpl; auto.
Qed.
End UpdateFacts.

(** The update command, with or without [--all], whatever the engine
    answers: a helper changes a repository (checkout, add, commit) only
    after a status that showed changes, and every push is of [main] to
    [origin], from a repository where the command has seen before a remote
    named [origin] and a status with commits ahead or with changes. *)
Theorem update_acts_for_a_cause {World : Type} (e : Porcelain.engine World)
    (existsSync : World -> string -> bool)
    (readFileSync : World -> string -> Porcelain.outcome string)
    (join relative : string -> string -> string) (path_groups : string -> list string)
    (cwd : Porcelain.outcome string) (all : bool) (w : World) :
  guarded update_needs
    (Porcelain.events
       (world (snd (Update.updateCommand e existsSync readFileSync join relative
                      path_groups cwd all (start (Porcelain.open w)))))).
Proof.
  pose proof (updateCommand_guarded e existsSync readFileSync join relative path_groups
                cwd all (start (Porcelain.open w))) as H.
  simpl in H. specialize (H (known_start update_needs w)).
  destruct (Update.updateCommand _ _ _ _ _ _ _ _ _) as [[a|err] s']; apply H.
Qed.


(** A run of the update command in a workspace with changes and a remote
    named [origin]: both repositories are committed and pushed. *)
Example update_run_ex :
  let r := Update.updateCommand (sample_porcelain [{| Porcelain.name := "origin" |}])
             (fun _ => bare_fs) (fun _ _ => inr "ENOENT") slash_join RefGit.relative
             (fun _ => []) (inl "/noted/ws") false (start (Porcelain.open tt)) in
  In (Porcelain.Push "/noted/ws" "origin" "main" (inl tt))
    (Porcelain.events (world (snd r)))
  /\ In (Porcelain.Push "/noted" "origin" "main" (inl tt))
       (Porcelain.events (world (snd r))).
Proof. vm_compute. split; auto 50. Qed.

Section UploadHelpers.
Import Porcelain.
Context {World : Type} (e : engine World).

Ltac needs_nothing := intros; first [exact I | discriminate].

Lemma handleSubmoduleChanges_waits (p : string) :
  ensures (known (submodule_needs p) [])
    (Upload.handleSubmoduleChanges e p)
    (fun _ => known (submodule_needs p) []) (known (submodule_needs p) []).
Proof.
  unfold Upload.handleSubmoduleChanges, add, commit.
  eapply ensures_bind; [apply simpleGit_known; needs_nothing|].
  intros git. apply ensures_assume. intros ->.
  apply (ensures_try_catch _ _ _ _ (known (submodule_needs p) [])).
  2: { intros err. apply say_keeps. needs_nothing. }
  eapply ensures_bind; [apply getRemotes_learns; needs_nothing|].
  intros l. apply ensures_if; intros Ho.
  - assert (Hseen : forall pre, Forall (fun x => In x pre) [GetRemotes p true (inl l)] ->
                      origin_seen p pre).
    { intros pre HF. exists l. split; [|exact Ho]. now inversion HF. }
    eapply ensures_bind; [apply say_keeps; needs_nothing|]. intros ?.
    eapply ensures_bind; [apply await_keeps; intros pre resp HF _; now apply Hseen|].
    intros ?.
    eapply ensures_bind; [apply status_learns; needs_nothing|]. intros st.
    eapply ensures_bind.
    { apply await_keeps. intros pre resp HF _. apply Hseen. now inversion HF. }
    intros ?.
    eapply ensures_bind; [apply say_keeps; needs_nothing|]. intros ?.
    eapply ensures_bind.
    { apply push_keeps; [needs_nothing..|]. intros pre res HF.
      apply Hseen. now inversion HF. }
    intros ?. eapply ensures_forget. apply say_keeps. needs_nothing.
  - eapply ensures_forget. apply say_keeps. needs_nothing.
Qed.

Section Parent.
Variables (parent : string) (paths : list string).

Let needs := parent_needs parent paths.

(** The events seen hold the staging of the paths of [done]. *)
Let staged (done : list string) (ss : session World) : Prop :=
  exists F, all_staged parent done F /\ known needs F ss.

Lemma staging_loop (done todo : list string) :
  ensures (staged done)
    (for_of todo (fun submodulePath =>
       let submoduleName := NodePath.basename submodulePath in
       add (helpers e) {| baseDir := parent |} submoduleName ;;
       say (Out Green ("✔ Staged submodule " +:+ Js.quoted submoduleName
                       +:+ " in parent repository."))))
    (fun _ => staged (done ++ todo)) (known needs []).
Proof.
  revert done; induction todo as [|p todo IH]; intros done; simpl.
  - apply ensures_ret. intros w. now rewrite app_nil_r.
  - apply (ensures_bind _ _ _ (fun _ => staged (done ++ [p]))).
    + intros s (F & Hst & HF). unfold bind, add.
      pose proof (await_learns e needs F (Git.Add parent (NodePath.basename p))
                    ltac:(intros; exact I) s HF) as Hadd.
      destruct (await (helpers e) _ s) as [[out|err] s1]; [|exact Hadd].
      pose proof (say_keeps needs ltac:(intros; exact I) _
                    (Out Green ("✔ Staged submodule " +:+ Js.quoted (NodePath.basename p)
                                +:+ " in parent repository.")) s1 Hadd) as Hsay.
      destruct (say _ s1) as [[u|err] s2]; [|exact Hsay].
      eexists. split; [|exact Hsay].
      intros q [Hq| ->%list_elem_of_In%list_elem_of_singleton%eq_sym]%in_app_or.
      * destruct (Hst q Hq) as (o & Ho). exists o. now right.
      * exists out. now left.
    + intros ?. rewrite (app_assoc done [p] todo : done ++ p :: todo = (done ++ [p]) ++ todo).
      apply IH.
Qed.
Lemma all_staged_seen (F pre : list event) :
  all_staged parent paths F -> Forall (fun x => In x pre) F ->
  all_staged parent paths pre.
Proof.
  intros Hst HF p Hp. destruct (Hst p Hp) as (out & Hout). exists out.
  rewrite Forall_forall in HF. now apply HF, list_elem_of_In.
Qed.

Lemma updateParentRepository_staged :
  ensures (known needs []) (Upload.updateParentRepository e parent paths)
    (fun _ => known needs []) (known needs []).
Proof.
  unfold Upload.updateParentRepository, commit.
  eapply ensures_bind; [apply simpleGit_known; needs_nothing|].
  intros git. apply ensures_assume. intros ->.
  apply (ensures_try_catch _ _ _ _ (known needs [])).
  2: { intros err. apply say_keeps. needs_nothing. }
  apply (ensures_bind _ _ _ (fun _ => staged paths)).
  { eapply ensures_weaken; [apply (staging_loop [] paths)| | |]; auto.
    intros w Hw. exists []. split; [intros p []|exact Hw]. }
  intros ? s (F & Hst & HF). revert s HF.
  change (ensures (known needs F)
            (await (helpers e) (Git.Commit parent
               ("Updated submodules: "
                +:+ String.concat ", " (map NodePath.basename paths)
                +:+ " to latest commit in parent repository.")) ;;
             say (Out Green ("✔ Committed submodule changes in parent repository: "
                             +:+ ("Updated submodules: "
                                  +:+ String.concat ", " (map NodePath.basename paths)
                                  +:+ " to latest commit in parent repository."))) ;;
             remotes <- getRemotes e {| baseDir := parent |} true ;;
             if hasOrigin remotes then
               push e {| baseDir := parent |} "origin" "main" ;;
               say (Out Green "✔ Pushed changes in parent repository to origin.")
             else
               say (Out Yellow "⚠ Parent repository has no origin. Skipping push."))
            (fun _ => known needs []) (known needs [])).
  eapply ensures_bind.
  { apply await_keeps. intros pre resp Hpre. now apply (all_staged_seen F). }
  intros ?.
  eapply ensures_bind; [apply say_keeps; needs_nothing|]. intros ?.
  eapply ensures_bind; [apply getRemotes_learns; needs_nothing|]. intros l.
  apply ensures_if; intros Ho.
  - eapply ensures_bind.
    + apply push_keeps; [needs_nothing..|]. intros pre res Hpre.
      apply (all_staged_seen F); [exact Hst|now inversion Hpre].
    + intros ?. eapply ensures_forget. apply say_keeps. needs_nothing.
  - eapply ensures_forget. apply say_keeps. needs_nothing.
Qed.
End Parent.
End UploadHelpers.

(** The upload command's [handleSubmoduleChanges], whatever the engine
    answers: it stages, commits and pushes only after the repository has
    shown a remote named [origin]; a workspace without one is left as it
    is. *)
Theorem submodule_untouched_without_origin {World : Type}
    (e : Porcelain.engine World) (p : string) (w : World) :
  guarded (submodule_needs p)
    (Porcelain.events
       (world (snd (Upload.handleSubmoduleChanges e p (start (Porcelain.open w)))))).
Proof.
  pose proof (handleSubmoduleChanges_waits e p (start (Porcelain.open w))) as H.
  simpl in H. specialize (H (known_start _ w)).
  destruct (Upload.handleSubmoduleChanges _ _ _) as [[a|err] s']; apply H.
Qed.

(** The upload command's [updateParentRepository], whatever the engine
    answers: the commit in the parent repository, and the push after it,
    come only when every submodule of the list has been staged there, under
    its base name, by a call that resolved. *)
Theorem parent_committed_after_staging {World : Type}
    (e : Porcelain.engine World) (parent : string) (paths : list string) (w : World) :
  guarded (parent_needs parent paths)
    (Porcelain.events
       (world (snd (Upload.updateParentRepository e parent paths
                      (start (Porcelain.open w)))))).
Proof.
  pose proof (updateParentRepository_staged e parent paths (start (Porcelain.open w))) as H.
  simpl in H. specialize (H (known_start _ w)).
  destruct (Upload.updateParentRepository _ _ _ _) as [[a|err] s']; apply H.
Qed.


(** A run of the upload command in a workspace without remote: nothing is
    staged in the workspace, and the parent repository is committed all the
    same. *)
Example upload_run_ex :
  let r := Upload.uploadCommand (sample_porcelain []) (fun _ p => p =? "/noted/ws/.git")
             (fun _ _ => inr "ENOENT") slash_join (fun _ => []) 20 (inl "/noted/ws") false
             (start (Porcelain.open tt)) in
  (forall spec resp,
     ~ In (Porcelain.Call (Git.Add "/noted/ws" spec) resp)
         (Porcelain.events (world (snd r))))
  /\ In (Porcelain.Call
           (Git.Commit "/noted"
              "Updated submodules: ws to latest commit in parent repository.")
           (Git.Resolve EmptyString))
       (Porcelain.events (world (snd r))).
Proof.
  vm_compute. split; [|auto 50].
  intros spec resp H. repeat (destruct H as [H|H]; [discriminate H|]). exact H.
Qed.

(** ** Failures of the commands are printed, not thrown *)

Section CommandsResolve.
Import Porcelain.
Context {World : Type} (e : engine World).
Variable existsSync : World -> string -> bool.
Variable readFileSync : World -> string -> outcome string.
Variable join : string -> string -> string.
Variable relative : string -> string -> string.
Variable path_groups : string -> list string.




End CommandsResolve.



(** The current directory is gone: [process.cwd()] throws, and both
    actions reject with its message, having printed nothing. *)
Example commands_reject_without_cwd :
  let gone := "ENOENT: no such file or directory, uv_cwd" in
  let up := Upload.uploadCommand (sample_porcelain []) (fun _ => bare_fs)
              (fun _ _ => inr "ENOENT") slash_join (fun _ => []) 20 (inr gone) false
              (start (Porcelain.open tt)) in
  let ud := Update.updateCommand (sample_porcelain []) (fun _ => bare_fs)
              (fun _ _ => inr "ENOENT") slash_join RefGit.relative (fun _ => [])
              (inr gone) false (start (Porcelain.open tt)) in
  fst up = inr {| message := gone |} /\ Porcelain.events (world (snd up)) = []
  /\ fst ud = inr {| message := gone |} /\ Porcelain.events (world (snd ud)) = [].
Proof. repeat split. Qed.

(** ** Listing the workspaces *)

Section StringFacts.

Lemma append_cons (c : ascii) (s t : string) : String c s +:+ t = String c (s +:+ t).
Proof. reflexivity. Qed.

Lemma append_nil_r (s : string) : s +:+ EmptyString = s.
Proof.
  induction s as [|c s IH]; [reflexivity|]. now rewrite append_cons, IH.
Qed.

Lemma append_assoc (s t u : string) : (s +:+ t) +:+ u = s +:+ t +:+ u.
Proof.
  induction s as [|c s IH]; [reflexivity|]. now rewrite !append_cons, IH.
Qed.

Lemma rev_app_spec (s t : string) : String.rev_app s t = String.rev s +:+ t.
Proof.
  unfold String.rev. revert t; induction s as [|c s IH]; intros t; [reflexivity|].
  cbn [String.rev_app].
  rewrite IH, (IH (String c EmptyString)), append_assoc. reflexivity.
Qed.

Lemma rev_cons (c : ascii) (s : string) :
  String.rev (String c s) = String.rev s +:+ String c EmptyString.
Proof. unfold String.rev at 1. simpl. apply rev_app_spec. Qed.

Lemma rev_append (s t : string) : String.rev (s +:+ t) = String.rev t +:+ String.rev s.
Proof.
  induction s as [|c s IH].
  - change (String.rev EmptyString) with EmptyString. now rewrite append_nil_r.
  - now rewrite append_cons, !rev_cons, IH, append_assoc.
Qed.

Lemma rev_involutive (s : string) : String.rev (String.rev s) = s.
Proof.
  induction s as [|c s IH]; [reflexivity|].
  now rewrite rev_cons, rev_append, IH.
Qed.

Lemma rev_length (s : string) : String.length (String.rev s) = String.length s.
Proof.
  induction s as [|c s IH]; [reflexivity|].
  rewrite rev_cons, length_append, IH. simpl. lia.
Qed.

Lemma prefix_nil (s : string) : String.prefix EmptyString s = true.
Proof. now destruct s. Qed.
End StringFacts.

Section TrimFacts.
Import WorkspaceList.

Lemma white_space_blank :
  forallb starts_blank Js.white_space = true
  /\ forallb starts_blank (map String.rev Js.white_space) = true.
Proof. split; vm_compute; reflexivity. Qed.

Lemma leading_none (pats : list string) (c : ascii) (s : string) :
  forallb starts_blank pats = true -> solid_char c = true ->
  Js.leading pats (String c s) = None.
Proof.
  intros Hp Hc. induction pats as [|p pats IH]; [reflexivity|].
  simpl in Hp. apply andb_true_iff in Hp as [Hb Hp]. simpl.
  destruct p as [|a p]; [discriminate|]. simpl in Hb.
  cbn [String.prefix]. destruct (ascii_dec a c) as [->|_].
  - rewrite Hc in Hb. discriminate.
  - now apply IH.
Qed.

Lemma trim_start_solid (pats : list string) (n : nat) (c : ascii) (s : string) :
  forallb starts_blank pats = true -> solid_char c = true ->
  Js.trim_start_with pats n (String c s) = String c s.
Proof.
  intros Hp Hc. destruct n; [reflexivity|].
  cbn [Js.trim_start_with]. now rewrite leading_none.
Qed.

Lemma trimStart_solid (c : ascii) (s : string) :
  solid_char c = true -> Js.trimStart (String c s) = String c s.
Proof. intros Hc. apply trim_start_solid; [apply white_space_blank|exact Hc]. Qed.

Lemma trimEnd_solid (s : string) (c : ascii) :
  solid_char c = true ->
  Js.trimEnd (s +:+ String c EmptyString) = s +:+ String c EmptyString.
Proof.
  intros Hc. unfold Js.trimEnd.
  rewrite rev_append. change (String.rev (String c EmptyString)) with (String c EmptyString).
  rewrite append_cons. change (EmptyString +:+ String.rev s) with (String.rev s).
  rewrite trim_start_solid; [|apply white_space_blank|exact Hc].
  rewrite rev_cons, rev_involutive. reflexivity.
Qed.

Lemma trimStart_space (s : string) : Js.trimStart (String " " s) = Js.trimStart s.
Proof.
  unfold Js.trimStart. cbn [String.length Js.trim_start_with].
  assert (Js.leading Js.white_space (String " " s) = Some " ") as ->.
  { destruct s; reflexivity. }
  reflexivity.
Qed.

Lemma trimEnd_LF (s : string) :
  Js.trimEnd (s +:+ String LF EmptyString) = Js.trimEnd s.
Proof.
  unfold Js.trimEnd.
  rewrite rev_append. change (String.rev (String LF EmptyString)) with (String LF EmptyString).
  rewrite append_cons. change (EmptyString +:+ String.rev s) with (String.rev s).
  rewrite length_append. cbn [String.length]. rewrite Nat.add_1_r.
  cbn [Js.trim_start_with].
  assert (Js.leading (map String.rev Js.white_space) (String LF (String.rev s))
          = Some (String LF EmptyString)) as ->.
  { destruct (String.rev s); reflexivity. }
  reflexivity.
Qed.
End TrimFacts.

Section SplitFacts.
Import WorkspaceList.

Lemma split_free (sep : ascii) (s : string) :
  free_of sep s = true -> split sep s = [s].
Proof.
  induction s as [|c s IH]; [reflexivity|]. simpl.
  intros [Hc Hs]%andb_true_iff. apply negb_true_iff in Hc.
  now rewrite Hc, IH.
Qed.

Lemma split_app (sep : ascii) (s rest : string) :
  free_of sep s = true ->
  split sep (s +:+ String sep rest) = s :: split sep rest.
Proof.
  induction s as [|c s IH].
  - intros _. change (EmptyString +:+ String sep rest) with (String sep rest).
    simpl. now rewrite Ascii.eqb_refl.
  - simpl. intros [Hc Hs]%andb_true_iff. apply negb_true_iff in Hc.
    rewrite ?append_cons. simpl. now rewrite Hc, IH.
Qed.

Lemma free_of_app (sep : ascii) (s t : string) :
  free_of sep (s +:+ t) = free_of sep s && free_of sep t.
Proof.
  induction s as [|c s IH]; [reflexivity|].
  rewrite append_cons. simpl. now rewrite IH, andb_assoc.
Qed.

Lemma solid_free (sep : ascii) (s : string) :
  solid_char sep = false -> all_solid s = true -> free_of sep s = true.
Proof.
  intros Hsep. induction s as [|c s IH]; [reflexivity|]. simpl.
  intros [Hc Hs]%andb_true_iff. rewrite IH by assumption.
  destruct (Ascii.eqb_spec c sep) as [->|_]; [congruence|reflexivity].
Qed.

Lemma all_solid_app (s t : string) :
  all_solid (s +:+ t) = all_solid s && all_solid t.
Proof.
  induction s as [|c s IH]; [reflexivity|].
  rewrite append_cons. simpl. now rewrite IH, andb_assoc.
Qed.

Lemma all_solid_last (w : string) :
  all_solid w = true -> w <> EmptyString ->
  exists u c, w = u +:+ String c EmptyString /\ solid_char c = true.
Proof.
  induction w as [|a w IH]; [congruence|]. simpl.
  intros [Ha Hw]%andb_true_iff _. destruct w as [|b w].
  - exists EmptyString, a. now split.
  - destruct (IH Hw) as (u & c & -> & Hc); [discriminate|].
    exists (String a u), c. now split.
Qed.

Lemma word_inv (w : string) :
  word w = true ->
  all_solid w = true /\ exists c t, w = String c t /\ solid_char c = true.
Proof.
  unfold word. intros [Hne Hs]%andb_true_iff. split; [exact Hs|].
  destruct w as [|c t]; [discriminate|]. simpl in Hs.
  apply andb_true_iff in Hs as [Hc _]. now exists c, t.
Qed.

Lemma split_nonempty (sep : ascii) (s : string) : split sep s <> [].
Proof.
  destruct s as [|c s]; cbn [split]; [discriminate|].
  destruct (Ascii.eqb c sep); [discriminate|].
  destruct (split sep s); discriminate.
Qed.

Lemma split_app_any (sep : ascii) (s rest : string) :
  split sep (s +:+ String sep rest) = split sep s ++ split sep rest.
Proof.
  induction s as [|c s IH].
  - change (EmptyString +:+ String sep rest) with (String sep rest).
    cbn [split]. now rewrite Ascii.eqb_refl.
  - rewrite append_cons. cbn [split]. rewrite IH.
    destruct (Ascii.eqb c sep); [reflexivity|].
    pose proof (split_nonempty sep s) as Hne.
    destruct (split sep s) as [|piece pieces]; [congruence|reflexivity].
Qed.

Lemma ends_solid_inv (p : string) :
  ends_solid p = true ->
  exists u c, p = u +:+ String c EmptyString /\ solid_char c = true.
Proof.
  induction p as [|a p IH]; [discriminate|]. cbn [ends_solid].
  destruct p as [|b p].
  - intros Ha. now exists EmptyString, a.
  - intros H. destruct (IH H) as (u & c & -> & Hc).
    exists (String a u), c. now split.
Qed.

Lemma solid_wrap (d : string) :
  all_solid d = true -> all_solid ("(" +:+ d +:+ ")") = true.
Proof.
  intros Hd. change ("(" +:+ d +:+ ")") with (String "(" (d +:+ ")")).
  cbn [all_solid]. now rewrite all_solid_app, Hd.
Qed.

Lemma word_wrap (d : string) :
  all_solid d = true -> word ("(" +:+ d +:+ ")") = true.
Proof.
  intros Hd. unfold word. rewrite solid_wrap by assumption.
  reflexivity.
Qed.
End SplitFacts.

Section LineFacts.
Import WorkspaceList.
Variable x : entry.
Hypothesis Hx : well_formed x = true.

Lemma well_formed_inv :
  (flag x = " " \/ solid_char (flag x) = true)%char
  /\ word (sha x) = true
  /\ free_of LF (path x) = true /\ ends_solid (path x) = true
  /\ forall d, describe x = Some d -> word d = true.
Proof.
  unfold well_formed in Hx.
  apply andb_true_iff in Hx
    as [[[Hf Hs]%andb_true_iff [Hp1 Hp2]%andb_true_iff]%andb_true_iff Hd].
  split; [|split; [exact Hs|split; [exact Hp1|split; [exact Hp2|]]]].
  - simpl in Hf. rewrite orb_false_r in Hf.
    destruct (Ascii.eqb_spec (flag x) " ") as [->|_]; [now left|right].
    destruct (Ascii.eqb_spec (flag x) "+") as [->|_]; [reflexivity|].
    destruct (Ascii.eqb_spec (flag x) "-") as [->|_]; [reflexivity|].
    destruct (Ascii.eqb_spec (flag x) "U") as [->|_]; [reflexivity|discriminate].
  - intros d Hsome. now rewrite Hsome in Hd.
Qed.

(** The part of the line after the path: empty or made of a space and a
    word. *)
Lemma tail_cases :
  exists t, after_flag x = sha x +:+ " " +:+ path x +:+ t
    /\ (t = EmptyString \/ exists v, t = String " " v /\ word v = true).
Proof.
  destruct well_formed_inv as (_ & _ & _ & _ & Hd).
  unfold after_flag. destruct (describe x) as [d|].
  - eexists. split; [reflexivity|]. right. exists ("(" +:+ d +:+ ")"). split; [reflexivity|].
    destruct (word_inv d (Hd d eq_refl)) as [Hs _].
    now apply word_wrap.
  - eexists. split; [reflexivity|]. now left.
Qed.

Lemma after_flag_ends :
  exists u c, after_flag x = u +:+ String c EmptyString /\ solid_char c = true.
Proof.
  destruct well_formed_inv as (_ & _ & _ & Hp & _).
  destruct tail_cases as (t & -> & [->|(v & -> & Hv)]).
  - destruct (ends_solid_inv (path x) Hp) as (u & c & Hu & Hc).
    exists (sha x +:+ " " +:+ u), c. split; [|exact Hc].
    rewrite append_nil_r, Hu, !append_assoc. reflexivity.
  - destruct (word_inv _ Hv) as [Hs (c0 & t0 & Hv0 & _)].
    destruct (all_solid_last v Hs) as (u & c & Hu & Hc); [congruence|].
    exists (sha x +:+ " " +:+ path x +:+ " " +:+ u), c. split; [|exact Hc].
    rewrite Hu, !append_assoc. reflexivity.
Qed.

Lemma after_flag_starts :
  exists c t, after_flag x = String c t /\ solid_char c = true.
Proof.
  destruct well_formed_inv as (_ & Hs & _).
  destruct (word_inv _ Hs) as [_ (c & t & Hc & Hsolid)].
  unfold after_flag. rewrite Hc, append_cons. now eexists _, _.
Qed.

Lemma trim_after_flag : Js.trim (after_flag x) = after_flag x.
Proof.
  unfold Js.trim.
  destruct after_flag_starts as (c & t & Hc & Hsolid).
  rewrite Hc, trimStart_solid by assumption. rewrite <- Hc.
  destruct after_flag_ends as (u & c' & Hu & Hsolid').
  rewrite Hu. now apply trimEnd_solid.
Qed.

Lemma trim_status_line :
  Js.trim (status_line x)
  = if Ascii.eqb (flag x) " " then after_flag x else status_line x.
Proof.
  change (status_line x) with (String (flag x) (after_flag x)).
  destruct well_formed_inv as ([Hf|Hf] & _).
  - rewrite Hf. simpl. unfold Js.trim. rewrite trimStart_space.
    apply trim_after_flag.
  - destruct (Ascii.eqb_spec (flag x) " ") as [Heq|_].
    { rewrite Heq in Hf. discriminate. }
    unfold Js.trim. rewrite trimStart_solid by assumption.
    destruct after_flag_ends as (u & c' & -> & Hsolid').
    rewrite <- append_cons. now apply trimEnd_solid.
Qed.

Lemma status_line_truthy : Js.truthy (Js.trim (status_line x)) = true.
Proof.
  rewrite trim_status_line.
  destruct after_flag_starts as (c & t & Hc & _).
  change (status_line x) with (String (flag x) (after_flag x)).
  destruct (Ascii.eqb _ _); [rewrite Hc|]; reflexivity.
Qed.

(** The parts of a path begin with what stands before its first space. *)
Lemma split_head (p : string) :
  exists rest, split " " p = before_space p :: rest.
Proof.
  induction p as [|c p (rest & IH)]; [now exists []|].
  cbn [split before_space]. destruct (Ascii.eqb c " "); [now eexists|].
  rewrite IH. now eexists.
Qed.

(** The parts of the line after its flag. *)
Lemma split_after_flag (pre : string) :
  all_solid pre = true ->
  exists more,
    split " " (pre +:+ after_flag x)
    = (pre +:+ sha x) :: (split " " (path x) ++ more)
    /\ (more = [] /\ describe x = None
        \/ exists d, describe x = Some d /\ more = ["(" +:+ d +:+ ")"]).
Proof.
  intros Hpre.
  destruct well_formed_inv as (_ & Hs & _ & _ & Hd).
  destruct (word_inv _ Hs) as [Hss _].
  unfold after_flag.
  change (sha x +:+ " " +:+ ?r) with (sha x +:+ String " " r).
  rewrite <- append_assoc.
  rewrite split_app by (apply solid_free; [reflexivity|];
                        rewrite all_solid_app, Hpre, Hss; reflexivity).
  destruct (describe x) as [d|].
  - destruct (word_inv _ (Hd d eq_refl)) as [Hds _].
    change (" (" +:+ d +:+ ")") with (String " " ("(" +:+ d +:+ ")")).
    rewrite split_app_any, (split_free " " ("(" +:+ d +:+ ")")).
    + eexists. split; [reflexivity|]. right. now exists d.
    + apply solid_free; [reflexivity|]. now apply solid_wrap.
  - rewrite append_nil_r. exists []. rewrite app_nil_r.
    split; [reflexivity|]. now left.
Qed.

Lemma trimmed_name :
  split " " (Js.trim (status_line x)) !! 1 = Some (before_space (path x)).
Proof.
  rewrite trim_status_line.
  destruct (split_head (path x)) as (rest & Hhead).
  destruct well_formed_inv as ([Hf|Hf] & _).
  - rewrite Hf. simpl.
    destruct (split_after_flag EmptyString eq_refl) as (more & Hsplit & _).
    change (EmptyString +:+ after_flag x) with (after_flag x) in Hsplit.
    now rewrite Hsplit, Hhead.
  - destruct (Ascii.eqb_spec (flag x) " ") as [Heq|_].
    { rewrite Heq in Hf. discriminate. }
    destruct (split_after_flag (String (flag x) EmptyString)) as (more & Hsplit & _).
    { simpl. now rewrite Hf. }
    change (status_line x) with (String (flag x) EmptyString +:+ after_flag x).
    now rewrite Hsplit, Hhead.
Qed.

Lemma untrimmed_name :
  chalk_text (split " " (status_line x) !! 2) = third_part x.
Proof.
  unfold third_part.
  destruct (split_head (path x)) as (rest & Hhead).
  destruct well_formed_inv as ([Hf|Hf] & _).
  - change (status_line x) with (String (flag x) (after_flag x)).
    rewrite Hf. cbn [split Ascii.eqb Bool.eqb].
    destruct (split_after_flag EmptyString eq_refl) as (more & Hsplit & _).
    change (EmptyString +:+ after_flag x) with (after_flag x) in Hsplit.
    now rewrite Hsplit, Hhead.
  - destruct (Ascii.eqb_spec (flag x) " ") as [Heq|_].
    { rewrite Heq in Hf. discriminate. }
    destruct (split_after_flag (String (flag x) EmptyString))
      as (more & Hsplit & Hmore).
    { simpl. now rewrite Hf. }
    change (status_line x) with (String (flag x) EmptyString +:+ after_flag x).
    rewrite Hsplit, Hhead.
    destruct rest as [|second rest]; [|reflexivity].
    destruct Hmore as [[-> Hd]|(d & Hd & ->)]; now rewrite Hd.
Qed.

Lemma status_line_one_line : free_of LF (status_line x) = true.
Proof.
  destruct well_formed_inv as (Hf & Hs & Hp & _ & Hd).
  destruct (word_inv _ Hs) as [Hss _].
  unfold status_line. simpl. apply andb_true_iff. split.
  - destruct Hf as [->|Hf]; [reflexivity|].
    destruct (Ascii.eqb_spec (flag x) LF) as [Heq|_]; [|reflexivity].
    rewrite Heq in Hf. discriminate.
  - fold (after_flag x). unfold after_flag.
    destruct (describe x) as [d|].
    + destruct (word_inv _ (Hd d eq_refl)) as [Hds _].
      rewrite !free_of_app.
      rewrite (solid_free LF (sha x)), Hp,
        (solid_free LF d) by (try reflexivity; assumption).
      reflexivity.
    + rewrite !free_of_app.
      rewrite (solid_free LF (sha x)), Hp by (try reflexivity; assumption).
      reflexivity.
Qed.
End LineFacts.

Section OutputFacts.
Import WorkspaceList Porcelain.

Lemma concat_cons (a : string) (l : list string) :
  String.concat EmptyString (a :: l) = a +:+ String.concat EmptyString l.
Proof.
  destruct l as [|b l]; [|reflexivity].
  cbn [String.concat]. now rewrite append_nil_r.
Qed.

Lemma status_output_cons (x : entry) (l : list entry) :
  status_output (x :: l)
  = String (flag x) (after_flag x +:+ String LF (status_output l)).
Proof.
  unfold status_output. cbn [map]. rewrite concat_cons.
  change (status_line x) with (String (flag x) (after_flag x)).
  now rewrite append_assoc, append_cons.
Qed.

Lemma status_output_lines (x : entry) (l : list entry) :
  status_output (x :: l) = status_line x +:+ String LF (status_output l).
Proof. now rewrite status_output_cons. Qed.

Lemma rest_ends (l : list entry) :
  forall x, forallb well_formed (x :: l) = true ->
  exists U c, solid_char c = true
    /\ after_flag x +:+ String LF (status_output l)
       = (U +:+ String c EmptyString) +:+ String LF EmptyString.
Proof.
  induction l as [|y l IH]; intros x Hall;
    cbn [forallb] in Hall; apply andb_true_iff in Hall as [Hx Hl].
  - destruct (after_flag_ends x Hx) as (U & c & -> & Hc).
    exists U, c. split; [exact Hc|reflexivity].
  - destruct (IH y Hl) as (U & c & Hc & Heq).
    rewrite status_output_cons, Heq.
    exists (after_flag x +:+ String LF (String (flag y) U)), c.
    split; [exact Hc|].
    rewrite !append_assoc. rewrite !append_cons. reflexivity.
Qed.

Lemma status_output_not_blank (l : list entry) :
  forallb well_formed l = true -> l <> [] ->
  (String.length (Js.trim (status_output l)) =? 0)%nat = false.
Proof.
  intros Hall Hne. destruct l as [|x l]; [congruence|].
  assert (Hx : well_formed x = true).
  { cbn [forallb] in Hall. now apply andb_true_iff in Hall as [Hx _]. }
  destruct (rest_ends l x Hall) as (U & c & Hc & Heq).
  destruct (after_flag_starts x Hx) as (c0 & t0 & H0 & Hc0).
  rewrite status_output_cons.
  destruct (well_formed_inv x Hx) as ([Hf|Hf] & _).
  - rewrite Hf. unfold Js.trim. rewrite trimStart_space.
    rewrite H0, append_cons, trimStart_solid by assumption.
    rewrite <- append_cons, <- H0, Heq, trimEnd_LF, trimEnd_solid by assumption.
    rewrite length_append. cbn [String.length]. apply Nat.eqb_neq. lia.
  - unfold Js.trim. rewrite trimStart_solid by assumption.
    rewrite Heq, <- !append_cons, trimEnd_LF, trimEnd_solid by assumption.
    rewrite length_append. cbn [String.length]. apply Nat.eqb_neq. lia.
Qed.

Lemma lines_of_output (l : list entry) :
  forallb well_formed l = true ->
  split LF (status_output l) = map status_line l ++ [EmptyString].
Proof.
  induction l as [|x l IH]; [reflexivity|].
  cbn [forallb]. intros [Hx Hl]%andb_true_iff.
  rewrite status_output_lines, split_app by (now apply status_line_one_line).
  now rewrite IH.
Qed.
End OutputFacts.

Section ListFacts.
Import WorkspaceList Porcelain.

Lemma listed_paths (entries : list entry) :
  forallb well_formed entries = true -> entries <> [] ->
  listed false (status_output entries)
  = Out Blue "Workspaces (Submodules):"
    :: map (fun x => Out Green (before_space (path x))) entries.
Proof.
  intros Hall Hne. unfold listed.
  rewrite status_output_not_blank, lines_of_output by assumption.
  rewrite !flat_map_app. cbn [flat_map]. rewrite trim_empty.
  cbn [Js.truthy String.eqb negb]. rewrite !app_nil_r.
  clear Hne. f_equal.
  induction entries as [|x l IH]; [reflexivity|].
  cbn [forallb] in Hall. apply andb_true_iff in Hall as [Hx Hl].
  cbn [map flat_map]. rewrite status_line_truthy, trimmed_name by assumption.
  cbn [app chalk_text default]. now rewrite IH.
Qed.

Lemma listed_untrimmed_parts (entries : list entry) :
  forallb well_formed entries = true -> entries <> [] ->
  listed_untrimmed false (status_output entries)
  = Out Blue "Workspaces (Submodules):"
    :: map (fun x => Out Green (third_part x)) entries.
Proof.
  intros Hall Hne. unfold listed_untrimmed.
  rewrite status_output_not_blank, lines_of_output by assumption.
  rewrite !flat_map_app. cbn [flat_map]. rewrite trim_empty.
  cbn [Js.truthy String.eqb negb]. rewrite !app_nil_r.
  clear Hne. f_equal.
  induction entries as [|x l IH]; [reflexivity|].
  cbn [forallb] in Hall. apply andb_true_iff in Hall as [Hx Hl].
  cbn [map flat_map]. rewrite status_line_truthy, untrimmed_name by assumption.
  cbn [app]. now rewrite IH.
Qed.

Context {World : Type} (e : engine World).

Lemma for_of_say (l : list said) (s : run (session World)) :
  for_of l say s
  = (inl tt,
     {| world := {| inner := inner (world s);
                    events := events (world s) ++ map Say l |};
        calls := calls s; console := console s |}).
Proof.
  revert s. induction l as [|x l IH]; intros [[i evs] c k].
  - cbn. now rewrite app_nil_r.
  - cbn [for_of]. unfold bind at 1. cbn [say note world inner events calls console].
    rewrite IH. unfold note. cbn [world inner events calls console map].
    now rewrite <- app_assoc.
Qed.

(** The run of [workspace list] when both calls resolve. *)
Lemma list_run (lines : bool -> string -> list said) (cwd : string) (a : bool)
    (w w1 w2 : World) (o text : string) :
  plumbing e (Git.SimpleGit cwd) w = (Git.Resolve o, w1) ->
  plumbing e (Git.Raw cwd ["submodule"; "status"]) w1 = (Git.Resolve text, w2) ->
  let '(r, s') := workspaceCommand_list e lines cwd a (start (open w)) in
  r = inl tt
  /\ inner (world s') = w2
  /\ events (world s')
     = Call (Git.SimpleGit cwd) (Git.Resolve o)
       :: Call (Git.Raw cwd ["submodule"; "status"]) (Git.Resolve text)
       :: map Say (lines a text).
Proof.
  intros H1 H2.
  unfold workspaceCommand_list, simpleGit, raw, await, try_catch, bind, ret, helpers.
  cbv beta iota delta [start open world inner events calls console baseDir].
  rewrite H1.
  cbv beta iota delta [start open world inner events calls console baseDir].
  rewrite H2.
  cbv beta iota delta [start open world inner events calls console baseDir].
  rewrite for_of_say. cbn [world inner events calls console app].
  repeat split.
Qed.
End ListFacts.

(** X16: when [git submodule status] resolves with one line per entry (a
    flag that is a space, [+], [-] or [U]; the commit; a space; the path;
    possibly a space and a description in parentheses; commit and
    description being words of printable characters other than space, and
    the path having no line feed and ending in such a character),
    [workspace list] without [-a], in the version that trims each line and
    takes the second part, resolves having printed the heading and then,
    for every entry in order, the path up to its first space (the whole
    path when it has none), and nothing else. *)
Theorem workspace_list_prints_paths {World : Type} (e : Porcelain.engine World)
    (cwd : string) (w w1 w2 : World) (o : string)
    (entries : list WorkspaceList.entry) :
  Porcelain.plumbing e (Git.SimpleGit cwd) w = (Git.Resolve o, w1) ->
  Porcelain.plumbing e (Git.Raw cwd ["submodule"; "status"]) w1
  = (Git.Resolve (WorkspaceList.status_output entries), w2) ->
  forallb WorkspaceList.well_formed entries = true ->
  entries <> [] ->
  let '(r, s') :=
    WorkspaceList.workspaceCommand_list e WorkspaceList.listed cwd false
      (start (Porcelain.open w)) in
  r = inl tt
  /\ Porcelain.events (world s')
     = Porcelain.Call (Git.SimpleGit cwd) (Git.Resolve o)
       :: Porcelain.Call (Git.Raw cwd ["submodule"; "status"])
            (Git.Resolve (WorkspaceList.status_output entries))
       :: Porcelain.Say (Porcelain.Out Porcelain.Blue "Workspaces (Submodules):")
       :: map (fun x =>
                 Porcelain.Say
                   (Porcelain.Out Porcelain.Green
                      (WorkspaceList.before_space (WorkspaceList.path x))))
            entries.
Proof.
  intros H1 H2 Hall Hne.
  pose proof (list_run e WorkspaceList.listed cwd false w w1 w2 o _ H1 H2) as Hrun.
  destruct (WorkspaceList.workspaceCommand_list _ _ _ _ _) as [r s'].
  destruct Hrun as (Hr & _ & Hev). split; [exact Hr|].
  rewrite Hev, listed_paths by assumption.
  cbn [map]. now rewrite map_map.
Qed.

Lemma workspace_list_prints_paths_witness :
  let '(r, s') :=
    WorkspaceList.workspaceCommand_list
      (WorkspaceList.sample_listing
         (WorkspaceList.status_output WorkspaceList.sample_entries))
      WorkspaceList.listed "/noted" false (start (Porcelain.open tt)) in
  r = inl tt
  /\ Porcelain.events (world s')
     = [ Porcelain.Call (Git.SimpleGit "/noted") (Git.Resolve EmptyString);
         Porcelain.Call (Git.Raw "/noted" ["submodule"; "status"])
           (Git.Resolve (WorkspaceList.status_output WorkspaceList.sample_entries));
         Porcelain.Say (Porcelain.Out Porcelain.Blue "Workspaces (Submodules):");
         Porcelain.Say (Porcelain.Out Porcelain.Green "ws1");
         Porcelain.Say (Porcelain.Out Porcelain.Green "ws2");
         Porcelain.Say (Porcelain.Out Porcelain.Green "ws3");
         Porcelain.Say (Porcelain.Out Porcelain.Green "My");
         Porcelain.Say (Porcelain.Out Porcelain.Green "Old") ].
Proof.
  exact (workspace_list_prints_paths
           (WorkspaceList.sample_listing
              (WorkspaceList.status_output WorkspaceList.sample_entries))
           "/noted" tt tt tt EmptyString WorkspaceList.sample_entries
           eq_refl eq_refl eq_refl ltac:(discriminate)).
Defined.

(** X17: on the same output, the version of [workspace list] that splits
    each line as it is and takes the third part prints, for an entry whose
    flag is a space, the path up to its first space; for an entry flagged
    [+], [-] or [U] it prints the second of the parts of the path that
    spaces separate, and for a path without space the description in
    parentheses, or [undefined] when the line has none. *)
Theorem workspace_list_untrimmed_prints_third_part {World : Type}
    (e : Porcelain.engine World) (cwd : string) (w w1 w2 : World) (o : string)
    (entries : list WorkspaceList.entry) :
  Porcelain.plumbing e (Git.SimpleGit cwd) w = (Git.Resolve o, w1) ->
  Porcelain.plumbing e (Git.Raw cwd ["submodule"; "status"]) w1
  = (Git.Resolve (WorkspaceList.status_output entries), w2) ->
  forallb WorkspaceList.well_formed entries = true ->
  entries <> [] ->
  let '(r, s') :=
    WorkspaceList.workspaceCommand_list e WorkspaceList.listed_untrimmed cwd false
      (start (Porcelain.open w)) in
  r = inl tt
  /\ Porcelain.events (world s')
     = Porcelain.Call (Git.SimpleGit cwd) (Git.Resolve o)
       :: Porcelain.Call (Git.Raw cwd ["submodule"; "status"])
            (Git.Resolve (WorkspaceList.status_output entries))
       :: Porcelain.Say (Porcelain.Out Porcelain.Blue "Workspaces (Submodules):")
       :: map (fun x =>
                 Porcelain.Say
                   (Porcelain.Out Porcelain.Green
                      (if Ascii.eqb (WorkspaceList.flag x) " "
                       then WorkspaceList.before_space (WorkspaceList.path x)
                       else
                         match WorkspaceList.split " " (WorkspaceList.path x) with
                         | _ :: second :: _ => second
                         | _ =>
                             match WorkspaceList.describe x with
                             | Some d => "(" +:+ d +:+ ")"
                             | None => "undefined"
                             end
                         end)))
            entries.
Proof.
  intros H1 H2 Hall Hne.
  pose proof (list_run e WorkspaceList.listed_untrimmed cwd false w w1 w2 o _ H1 H2)
    as Hrun.
  destruct (WorkspaceList.workspaceCommand_list _ _ _ _ _) as [r s'].
  destruct Hrun as (Hr & _ & Hev). split; [exact Hr|].
  rewrite Hev, listed_untrimmed_parts by assumption.
  cbn [map]. now rewrite map_map.
Qed.

Lemma workspace_list_untrimmed_prints_third_part_witness :
  let '(r, s') :=
    WorkspaceList.workspaceCommand_list
      (WorkspaceList.sample_listing
         (WorkspaceList.status_output WorkspaceList.sample_entries))
      WorkspaceList.listed_untrimmed "/noted" false (start (Porcelain.open tt)) in
  r = inl tt
  /\ Porcelain.events (world s')
     = [ Porcelain.Call (Git.SimpleGit "/noted") (Git.Resolve EmptyString);
         Porcelain.Call (Git.Raw "/noted" ["submodule"; "status"])
           (Git.Resolve (WorkspaceList.status_output WorkspaceList.sample_entries));
         Porcelain.Say (Porcelain.Out Porcelain.Blue "Workspaces (Submodules):");
         Porcelain.Say (Porcelain.Out Porcelain.Green "ws1");
         Porcelain.Say (Porcelain.Out Porcelain.Green "(v1)");
         Porcelain.Say (Porcelain.Out Porcelain.Green "undefined");
         Porcelain.Say (Porcelain.Out Porcelain.Green "My");
         Porcelain.Say (Porcelain.Out Porcelain.Green "Notes") ].
Proof.
  exact (workspace_list_untrimmed_prints_third_part
           (WorkspaceList.sample_listing
              (WorkspaceList.status_output WorkspaceList.sample_entries))
           "/noted" tt tt tt EmptyString WorkspaceList.sample_entries
           eq_refl eq_refl eq_refl ltac:(discriminate)).
Defined.

(** X18: [workspace list] never throws, in either version and with or
    without [-a]: when a call on git rejects, the command resolves, and
    the last thing it did was to print the line for an error of the
    listing, followed by the message of the rejection. *)
Theorem workspace_list_reports_rejection {World : Type} (e : Porcelain.engine World)
    (lines : bool -> string -> list Porcelain.said) (cwd : string) (a : bool)
    (w : World) :
  let '(r, s') :=
    WorkspaceList.workspaceCommand_list e lines cwd a (start (Porcelain.open w)) in
  r = inl tt
  /\ forall req msg,
       In (Porcelain.Call req (Git.Reject msg)) (Porcelain.events (world s')) ->
       last (Porcelain.events (world s'))
       = Some (Porcelain.Say
                 (Porcelain.ErrThen Porcelain.Red "✖ Error listing workspaces: " msg)).
Proof.
  unfold WorkspaceList.workspaceCommand_list, simpleGit, raw, await, try_catch, bind,
    ret, Porcelain.helpers.
  cbv beta iota delta [start Porcelain.open world Porcelain.inner Porcelain.events
                         calls console baseDir].
  destruct (Porcelain.plumbing e (Git.SimpleGit cwd) w) as [[o|msg1] w1];
    cbv beta iota delta [start Porcelain.open world Porcelain.inner Porcelain.events
                           calls console baseDir message].
  - destruct (Porcelain.plumbing e (Git.Raw cwd ["submodule"; "status"]) w1)
      as [[text|msg2] w2];
      cbv beta iota delta [start Porcelain.open world Porcelain.inner Porcelain.events
                             calls console baseDir message].
    + rewrite for_of_say. cbn [world Porcelain.inner Porcelain.events app].
      split; [reflexivity|]. intros req msg [Heq|[Heq|Hin]]; try discriminate.
      apply in_map_iff in Hin as (l & Heq & _). discriminate.
    + unfold Porcelain.say, Porcelain.note.
      cbn [world Porcelain.inner Porcelain.events app].
      split; [reflexivity|].
      intros req msg [Heq|[Heq|[Heq|[]]]]; try discriminate.
      injection Heq as _ <-. reflexivity.
  - unfold Porcelain.say, Porcelain.note.
    cbn [world Porcelain.inner Porcelain.events app].
    split; [reflexivity|].
    intros req msg [Heq|[Heq|[]]]; try discriminate.
    injection Heq as _ <-. reflexivity.
Qed.

(** ** A note added and then deleted *)

Section RoundTrip.

Lemma pretty_N_go_suffix (x : N) :
  forall s, exists u, pretty_N_go x s = u +:+ s.
Proof.
  induction (N.lt_wf_0 x) as [x _ IH]; intros s.
  assert (x = 0 \/ 0 < x)%N as [->|Hpos] by lia.
  - exists EmptyString. now rewrite pretty_N_go_0.
  - rewrite pretty_N_go_step by assumption.
    destruct (IH (x `div` 10)%N (N.div_lt x 10 Hpos eq_refl)
                (String (pretty_N_char (x `mod` 10)) s)) as (u & ->).
    exists (u +:+ String (pretty_N_char (x `mod` 10)) EmptyString).
    now rewrite append_assoc.
Qed.

Lemma pretty_N_char_digit (x : N) : pretty_N_char x <> "d"%char.
Proof. unfold pretty_N_char. repeat case_match; discriminate. Qed.

Lemma pretty_ends_digit (n : nat) :
  exists u d, pretty n = u +:+ String d EmptyString /\ d <> "d"%char.
Proof.
  unfold pretty, pretty_nat, pretty, pretty_N.
  destruct (decide (N.of_nat n = 0%N)) as [_|Hne].
  - exists EmptyString, "0"%char. split; [reflexivity|discriminate].
  - rewrite pretty_N_go_step by lia.
    destruct (pretty_N_go_suffix (N.of_nat n `div` 10)
                (String (pretty_N_char (N.of_nat n `mod` 10)) EmptyString)) as (u & ->).
    exists u, (pretty_N_char (N.of_nat n `mod` 10)).
    split; [reflexivity|apply pretty_N_char_digit].
Qed.

Lemma endsWith_suffix (s p : string) :
  JsString.endsWith s p = true -> exists u, s = u +:+ p.
Proof.
  induction s as [|c s IH]; cbn [JsString.endsWith].
  - rewrite orb_false_r. intros ->%String.eqb_eq. now exists EmptyString.
  - intros [->%String.eqb_eq|Hrest]%orb_true_iff.
    + now exists EmptyString.
    + destruct (IH Hrest) as (u & ->). now exists (String c u).
Qed.

Lemma digit_end_no_md (s : string) (d : ascii) :
  d <> "d"%char -> JsString.endsWith (s +:+ String d EmptyString) ".md" = false.
Proof.
  intros Hd. apply not_true_is_false. intros (u & Heq)%endsWith_suffix.
  apply (f_equal String.rev) in Heq. rewrite !rev_append in Heq.
  change (String.rev (String d EmptyString)) with (String d EmptyString) in Heq.
  change (String.rev ".md") with "dm." in Heq.
  rewrite !append_cons in Heq. now injection Heq as -> _.
Qed.

Lemma candidate_no_md (base : string) (k : nat) :
  JsString.endsWith (Names.candidate base k) ".md" = false.
Proof.
  unfold Names.candidate.
  destruct (pretty_ends_digit k) as (u & d & -> & Hd).
  rewrite <- !append_assoc. now apply digit_end_no_md.
Qed.

Lemma note_loop_names (existing : gset string) (base : string) (fuel : nat) :
  forall name c r,
    Notes.note_loop existing fuel base name c = Some r ->
    r = name \/ exists k, r = Names.candidate base k.
Proof.
  induction fuel as [|fuel IH]; intros name c r; cbn [Notes.note_loop]; [discriminate|].
  destruct (Names.existsSync_in_dir _ _).
  - intros [->|Hk]%IH; right; [now exists c|exact Hk].
  - intros [= ->]. now left.
Qed.
End RoundTrip.

(** X19: [note delete], given the name that [note add] has printed for the
    note it created, looks for (and so removes) the file that [note add]
    wrote, provided the name asked for does not itself end in [.md]: the
    numbered names the loop makes never end in [.md]. *)
Theorem note_delete_finds_added_note (existing : gset string)
    (join : string -> string -> string) (currentDir : string)
    (noteName : option string) (fuel : nat) (r : string) :
  Notes.noteCommand_add existing fuel noteName = Some r ->
  JsString.endsWith (default "untitled-note" noteName) ".md" = false ->
  Notes.noteCommand_delete_path join currentDir r = join currentDir (r +:+ ".md").
Proof.
  unfold Notes.noteCommand_add, Notes.noteCommand_delete_path.
  intros [->|(k & ->)]%note_loop_names Hbase.
  - now rewrite Hbase.
  - now rewrite candidate_no_md.
Qed.

Lemma note_delete_finds_added_note_witness :
  Notes.noteCommand_delete_path (fun a b => a +:+ "/" +:+ b) "/noted/ws" "a-1"
  = "/noted/ws/a-1.md".
Proof.
  exact (note_delete_finds_added_note {["a.md"]} (fun a b => a +:+ "/" +:+ b)
           "/noted/ws" (Some "a") 3 "a-1" eq_refl eq_refl).
Defined.

